(** * A shallow embedding of [advanced-vector/vector.h]

    [RawMemory<T>] owns an uninitialised buffer, [Vector<T>] keeps the first
    [size_] slots of it alive.  The embedding follows the header function by
    function.

    - A buffer is a block identity (the value of [buffer_], [0] for
      [nullptr]) together with the cells the block owns; a cell is either raw
      memory or a live object of type [T].
    - The element type [T] is a parameter.  What the header needs from it
      (its constructors, its assignment operators, the two traits inspected by
      [if constexpr]) is collected in the class [Element].
    - Member functions are computations in a small state-and-exception monad
      over a frame that holds [*this], the object bound to a reference
      parameter, the local [new_data], and the world (allocator counter and the
      trace of allocator and destructor events).
    - [size_t] counters are [nat]: a live buffer never holds more than
      [PTRDIFF_MAX] bytes, so [size_ * 2] does not wrap for any state the
      allocator can produce.  A count that comes from the caller ([Reserve],
      [Resize], [Vector (n)]) is another matter: [Allocate] multiplies it by
      [sizeof (T)] in [size_t], and the embedding follows the header only for
      counts whose product does not wrap ([fits]); the theorems about these
      functions say so.  [assert] is modelled as in a debug build: a failed
      assertion stops the program ([Abort]). *)

From Stdlib Require Import Arith NArith Lia Bool.
From stdpp Require Import base option list.

Set Default Proof Using "Type".

(** ** Memory, events, outcomes *)

(** Identity of an allocation; [0] is the null pointer. *)
Definition block := nat.

(** A [T*] / [iterator]: a block and an offset counted in elements. *)
Record ptr := Ptr { blk : block; off : nat }.

Inductive slot (T : Type) : Type :=
| Raw
| Live (t : T).
Arguments Raw {T}.
Arguments Live {T} t.

(** What an instrumented run can observe. *)
Inductive event : Type :=
| Alloc (b : block) (n : nat)     (* operator new for n elements returned b *)
| Free (b : block)                (* operator delete(b), b not null *)
| Dtor (b : block) (i : nat)      (* ~T() on the live object in slot i of b *)
| DtorDead (b : block) (i : nat)  (* ~T() on a slot that holds no live object *)
| Leak (b : block) (i : nat).     (* a live object lost without ~T() *)

Inductive exn : Type :=
| bad_alloc
| elem_exn.

Inductive res (A : Type) : Type :=
| Ok (a : A)
| Throw (e : exn)
| Abort.
Arguments Ok {A} a.
Arguments Throw {A} e.
Arguments Abort {A}.

(** ** The element type

    [relocate_by_move] is the value of
    [is_nothrow_move_constructible_v<T> || !is_copy_constructible_v<T>].
    A successful copy or move gives the target the value of the source; a
    move leaves the source holding [moved_from] of its value.  A throwing
    constructor or assignment leaves its operands as they were.
    [alloc_fails n] tells whether [operator new (n * sizeof(T))] throws;
    [sizeof_T] is [sizeof(T)], at least 1. *)
Class Element (T : Type) : Type := {
  sizeof_T : positive;
  relocate_by_move : bool;
  value_init : option T;
  copy_throws : T → bool;
  move_throws : T → bool;
  copy_assign_throws : T → bool;
  move_assign_throws : T → bool;
  moved_from : T → T;
  alloc_fails : nat → bool;
}.

(** ** Records of the two classes *)

Record RawMemory (T : Type) : Type := mkRaw {
  buffer_ : block;
  cells : list (slot T);
  capacity_ : nat;
}.
Arguments mkRaw {T}.
Arguments buffer_ {T}.
Arguments cells {T}.
Arguments capacity_ {T}.

Record Vector (T : Type) : Type := mkVec {
  data_ : RawMemory T;
  size_ : nat;
}.
Arguments mkVec {T}.
Arguments data_ {T}.
Arguments size_ {T}.

Record World : Type := mkWorld {
  log : list event;
  next_block : nat;
}.

(** The frame of a member function call. *)
Record St (T : Type) : Type := mkSt {
  this : Vector T;
  other : Vector T;
  new_data : RawMemory T;
  world : World;
}.
Arguments mkSt {T}.
Arguments this {T}.
Arguments other {T}.
Arguments new_data {T}.
Arguments world {T}.

(** Which [RawMemory] object of the frame an address expression names. *)
Inductive mem : Type :=
| Data        (* this->data_ *)
| OtherData   (* other.data_ / rhs.data_ *)
| NewData.    (* the local new_data *)

(** ** The monad of member functions *)

Section Monad.
Context {T : Type}.

Definition M (A : Type) : Type := St T → res A * St T.

Definition ret {A} (a : A) : M A := λ s, (Ok a, s).

Definition bind {A B} (m : M A) (f : A → M B) : M B := λ s,
  match m s with
  | (Ok a, s') => f a s'
  | (Throw e, s') => (Throw e, s')
  | (Abort, s') => (Abort, s')
  end.

Definition throw {A} (e : exn) : M A := λ s, (Throw e, s).

Definition abort {A} : M A := λ s, (Abort, s).

(** [try { m } catch (...) { h; throw; }] *)
Definition try_catch {A} (m : M A) (h : M unit) : M A := λ s,
  match m s with
  | (Throw e, s') =>
      match h s' with
      | (Ok _, s'') => (Throw e, s'')
      | (Throw e', s'') => (Throw e', s'')
      | (Abort, s'') => (Abort, s'')
      end
  | r => r
  end.

Definition gets {A} (f : St T → A) : M A := λ s, (Ok (f s), s).

Definition modify (f : St T → St T) : M unit := λ s, (Ok tt, f s).

Definition assert (b : bool) : M unit := if b then ret tt else abort.

End Monad.

Arguments M T A : clear implicits.

Declare Scope cpp_scope.
Delimit Scope cpp_scope with cpp.
Notation "x ← y ; z" := (bind y (λ x, z))
  (at level 20, y at level 100, z at level 200, only parsing) : cpp_scope.
Notation "x ;; z" := (bind x (λ _, z))
  (at level 100, z at level 200, only parsing, right associativity) : cpp_scope.
Local Open Scope cpp_scope.

(** ** The model of the header *)

Section Model.
Context {T : Type} `{Element T}.

#[local] Abbreviation M := (M T).

Definition RawMemory_default : RawMemory T := mkRaw 0 [] 0.

Definition Vector_default : Vector T := mkVec RawMemory_default 0.

(** *** Frame accessors *)

Definition get_mem (m : mem) (s : St T) : RawMemory T :=
  match m with
  | Data => data_ (this s)
  | OtherData => data_ (other s)
  | NewData => new_data s
  end.

Definition set_mem (m : mem) (r : RawMemory T) (s : St T) : St T :=
  match m with
  | Data => mkSt (mkVec r (size_ (this s))) (other s) (new_data s) (world s)
  | OtherData => mkSt (this s) (mkVec r (size_ (other s))) (new_data s) (world s)
  | NewData => mkSt (this s) (other s) r (world s)
  end.

Definition set_cells (m : mem) (cs : list (slot T)) (s : St T) : St T :=
  set_mem m (mkRaw (buffer_ (get_mem m s)) cs (capacity_ (get_mem m s))) s.

Definition set_size (n : nat) (s : St T) : St T :=
  mkSt (mkVec (data_ (this s)) n) (other s) (new_data s) (world s).

Definition set_other_size (n : nat) (s : St T) : St T :=
  mkSt (this s) (mkVec (data_ (other s)) n) (new_data s) (world s).

Definition set_this (v : Vector T) (s : St T) : St T :=
  mkSt v (other s) (new_data s) (world s).

Definition add_log (ev : list event) (s : St T) : St T :=
  mkSt (this s) (other s) (new_data s)
       (mkWorld (log (world s) ++ ev) (next_block (world s))).

(** *** The allocator *)

(** Objects still alive in a block that is being given back. *)
Fixpoint leaked (b : block) (i : nat) (cs : list (slot T)) : list event :=
  match cs with
  | [] => []
  | Raw :: cs' => leaked b (S i) cs'
  | Live _ :: cs' => Leak b i :: leaked b (S i) cs'
  end.

(** The largest [size_t], 64 bits wide. *)
Definition SIZE_MAX : N := 18446744073709551615.

(** The byte count [n * sizeof(T)] that [Allocate] computes in [size_t] is
    the true product: it does not wrap. *)
Definition fits (n : nat) : Prop := (N.of_nat n * Npos sizeof_T <= SIZE_MAX)%N.

(** The room, counted in objects, of the block that [Allocate (n)] asks
    [operator new] for: [n * sizeof(T)] bytes, computed in [size_t]. *)
Definition room (n : nat) : nat :=
  N.to_nat ((N.of_nat n * Npos sizeof_T) mod (SIZE_MAX + 1) / Npos sizeof_T).

(** [RawMemory::Allocate], for a count that [fits]; the block then has room
    for [n] objects.  For a larger count the header asks [operator new] for
    the wrapped product and gets a block that is too short for the
    [capacity_] it records: such calls are outside the embedding. *)
Definition Allocate (n : nat) : M (block * list (slot T)) := λ s,
  if n =? 0 then (Ok (0, []), s)
  else if alloc_fails n then (Throw bad_alloc, s)
  else
    let b := S (next_block (world s)) in
    (Ok (b, replicate n Raw),
     mkSt (this s) (other s) (new_data s)
          (mkWorld (log (world s) ++ [Alloc b n]) b)).

(** [RawMemory::Deallocate]: [operator delete] on a null pointer does
    nothing. *)
Definition Deallocate (r : RawMemory T) : M unit :=
  if buffer_ r =? 0 then ret tt
  else modify (add_log (leaked (buffer_ r) 0 (cells r) ++ [Free (buffer_ r)])).

(** [explicit RawMemory(size_t capacity)] *)
Definition RawMemory_new (capacity : nat) : M (RawMemory T) :=
  a ← Allocate capacity;
  ret (mkRaw (fst a) (snd a) capacity).

(** [RawMemory::operator+]; the result is the offset of the addressed slot. *)
Definition RawMemory_plus (m : mem) (offset : nat) : M nat :=
  c ← gets (λ s, capacity_ (get_mem m s));
  assert (offset <=? c);;
  ret offset.

(** [RawMemory::operator[]] *)
Definition RawMemory_index (m : mem) (index : nat) : M ptr :=
  r ← gets (get_mem m);
  assert (index <? capacity_ r);;
  ret (Ptr (buffer_ r) index).

(** [RawMemory::Swap] between [data_] and [new_data]. *)
Definition Swap_data_new : M unit :=
  modify (λ s, set_mem Data (new_data s) (set_mem NewData (data_ (this s)) s)).

(** A block with a local [RawMemory<T> new_data(n)]: the buffer is given
    back when the block is left, whether normally or by an exception. *)
Definition with_new_data {A} (n : nat) (body : M A) : M A := λ s,
  let saved := new_data s in
  match RawMemory_new n s with
  | (Ok r, s1) =>
      let '(o, s2) := body (set_mem NewData r s1) in
      let '(_, s3) := Deallocate (new_data s2) s2 in
      (o, set_mem NewData saved s3)
  | (Throw e, s1) => (Throw e, s1)
  | (Abort, s1) => (Abort, s1)
  end.

(** *** Lifetime primitives on the cells of one block *)

(** [std::destroy_at] *)
Definition destroy_at (b : block) (i : nat) (cs : list (slot T))
  : list (slot T) * list event :=
  match cs !! i with
  | Some (Live _) => (<[i:=Raw]> cs, [Dtor b i])
  | _ => (cs, [DtorDead b i])
  end.

(** [std::destroy_n (first, n)], in increasing address order. *)
Fixpoint destroy_cells (b : block) (first n : nat) (cs : list (slot T))
  : list (slot T) * list event :=
  match n with
  | 0 => (cs, [])
  | S n' =>
      let '(cs1, e1) := destroy_at b first cs in
      let '(cs2, e2) := destroy_cells b (S first) n' cs1 in
      (cs2, e1 ++ e2)
  end.

(** Placement new of an object with value [t] into slot [i]; [None] when the
    slot lies outside the allocation. *)
Definition construct_at (b : block) (i : nat) (t : T) (cs : list (slot T))
  : option (list (slot T) * list event) :=
  match cs !! i with
  | Some Raw => Some (<[i:=Live t]> cs, [])
  | Some (Live _) => Some (<[i:=Live t]> cs, [Leak b i])
  | None => None
  end.

(** [std::uninitialized_copy_n]: [k] objects have been constructed so far;
    when a copy constructor throws they are destroyed before the exception
    leaves the algorithm. *)
Fixpoint uninitialized_copy_cells (src : list (slot T)) (first : nat)
    (b : block) (d_first k n : nat) (dst : list (slot T))
  : res unit * list (slot T) * list event :=
  match n with
  | 0 => (Ok tt, dst, [])
  | S n' =>
      match src !! (first + k) with
      | Some (Live t) =>
          if copy_throws t then
            let '(dst', ev) := destroy_cells b d_first k dst in
            (Throw elem_exn, dst', ev)
          else
            match construct_at b (d_first + k) t dst with
            | Some (dst', ev) =>
                let '(r, dst'', ev') :=
                  uninitialized_copy_cells src first b d_first (S k) n' dst' in
                (r, dst'', ev ++ ev')
            | None => (Abort, dst, [])
            end
      | _ => (Abort, dst, [])
      end
  end.

(** [std::uninitialized_move_n]: as above with the move constructor, which
    also changes the source object. *)
Fixpoint uninitialized_move_cells (first : nat) (b : block)
    (d_first k n : nat) (src dst : list (slot T))
  : res unit * list (slot T) * list (slot T) * list event :=
  match n with
  | 0 => (Ok tt, src, dst, [])
  | S n' =>
      match src !! (first + k) with
      | Some (Live t) =>
          if move_throws t then
            let '(dst', ev) := destroy_cells b d_first k dst in
            (Throw elem_exn, src, dst', ev)
          else
            match construct_at b (d_first + k) t dst with
            | Some (dst', ev) =>
                let '(r, src', dst'', ev') :=
                  uninitialized_move_cells first b d_first (S k) n'
                    (<[first + k := Live (moved_from t)]> src) dst' in
                (r, src', dst'', ev ++ ev')
            | None => (Abort, src, dst, [])
            end
      | _ => (Abort, src, dst, [])
      end
  end.

(** [std::uninitialized_value_construct_n] *)
Fixpoint uninitialized_value_construct_cells (b : block)
    (first k n : nat) (dst : list (slot T))
  : res unit * list (slot T) * list event :=
  match n with
  | 0 => (Ok tt, dst, [])
  | S n' =>
      match value_init with
      | None =>
          let '(dst', ev) := destroy_cells b first k dst in
          (Throw elem_exn, dst', ev)
      | Some t =>
          match construct_at b (first + k) t dst with
          | Some (dst', ev) =>
              let '(r, dst'', ev') :=
                uninitialized_value_construct_cells b first (S k) n' dst' in
              (r, dst'', ev ++ ev')
          | None => (Abort, dst, [])
          end
      end
  end.

(** [std::copy (first, first + n, d_first)] by copy assignment. *)
Fixpoint copy_cells (src : list (slot T)) (first d_first n : nat)
    (dst : list (slot T)) : res unit * list (slot T) :=
  match n with
  | 0 => (Ok tt, dst)
  | S n' =>
      match src !! first, dst !! d_first with
      | Some (Live t), Some (Live _) =>
          if copy_assign_throws t then (Throw elem_exn, dst)
          else copy_cells src (S first) (S d_first) n' (<[d_first:=Live t]> dst)
      | _, _ => (Abort, dst)
      end
  end.

(** One move assignment [cs[d] = std::move(cs[s])] inside a block. *)
Definition move_assign_cell (s d : nat) (cs : list (slot T))
  : res unit * list (slot T) :=
  match cs !! s, cs !! d with
  | Some (Live t), Some (Live _) =>
      if move_assign_throws t then (Throw elem_exn, cs)
      else (Ok tt, <[s:=Live (moved_from t)]> (<[d:=Live t]> cs))
  | _, _ => (Abort, cs)
  end.

(** [std::move (first, first + n, d_first)], front to back. *)
Fixpoint move_cells (first d_first n : nat) (cs : list (slot T))
  : res unit * list (slot T) :=
  match n with
  | 0 => (Ok tt, cs)
  | S n' =>
      match move_assign_cell first d_first cs with
      | (Ok _, cs') => move_cells (S first) (S d_first) n' cs'
      | r => r
      end
  end.

(** [std::move_backward (last - n, last, d_last)], back to front. *)
Fixpoint move_backward_cells (last d_last n : nat) (cs : list (slot T))
  : res unit * list (slot T) :=
  match n with
  | 0 => (Ok tt, cs)
  | S n' =>
      match move_assign_cell (last - 1) (d_last - 1) cs with
      | (Ok _, cs') => move_backward_cells (last - 1) (d_last - 1) n' cs'
      | r => r
      end
  end.

(** *** The algorithms of <memory> and <algorithm> on the frame *)

Definition destroy_n (m : mem) (first n : nat) : M unit := λ s,
  let r := get_mem m s in
  let '(cs, ev) := destroy_cells (buffer_ r) first n (cells r) in
  (Ok tt, add_log ev (set_cells m cs s)).

Definition uninitialized_copy_n (src : mem) (first n : nat)
    (dst : mem) (d_first : nat) : M unit := λ s,
  let d := get_mem dst s in
  let '(r, cs, ev) :=
    uninitialized_copy_cells (cells (get_mem src s)) first
                             (buffer_ d) d_first 0 n (cells d) in
  (r, add_log ev (set_cells dst cs s)).

Definition uninitialized_move_n (src : mem) (first n : nat)
    (dst : mem) (d_first : nat) : M unit := λ s,
  let d := get_mem dst s in
  let '(r, scs, dcs, ev) :=
    uninitialized_move_cells first (buffer_ d) d_first 0 n
                             (cells (get_mem src s)) (cells d) in
  (r, add_log ev (set_cells dst dcs (set_cells src scs s))).

(** [std::uninitialized_move_n] on a range of [const T]: [std::move] of a
    [const T&] is a [const T&&], which only the copy constructor accepts. *)
Definition uninitialized_move_n_const (src : mem) (first n : nat)
    (dst : mem) (d_first : nat) : M unit :=
  uninitialized_copy_n src first n dst d_first.

Definition uninitialized_value_construct_n (dst : mem) (first n : nat)
  : M unit := λ s,
  let d := get_mem dst s in
  let '(r, cs, ev) :=
    uninitialized_value_construct_cells (buffer_ d) first 0 n (cells d) in
  (r, add_log ev (set_cells dst cs s)).

(** [std::copy (src + first, src + first + n, dst + d_first)] *)
Definition std_copy (src : mem) (first n : nat) (dst : mem) (d_first : nat)
  : M unit := λ s,
  let '(r, cs) :=
    copy_cells (cells (get_mem src s)) first d_first n (cells (get_mem dst s)) in
  (r, set_cells dst cs s).

(** [std::move (first, last, d_first)] inside one buffer. *)
Definition std_move (m : mem) (first last d_first : nat) : M unit := λ s,
  let '(r, cs) := move_cells first d_first (last - first) (cells (get_mem m s)) in
  (r, set_cells m cs s).

(** [std::move_backward (first, last, d_last)] inside one buffer. *)
Definition move_backward (m : mem) (first last d_last : nat) : M unit := λ s,
  let '(r, cs) :=
    move_backward_cells last d_last (last - first) (cells (get_mem m s)) in
  (r, set_cells m cs s).

(** [new (p) T(std::forward<Args>(args)...)] at slot [i] of [m].  The
    argument [c] is what the constructor call evaluates to: [Some t] for an
    object of value [t], [None] when the constructor throws. *)
Definition placement_new (m : mem) (i : nat) (c : option T) : M unit :=
  match c with
  | None => throw elem_exn
  | Some t => λ s,
      let r := get_mem m s in
      match construct_at (buffer_ r) i t (cells r) with
      | Some (cs, ev) => (Ok tt, add_log ev (set_cells m cs s))
      | None => (Abort, s)
      end
  end.

(** [new (p) T(std::move(m[from]))] at slot [i] of the same buffer. *)
Definition placement_new_move (m : mem) (from i : nat) : M unit := λ s,
  let r := get_mem m s in
  match cells r !! from with
  | Some (Live t) =>
      if move_throws t then (Throw elem_exn, s)
      else
        match construct_at (buffer_ r) i t (cells r) with
        | Some (cs, ev) =>
            (Ok tt, add_log ev (set_cells m (<[from:=Live (moved_from t)]> cs) s))
        | None => (Abort, s)
        end
  | _ => (Abort, s)
  end.

(** What [T(value)] evaluates to for [const T& value] and for [T&& value]. *)
Definition copy_of (value : T) : option T :=
  if copy_throws value then None else Some value.

Definition move_of (value : T) : option T :=
  if move_throws value then None else Some value.

(** *** Cursors *)

Definition ptr_leb (p q : ptr) : bool :=
  (blk p =? blk q) && (off p <=? off q).

Definition ptr_ltb (p q : ptr) : bool :=
  (blk p =? blk q) && (off p <? off q).

Definition ptr_add (p : ptr) (n : nat) : ptr := Ptr (blk p) (off p + n).

(** *** Vector: observers *)

Definition Size : M nat := gets (λ s, size_ (this s)).

Definition Capacity : M nat := gets (λ s, capacity_ (data_ (this s))).

Definition begin : M ptr := gets (λ s, Ptr (buffer_ (data_ (this s))) 0).

Definition end_ : M ptr :=
  b ← begin;
  sz ← Size;
  ret (ptr_add b sz).

(** [T& operator[] (size_t index)] *)
Definition Vector_index (index : nat) : M ptr :=
  sz ← Size;
  assert (index <? sz);;
  RawMemory_index Data index.

(** *** Vector: growth *)

Definition Reserve (new_capacity : nat) : M unit :=
  cap ← Capacity;
  if new_capacity <=? cap then ret tt
  else
    with_new_data new_capacity (
      sz ← Size;
      (if relocate_by_move
       then uninitialized_move_n Data 0 sz NewData 0
       else uninitialized_copy_n Data 0 sz NewData 0);;
      Swap_data_new;;
      destroy_n NewData 0 sz).

Definition Resize (new_size : nat) : M unit :=
  sz ← Size;
  (if sz <? new_size then
     cap ← Capacity;
     (if cap <? new_size then Reserve new_size else ret tt);;
     uninitialized_value_construct_n Data sz (new_size - sz)
   else
     destroy_n Data new_size (sz - new_size));;
  modify (set_size new_size).

Definition incr_size : M unit := modify (λ s, set_size (size_ (this s) + 1) s).

Definition decr_size : M unit := modify (λ s, set_size (size_ (this s) - 1) s).

Definition PopBack : M unit :=
  sz ← Size;
  assert (negb (sz =? 0));;
  destroy_n Data (sz - 1) 1;;
  decr_size.

Definition EmplaceBack (c : option T) : M ptr :=
  sz ← Size;
  (if sz =? 0 then
     Reserve 1;;
     placement_new Data 0 c
   else
     cap ← Capacity;
     if sz =? cap then
       with_new_data (sz * 2) (
         p ← RawMemory_plus NewData sz;
         placement_new NewData p c;;
         try_catch (
           (if relocate_by_move
            then uninitialized_move_n Data 0 sz NewData 0
            else uninitialized_copy_n Data 0 sz NewData 0);;
           destroy_n Data 0 sz;;
           Swap_data_new)
         (destroy_n NewData sz 1))
     else
       p ← RawMemory_plus Data sz;
       placement_new Data p c);;
  incr_size;;
  sz' ← Size;
  RawMemory_index Data (sz' - 1).

Definition PushBack (value : T) : M unit :=
  EmplaceBack (copy_of value);; ret tt.

Definition PushBack_rvalue (value : T) : M unit :=
  EmplaceBack (move_of value);; ret tt.

Definition Emplace (pos : ptr) (c : option T) : M ptr :=
  b ← begin;
  e ← end_;
  assert (ptr_leb b pos && ptr_leb pos e);;
  let dist := off pos - off b in
  sz ← Size;
  if dist =? sz then EmplaceBack c
  else
    cap ← Capacity;
    (if cap <=? sz then
       with_new_data (sz * 2) (
         p ← RawMemory_plus NewData dist;
         placement_new NewData p c;;
         try_catch (
           (if relocate_by_move then
              uninitialized_move_n Data 0 dist NewData 0;;
              uninitialized_move_n Data dist (sz - dist) NewData (dist + 1)
            else
              uninitialized_copy_n Data 0 dist NewData 0;;
              try_catch
                (uninitialized_copy_n Data dist (sz - dist) NewData (dist + 1))
                (destroy_n NewData 0 (dist + 1)));;
           destroy_n Data 0 sz;;
           Swap_data_new)
         (destroy_n NewData dist 1))
     else
       try_catch (
         p ← RawMemory_plus Data sz;
         placement_new_move Data (sz - 1) p;;
         move_backward Data dist sz (sz + 1);;
         destroy_n Data dist 1;;
         q ← RawMemory_plus Data dist;
         placement_new Data q c)
       (p ← RawMemory_plus Data sz;
        destroy_n Data p 1));;
    incr_size;;
    RawMemory_index Data dist.

(** [Insert (pos, value)], for a [value] that is not an element of the
    sequence at or after [pos]: the header keeps a reference and reads it
    only when it constructs the new element, in the in-place branch after
    the elements have been shifted.  The same holds for the arguments of
    [Emplace], whose constructor call is the parameter [c]. *)
Definition Insert (pos : ptr) (value : T) : M ptr :=
  Emplace pos (copy_of value).

Definition Insert_rvalue (pos : ptr) (value : T) : M ptr :=
  Emplace pos (move_of value).

Definition Erase (pos : ptr) : M ptr :=
  b ← begin;
  e ← end_;
  assert (ptr_leb b pos && ptr_ltb pos e);;
  let dist := off pos - off b in
  sz ← Size;
  std_move Data (dist + 1) sz dist;;
  destroy_n Data (sz - 1) 1;;
  decr_size;;
  RawMemory_index Data dist.

(** *** Vector: construction, destruction, assignment *)

(** Run a member function of another object [v]; the caller's [*this] and
    [new_data] are untouched. *)
Definition in_object {A} (v : Vector T) (m : M A) : M (A * Vector T) := λ s,
  let '(r, s') := m (mkSt v (other s) RawMemory_default (world s)) in
  let s'' := mkSt (this s) (other s') (new_data s) (world s') in
  match r with
  | Ok a => (Ok (a, this s'), s'')
  | Throw e => (Throw e, s'')
  | Abort => (Abort, s'')
  end.

(** Run [m] with the reference parameter bound to the local object [v]. *)
Definition with_arg {A} (v : Vector T) (m : M A) : M (A * Vector T) := λ s,
  let '(r, s') := m (mkSt (this s) v (new_data s) (world s)) in
  let s'' := mkSt (this s') (other s) (new_data s') (world s') in
  match r with
  | Ok a => (Ok (a, other s'), s'')
  | Throw e => (Throw e, s'')
  | Abort => (Abort, s'')
  end.

(** A constructor body that throws: the member [data_], already
    constructed, is destroyed, and [~Vector] does not run. *)
Definition unwind_members {A} (body : M A) : M A :=
  try_catch body (
    r ← gets (get_mem Data);
    Deallocate r;;
    modify (set_this Vector_default)).

(** [explicit Vector(size_t size)] *)
Definition Vector_sized (size : nat) : M unit :=
  r ← RawMemory_new size;
  modify (set_this (mkVec r size));;
  unwind_members (uninitialized_value_construct_n Data 0 size).

(** [Vector(const Vector& other)] *)
Definition Vector_copy : M unit :=
  n ← gets (λ s, size_ (other s));
  r ← RawMemory_new n;
  modify (set_this (mkVec r n));;
  unwind_members (
    if relocate_by_move
    then uninitialized_move_n_const OtherData 0 n Data 0
    else uninitialized_copy_n OtherData 0 n Data 0).

(** [~Vector()] followed by [~RawMemory()] of the member. *)
Definition Vector_dtor : M unit :=
  sz ← Size;
  destroy_n Data 0 sz;;
  r ← gets (get_mem Data);
  Deallocate r.

(** [RawMemory& operator=(RawMemory&& rhs)] from [other.data_] into
    [data_]: [tmp] takes the buffer of [rhs], is swapped with [*this], and
    gives the previous buffer back without destroying anything in it. *)
Definition RawMemory_move_assign : M unit :=
  tmp ← gets (get_mem OtherData);
  modify (set_mem OtherData RawMemory_default);;
  old ← gets (get_mem Data);
  modify (set_mem Data tmp);;
  Deallocate old.

(** [Vector(Vector&& other) noexcept] *)
Definition Vector_move : M unit :=
  modify (set_this Vector_default);;
  RawMemory_move_assign;;
  n ← gets (λ s, size_ (other s));
  modify (set_other_size 0);;
  modify (set_size n).

(** [void Swap(Vector& other) noexcept] *)
Definition Swap : M unit :=
  modify (λ s, set_mem Data (data_ (other s)) (set_mem OtherData (data_ (this s)) s));;
  modify (λ s, set_size (size_ (other s)) (set_other_size (size_ (this s)) s)).

(** [Vector& operator=(Vector&& rhs) noexcept], for [this != &rhs]; with
    [this == &rhs] the function returns at once. *)
Definition move_assign : M unit := Swap.

(** [Vector& operator=(const Vector& rhs)], for [this != &rhs]; with
    [this == &rhs] the function returns at once. *)
Definition copy_assign : M unit :=
  rsz ← gets (λ s, size_ (other s));
  cap ← Capacity;
  (if cap <? rsz then
     rhs_copy ← in_object Vector_default Vector_copy;
     swapped ← with_arg (snd rhs_copy) Swap;
     in_object (snd swapped) Vector_dtor;;
     ret tt
   else
     sz ← Size;
     if sz <? rsz then
       std_copy OtherData 0 sz Data 0;;
       uninitialized_copy_n OtherData sz (rsz - sz) Data sz
     else
       std_copy OtherData 0 rsz Data 0;;
       destroy_n Data rsz (sz - rsz));;
  modify (set_size rsz).

(** *** Calling a member function *)

Definition call {A} (m : M A) (v : Vector T) (w : World)
  : res A * Vector T * World :=
  let '(r, s) := m (mkSt v Vector_default RawMemory_default w) in
  (r, this s, world s).

(** The same for a member function with a [Vector] reference parameter
    bound to [o]. *)
Definition call2 {A} (m : M A) (v o : Vector T) (w : World)
  : res A * Vector T * Vector T * World :=
  let '(r, s) := m (mkSt v o RawMemory_default w) in
  (r, this s, other s, world s).

(** The frame in which a member function of [v] starts, [o] being the
    object bound to its reference parameter. *)
Definition frame (v o : Vector T) (w : World) : St T :=
  mkSt v o RawMemory_default w.

(** Scenario "grow from empty": three pushes, reading the capacity after
    each. *)
Definition three_pushes (x1 x2 x3 : T) : M (nat * nat * nat) :=
  PushBack x1;;
  c1 ← Capacity;
  PushBack x2;;
  c2 ← Capacity;
  PushBack x3;;
  c3 ← Capacity;
  ret (c1, c2, c3).

(** [*this] after a call. *)
Definition after {A} (r : res A * Vector T * World) : Vector T := r.1.2.

Definition after2 {A} (r : res A * Vector T * Vector T * World) : Vector T :=
  r.1.1.2.

End Model.

(** ** Vocabulary of the specification *)

(** The counters of a frame.  Capacities and sizes are decided by the
    control flow alone; what the algorithms do to cells and to the trace
    never changes them. *)
Record Shape : Type := mkShape {
  sh_cap : nat;     (* data_.Capacity() *)
  sh_size : nat;    (* size_ *)
  sh_ncap : nat;    (* new_data.Capacity() *)
  sh_osize : nat;   (* other.size_ *)
}.

(** Events that break the lifetime rules: a destructor on a slot without a
    live object, or a live object lost without its destructor. *)
Definition lifetime_error (e : event) : bool :=
  match e with
  | DtorDead _ _ | Leak _ _ => true
  | _ => false
  end.

Definition lifetime_clean (l : list event) : bool :=
  forallb (λ e, negb (lifetime_error e)) l.

Section Vocabulary.
Context {T : Type} `{Element T}.
#[local] Abbreviation M := (M T).

Definition capacity (v : Vector T) : nat := capacity_ (data_ v).

(** The value of element [i], if slot [i] holds a live object. *)
Definition value_at (v : Vector T) (i : nat) : option T :=
  match cells (data_ v) !! i with
  | Some (Live t) => Some t
  | _ => None
  end.

(** The invariant of the data model: the buffer has [capacity] slots, the
    first [size_] of them hold live objects and the others are raw. *)
Record wf (v : Vector T) : Prop := mkWf {
  wf_cells : length (cells (data_ v)) = capacity v;
  wf_size : size_ v ≤ capacity v;
  wf_live : ∀ i, i < size_ v → ∃ t, cells (data_ v) !! i = Some (Live t);
  wf_raw : ∀ i, size_ v ≤ i < capacity v → cells (data_ v) !! i = Some Raw;
}.

(** The element constructors needed to relocate the live objects of [v]
    do not throw. *)
Definition relocatable (v : Vector T) : Prop :=
  ∀ i t, i < size_ v → cells (data_ v) !! i = Some (Live t) →
    (if relocate_by_move then move_throws t else copy_throws t) = false.

(** Capacity that [PushBack], [EmplaceBack] and [Emplace] leave behind
    according to the growth policy. *)
Definition grow (v : Vector T) : nat :=
  if size_ v =? capacity v then max 1 (2 * capacity v) else capacity v.

(** What the growth policy says of the state [v'], [w'] that adding one
    element to [v] in [w] leaves.  With a full buffer the sequence sits in a
    block that has just been allocated, of capacity [max 1 (2 * capacity)];
    otherwise it sits in the buffer it had, with the capacity it had, and
    nothing has been allocated. *)
Definition grown_by_policy (v : Vector T) (w : World)
    (v' : Vector T) (w' : World) : Prop :=
  if size_ v =? capacity v then
    capacity v' = max 1 (2 * capacity v)
    ∧ buffer_ (data_ v') = S (next_block w)
    ∧ next_block w' = S (next_block w)
    ∧ In (Alloc (S (next_block w)) (max 1 (2 * capacity v))) (log w')
  else
    capacity v' = capacity v
    ∧ buffer_ (data_ v') = buffer_ (data_ v)
    ∧ next_block w' = next_block w
    ∧ ∀ b n, In (Alloc b n) (log w') → In (Alloc b n) (log w).

(** *** A Hoare logic over the counters *)

Definition shape_of (s : St T) : Shape :=
  mkShape (capacity_ (data_ (this s))) (size_ (this s))
          (capacity_ (new_data s)) (size_ (other s)).

(** [triple P m Q E]: from a frame whose counters satisfy [P], a normal
    return of [m] with result [a] leaves counters in [Q a], and an exception
    or a failed assertion leaves them in [E]. *)
Definition triple {A} (P : Shape → Prop) (m : M A)
    (Q : A → Shape → Prop) (E : Shape → Prop) : Prop :=
  ∀ s, P (shape_of s) →
    match m s with
    | (Ok a, s') => Q a (shape_of s')
    | (_, s') => E (shape_of s')
    end.

(** A step that leaves every counter alone. *)
Definition stable {A} (m : M A) : Prop := ∀ s, shape_of (m s).2 = shape_of s.

Definition set_ncap (n : nat) (x : Shape) : Shape :=
  mkShape (sh_cap x) (sh_size x) n (sh_osize x).

Definition set_cap (n : nat) (x : Shape) : Shape :=
  mkShape n (sh_size x) (sh_ncap x) (sh_osize x).

Definition set_sz (n : nat) (x : Shape) : Shape :=
  mkShape (sh_cap x) n (sh_ncap x) (sh_osize x).

Definition grown (x sh : Shape) : Prop := sh_cap x ≤ sh_cap sh.

(** Capacity after [EmplaceBack], read off the three branches. *)
Definition emplace_back_cap (x : Shape) : nat :=
  if sh_size x =? 0 then (if 1 <=? sh_cap x then sh_cap x else 1)
  else if sh_size x =? sh_cap x then sh_size x * 2
  else sh_cap x.

(** Capacity after [Emplace] at offset [dist]. *)
Definition emplace_cap (x : Shape) (dist : nat) : nat :=
  if dist =? sh_size x then emplace_back_cap x
  else if sh_cap x <=? sh_size x then sh_size x * 2
  else sh_cap x.

End Vocabulary.

(** ** Element types and programs of the examples *)

(** [int]: nothing throws, and a moved-from [int] keeps its value. *)
#[export] Instance int_element : Element nat := {|
  sizeof_T := 4;
  relocate_by_move := true;
  value_init := Some 0;
  copy_throws := λ _, false;
  move_throws := λ _, false;
  copy_assign_throws := λ _, false;
  move_assign_throws := λ _, false;
  moved_from := λ n, n;
  alloc_fails := λ _, false;
|}.

(** An instrumented element.  Copying or moving an armed probe throws; the
    move constructor is therefore not [noexcept] and relocation copies. *)
Inductive probe : Type := Probe (id : nat) (armed : bool).

Definition armed (p : probe) : bool := let 'Probe _ a := p in a.

#[export] Instance probe_element : Element probe := {|
  sizeof_T := 8;
  relocate_by_move := false;
  value_init := Some (Probe 0 false);
  copy_throws := armed;
  move_throws := armed;
  copy_assign_throws := armed;
  move_assign_throws := λ _, false;
  moved_from := λ p, p;
  alloc_fails := λ _, false;
|}.

(** [std::unique_ptr<int>]: not copyable, moves are [noexcept] and leave the
    source null. *)
Inductive unique_ptr : Type :=
| null
| owner (n : nat).

#[export] Instance unique_ptr_element : Element unique_ptr := {|
  sizeof_T := 8;
  relocate_by_move := true;
  value_init := Some null;
  copy_throws := λ _, false;
  move_throws := λ _, false;
  copy_assign_throws := λ _, false;
  move_assign_throws := λ _, false;
  moved_from := λ _, null;
  alloc_fails := λ _, false;
|}.

Definition world0 : World := mkWorld [] 0.

(** One armed probe in a full buffer, then an insertion in front of it. *)
Definition insert_before_armed : M probe ptr :=
  EmplaceBack (Some (Probe 1 true));;
  b ← begin;
  Insert b (Probe 2 false).

(** Three probes in a full buffer, the last one armed, then an insertion at
    offset 1. *)
Definition insert_amid_armed : M probe ptr :=
  Reserve 3;;
  EmplaceBack (Some (Probe 1 false));;
  EmplaceBack (Some (Probe 2 false));;
  EmplaceBack (Some (Probe 3 true));;
  b ← begin;
  Insert (ptr_add b 1) (Probe 4 false).

(** Two owning pointers in a buffer of four, then an emplacement at the
    front. *)
Definition emplace_front_unique : M unique_ptr ptr :=
  Reserve 4;;
  PushBack_rvalue (owner 1);;
  PushBack_rvalue (owner 2);;
  b ← begin;
  Emplace b (Some (owner 0)).

(** Two probes in a buffer of four, then the insertion at the front of a
    value whose copy throws. *)
Definition insert_armed_in_place : M probe ptr :=
  Reserve 4;;
  EmplaceBack (Some (Probe 1 false));;
  EmplaceBack (Some (Probe 2 false));;
  b ← begin;
  Insert b (Probe 3 true).

(** Two probes in a buffer of four, the last one armed, then an insertion
    at the front. *)
Definition insert_before_armed_last : M probe ptr :=
  Reserve 4;;
  EmplaceBack (Some (Probe 1 false));;
  EmplaceBack (Some (Probe 2 true));;
  b ← begin;
  Insert b (Probe 3 false).

(** Sequences used to instantiate the general theorems. *)
Definition five_ints : Vector nat :=
  mkVec (mkRaw 1 [Live 10; Live 20; Live 30; Live 40; Live 50] 5) 5.

Definition three_ints : Vector nat :=
  mkVec (mkRaw 1 [Live 1; Live 2; Live 3; Raw] 4) 3.

Definition three_probes : Vector probe :=
  mkVec (mkRaw 1 [Live (Probe 1 false); Live (Probe 2 false);
                  Live (Probe 3 true)] 3) 3.

(** A move-only handle on a scarce resource: it cannot be copied, so it is
    relocated by move although the move constructor of a fragile handle
    throws; it has no default state ([T()] throws); and the heap has room
    for buffers of at most eight of them. *)
Inductive handle : Type := Handle (id : nat) (fragile : bool).

Definition fragile (h : handle) : bool := let 'Handle _ f := h in f.

#[export] Instance handle_element : Element handle := {|
  sizeof_T := 8;
  relocate_by_move := true;
  value_init := None;
  copy_throws := λ _, false;
  move_throws := fragile;
  copy_assign_throws := λ _, false;
  move_assign_throws := λ _, false;
  moved_from := λ _, Handle 0 false;
  alloc_fails := λ n, 8 <? n;
|}.

Definition two_handles : Vector handle :=
  mkVec (mkRaw 1 [Live (Handle 1 false); Live (Handle 2 true)] 2) 2.

(** A heap on which block 1, the buffer of the sequences above, is taken. *)
Definition world1 : World := mkWorld [] 1.

(** * Properties *)

Section Cells.
Context {T : Type} `{Element T}.
Implicit Types (cs src dst : list (slot T)) (b : block).

Lemma destroy_at_live b i cs t :
  cs !! i = Some (Live t) → destroy_at b i cs = (<[i:=Raw]> cs, [Dtor b i]).
Proof. intros E. unfold destroy_at. by rewrite E. Qed.

Lemma destroy_cells_length b first n cs :
  length (destroy_cells b first n cs).1 = length cs.
Proof.
  revert first cs. induction n as [|n IH]; intros first cs; simpl; [done|].
  destruct (destroy_at b first cs) as [cs1 e1] eqn:E1.
  specialize (IH (S first) cs1).
  destruct (destroy_cells b (S first) n cs1) as [cs2 e2]. simpl in *.
  rewrite IH. unfold destroy_at in E1.
  destruct (cs !! first) as [[|t]|]; inversion E1; subst; auto.
  by rewrite length_insert.
Qed.

(** Destroying a range of live objects leaves raw memory and runs one
    destructor per slot. *)
Lemma destroy_cells_live b first n cs :
  (∀ i, first ≤ i < first + n → ∃ t, cs !! i = Some (Live t)) →
  ∃ cs', destroy_cells b first n cs = (cs', Dtor b <$> seq first n)
       ∧ (∀ i, first ≤ i < first + n → cs' !! i = Some Raw)
       ∧ (∀ i, ¬ (first ≤ i < first + n) → cs' !! i = cs !! i).
Proof.
  revert first cs. induction n as [|n IH]; intros first cs Hl; simpl.
  - exists cs. split_and!; [done| intros; lia | done].
  - destruct (Hl first) as [t Ht]; [lia|].
    rewrite (destroy_at_live _ _ _ _ Ht).
    destruct (IH (S first) (<[first:=Raw]> cs)) as (cs' & E & Hin & Hout).
    { intros i Hi. rewrite list_lookup_insert_ne by lia. apply Hl. lia. }
    rewrite E. exists cs'. split_and!; [done| |].
    + intros i Hi. destruct (decide (i = first)) as [->|Hne].
      * rewrite Hout by lia. apply list_lookup_insert_eq.
        by eapply lookup_lt_Some.
      * apply Hin. lia.
    + intros i Hi. rewrite Hout by lia. apply list_lookup_insert_ne. lia.
Qed.

Lemma construct_at_raw b i t cs :
  cs !! i = Some Raw → construct_at b i t cs = Some (<[i:=Live t]> cs, []).
Proof. intros E. unfold construct_at. by rewrite E. Qed.

(** [std::uninitialized_copy_n] when no copy constructor throws. *)
Lemma uninitialized_copy_cells_ok src first b d_first n : ∀ k dst,
  (∀ i, k ≤ i < k + n →
     ∃ t, src !! (first + i) = Some (Live t) ∧ copy_throws t = false) →
  (∀ i, k ≤ i < k + n → dst !! (d_first + i) = Some Raw) →
  ∃ dst', uninitialized_copy_cells src first b d_first k n dst = (Ok tt, dst', [])
    ∧ length dst' = length dst
    ∧ (∀ i, k ≤ i < k + n → dst' !! (d_first + i) = src !! (first + i))
    ∧ (∀ j, ¬ (d_first + k ≤ j < d_first + k + n) → dst' !! j = dst !! j).
Proof.
  induction n as [|n IH]; intros k dst Hsrc Hdst; simpl.
  - exists dst. split_and!; [done|done|intros; lia|done].
  - destruct (Hsrc k) as (t & Et & Ec); [lia|]. rewrite Et, Ec.
    rewrite (construct_at_raw _ _ _ _ (Hdst k ltac:(lia))).
    destruct (IH (S k) (<[d_first + k:=Live t]> dst)) as (dst' & E & Hlen & Hin & Hout).
    { intros i Hi. apply Hsrc. lia. }
    { intros i Hi. rewrite list_lookup_insert_ne by lia. apply Hdst. lia. }
    rewrite E. exists dst'. split_and!; [done| | |].
    + by rewrite Hlen, length_insert.
    + intros i Hi. destruct (decide (i = k)) as [->|Hne].
      * rewrite Hout by lia. rewrite Et. apply list_lookup_insert_eq.
        eapply lookup_lt_Some. apply Hdst. lia.
      * apply Hin. lia.
    + intros j Hj. rewrite Hout by lia. apply list_lookup_insert_ne. lia.
Qed.

(** [std::uninitialized_copy_n] when the copy of element [first + j]
    throws: the [j] objects built so far are destroyed and the destination
    is raw memory again. *)
Lemma uninitialized_copy_cells_throw src first b d_first dst0 j t :
  src !! (first + j) = Some (Live t) → copy_throws t = true →
  (∀ i, i < j → ∃ u, src !! (first + i) = Some (Live u) ∧ copy_throws u = false) →
  (∀ i, i < j → dst0 !! (d_first + i) = Some Raw) →
  ∀ n k dst, k ≤ j < k + n →
  (∀ i, d_first ≤ i < d_first + k → ∃ u, dst !! i = Some (Live u)) →
  (∀ i, ¬ (d_first ≤ i < d_first + k) → dst !! i = dst0 !! i) →
  uninitialized_copy_cells src first b d_first k n dst
  = (Throw elem_exn, dst0, Dtor b <$> seq d_first j).
Proof.
  intros Et Ec Hsrc Hraw. induction n as [|n IH]; intros k dst Hk Hlive Hsame;
    simpl; [lia|].
  destruct (decide (k = j)) as [->|Hne].
  - rewrite Et, Ec.
    destruct (destroy_cells_live b d_first j dst Hlive) as (cs' & E & Hin & Hout).
    rewrite E. do 2 f_equal. apply list_eq. intros i.
    destruct (decide (d_first ≤ i < d_first + j)) as [Hi|Hi].
    + rewrite Hin by done. replace i with (d_first + (i - d_first)) by lia.
      symmetry. apply Hraw. lia.
    + rewrite Hout by done. by apply Hsame.
  - destruct (Hsrc k) as (u & Eu & Ecu); [lia|]. rewrite Eu, Ecu.
    assert (dst !! (d_first + k) = Some Raw) as Er.
    { rewrite Hsame by lia. apply Hraw. lia. }
    rewrite (construct_at_raw _ _ _ _ Er).
    rewrite (IH (S k) (<[d_first + k:=Live u]> dst)); [done|lia| |].
    + intros i Hi. destruct (decide (i = d_first + k)) as [->|Hn].
      * exists u. apply list_lookup_insert_eq. by eapply lookup_lt_Some.
      * rewrite list_lookup_insert_ne by lia. apply Hlive. lia.
    + intros i Hi. rewrite list_lookup_insert_ne by lia. apply Hsame. lia.
Qed.

(** [std::uninitialized_move_n] when no move constructor throws. *)
Lemma uninitialized_move_cells_ok first b d_first n : ∀ k src dst,
  (∀ i, k ≤ i < k + n →
     ∃ t, src !! (first + i) = Some (Live t) ∧ move_throws t = false) →
  (∀ i, k ≤ i < k + n → dst !! (d_first + i) = Some Raw) →
  ∃ src' dst',
    uninitialized_move_cells first b d_first k n src dst = (Ok tt, src', dst', [])
    ∧ length dst' = length dst
    ∧ (∀ i, k ≤ i < k + n → dst' !! (d_first + i) = src !! (first + i))
    ∧ (∀ j, ¬ (d_first + k ≤ j < d_first + k + n) → dst' !! j = dst !! j).
Proof.
  induction n as [|n IH]; intros k src dst Hsrc Hdst; simpl.
  - exists src, dst. split_and!; [done|done|intros; lia|done].
  - destruct (Hsrc k) as (t & Et & Ec); [lia|]. rewrite Et, Ec.
    rewrite (construct_at_raw _ _ _ _ (Hdst k ltac:(lia))).
    destruct (IH (S k) (<[first + k:=Live (moved_from t)]> src)
                 (<[d_first + k:=Live t]> dst))
      as (src' & dst' & E & Hlen & Hin & Hout).
    { intros i Hi. rewrite list_lookup_insert_ne by lia. apply Hsrc. lia. }
    { intros i Hi. rewrite list_lookup_insert_ne by lia. apply Hdst. lia. }
    rewrite E. exists src', dst'. split_and!; [done| | |].
    + by rewrite Hlen, length_insert.
    + intros i Hi. destruct (decide (i = k)) as [->|Hne].
      * rewrite Hout by lia. rewrite Et. apply list_lookup_insert_eq.
        eapply lookup_lt_Some. apply Hdst. lia.
      * rewrite Hin by lia. apply list_lookup_insert_ne. lia.
    + intros j Hj. rewrite Hout by lia. apply list_lookup_insert_ne. lia.
Qed.

(** [std::move] of the range [(d, d + n]] one slot to the left. *)
Lemma move_cells_shift_left n : ∀ d cs,
  (∀ i, d ≤ i ≤ d + n → ∃ t, cs !! i = Some (Live t)) →
  (∀ i t, d < i ≤ d + n → cs !! i = Some (Live t) → move_assign_throws t = false) →
  ∃ cs', move_cells (S d) d n cs = (Ok tt, cs')
    ∧ length cs' = length cs
    ∧ (∀ i, d ≤ i < d + n → cs' !! i = cs !! S i)
    ∧ (∃ t, cs' !! (d + n) = Some (Live t))
    ∧ (∀ j, ¬ (d ≤ j ≤ d + n) → cs' !! j = cs !! j).
Proof.
  induction n as [|n IH]; intros d cs Hlive Hnt; simpl.
  - exists cs. split_and!; [done|done|intros; lia| |done].
    rewrite Nat.add_0_r. apply Hlive. lia.
  - destruct (Hlive (S d)) as (t & Et); [lia|].
    destruct (Hlive d) as (t0 & Et0); [lia|].
    unfold move_assign_cell. rewrite Et, Et0, (Hnt (S d) t) by (done || lia).
    set (cs1 := <[S d:=Live (moved_from t)]> (<[d:=Live t]> cs)).
    assert (∀ i, S d < i → cs1 !! i = cs !! i) as Hfar.
    { intros i Hi. unfold cs1. by rewrite !list_lookup_insert_ne by lia. }
    destruct (IH (S d) cs1) as (cs' & E & Hlen & Hin & Hlast & Hout).
    { intros i Hi. destruct (decide (i = S d)) as [->|Hne].
      - exists (moved_from t). unfold cs1. apply list_lookup_insert_eq.
        rewrite length_insert. by eapply lookup_lt_Some.
      - rewrite Hfar by lia. apply Hlive. lia. }
    { intros i u Hi Eu. rewrite Hfar in Eu by lia. apply (Hnt i u); [lia|done]. }
    rewrite E. exists cs'. split_and!; [done| | | |].
    + by rewrite Hlen; unfold cs1; rewrite !length_insert.
    + intros i Hi. destruct (decide (i = d)) as [->|Hne].
      * rewrite Hout by lia. unfold cs1.
        rewrite list_lookup_insert_ne by lia. rewrite Et.
        apply list_lookup_insert_eq. by eapply lookup_lt_Some.
      * rewrite Hin by lia. apply Hfar. lia.
    + replace (d + S n) with (S d + n) by lia. done.
    + intros j Hj. rewrite Hout by lia. unfold cs1.
      by rewrite !list_lookup_insert_ne by lia.
Qed.

(** [std::move_backward] of the range [[last - n, last)] one slot to the
    right. *)
Lemma move_backward_cells_shift_right n : ∀ last cs,
  n ≤ last →
  (∀ i, last - n ≤ i ≤ last → ∃ t, cs !! i = Some (Live t)) →
  (∀ i t, last - n ≤ i < last → cs !! i = Some (Live t) →
     move_assign_throws t = false) →
  ∃ cs', move_backward_cells last (S last) n cs = (Ok tt, cs')
    ∧ length cs' = length cs
    ∧ (∀ i, last - n < i ≤ last → cs' !! i = cs !! (i - 1))
    ∧ (∀ i, last - n ≤ i ≤ last → ∃ t, cs' !! i = Some (Live t))
    ∧ (∀ j, ¬ (last - n ≤ j ≤ last) → cs' !! j = cs !! j).
Proof.
  induction n as [|n IH]; intros last cs Hn Hlive Hnt; cbn [move_backward_cells].
  - exists cs. split_and!; [done|done|intros; lia| |done].
    intros i Hi. apply Hlive. lia.
  - replace (S last - 1) with last by lia.
    destruct (Hlive (last - 1)) as (t & Et); [lia|].
    destruct (Hlive last) as (t0 & Et0); [lia|].
    unfold move_assign_cell.
    rewrite Et, Et0, (Hnt (last - 1) t) by (done || lia).
    set (cs1 := <[last - 1:=Live (moved_from t)]> (<[last:=Live t]> cs)).
    assert (∀ i, i < last - 1 → cs1 !! i = cs !! i) as Hnear.
    { intros i Hi. unfold cs1. by rewrite !list_lookup_insert_ne by lia. }
    assert (cs1 !! (last - 1) = Some (Live (moved_from t))) as Hmid.
    { unfold cs1. apply list_lookup_insert_eq. rewrite length_insert.
      apply lookup_lt_Some in Et. lia. }
    assert (cs1 !! last = Some (Live t)) as Hlast.
    { unfold cs1. rewrite list_lookup_insert_ne by lia.
      apply list_lookup_insert_eq. by eapply lookup_lt_Some. }
    replace (move_backward_cells (last - 1) last n cs1)
      with (move_backward_cells (last - 1) (S (last - 1)) n cs1)
      by (f_equal; lia).
    destruct (IH (last - 1) cs1) as (cs' & E & Hlen & Hin & Hl & Hout); [lia| |
      |].
    { intros i Hi. destruct (decide (i = last - 1)) as [->|Hne]; [eauto|].
      rewrite Hnear by lia. apply Hlive. lia. }
    { intros i u Hi Eu. rewrite Hnear in Eu by lia. apply (Hnt i u); [lia|done]. }
    rewrite E. exists cs'. split_and!; [done| | | |].
    + by rewrite Hlen; unfold cs1; rewrite !length_insert.
    + intros i Hi. destruct (decide (i = last)) as [->|Hne].
      * rewrite Hout by lia. by rewrite Hlast.
      * rewrite Hin by lia. apply Hnear. lia.
    + intros i Hi. destruct (decide (i = last)) as [->|Hne].
      * rewrite Hout by lia. eauto.
      * apply Hl. lia.
    + intros j Hj. rewrite Hout by lia. unfold cs1.
      by rewrite !list_lookup_insert_ne by lia.
Qed.

End Cells.

(** ** The counters: rules and the shape of each operation *)

Section Shape.
Context {T : Type} `{Element T}.
#[local] Abbreviation M := (M T).
#[local] Abbreviation triple := (triple (T:=T)).
#[local] Abbreviation stable := (stable (T:=T)).

Lemma triple_conseq {A} (P P' : Shape → Prop) (m : M A) Q Q' E E' :
  triple P' m Q' E' →
  (∀ sh, P sh → P' sh) → (∀ a sh, Q' a sh → Q a sh) → (∀ sh, E' sh → E sh) →
  triple P m Q E.
Proof.
  intros Hm HP HQ HE s Hs. specialize (Hm s (HP _ Hs)).
  destruct (m s) as [[a|e|] s']; auto.
Qed.

Lemma triple_ret {A} (P : Shape → Prop) (a : A) Q E :
  (∀ sh, P sh → Q a sh) → triple P (ret a) Q E.
Proof. intros HQ s Hs. simpl. auto. Qed.

Lemma triple_bind {A B} P (m : M A) (f : A → M B) R Q E :
  triple P m R E → (∀ a, triple (R a) (f a) Q E) → triple P (bind m f) Q E.
Proof.
  intros Hm Hf s Hs. unfold bind. specialize (Hm s Hs).
  destruct (m s) as [[a|e|] s']; [|done|done].
  apply (Hf a s' Hm).
Qed.

Lemma triple_try_catch {A} P (m : M A) h Q E1 E :
  triple P m Q E1 → triple E1 h (λ _, E) E → (∀ sh, E1 sh → E sh) →
  triple P (try_catch m h) Q E.
Proof.
  intros Hm Hh HE s Hs. unfold try_catch. specialize (Hm s Hs).
  destruct (m s) as [[a|e|] s']; [done| |by apply HE].
  specialize (Hh s' Hm). by destruct (h s') as [[a|e'|] s''].
Qed.

Lemma triple_gets {A} P (f : St T → A) (g : Shape → A) E :
  (∀ s, f s = g (shape_of s)) →
  triple P (gets f) (λ a sh, a = g sh ∧ P sh) E.
Proof. intros Hf s Hs. simpl. auto. Qed.

(** An observer whose result does not matter. *)
Lemma triple_gets_any {A} P (f : St T → A) E :
  triple P (gets f) (λ _ sh, P sh) E.
Proof. intros s Hs. simpl. auto. Qed.

Lemma triple_modify P (f : St T → St T) (g : Shape → Shape) Q E :
  (∀ s, shape_of (f s) = g (shape_of s)) → (∀ sh, P sh → Q tt (g sh)) →
  triple P (modify f) Q E.
Proof. intros Hf HQ s Hs. simpl. rewrite Hf. auto. Qed.

Lemma triple_assert P (b : bool) E :
  (∀ sh, P sh → E sh) → triple P (assert b) (λ _ sh, b = true ∧ P sh) E.
Proof. intros HE s Hs. destruct b; simpl; auto. Qed.

Lemma triple_throw {A} P e (Q : A → Shape → Prop) E :
  (∀ sh, P sh → E sh) → triple P (throw e) Q E.
Proof. intros HE s Hs. simpl. auto. Qed.

Lemma triple_stable {A} (P : Shape → Prop) (m : M A) E :
  stable m → (∀ sh, P sh → E sh) → triple P m (λ _ sh, P sh) E.
Proof.
  intros Hm HE s Hs. specialize (Hm s).
  destruct (m s) as [[a|e|] s']; simpl in Hm; rewrite Hm; auto.
Qed.

Ltac stable_tac :=
  intros s; cbv beta delta [set_cells add_log set_mem get_mem shape_of];
  repeat match goal with
         | |- context [let '(_, _) := ?x in _] => destruct x
         | |- context [match ?x with _ => _ end] => destruct x
         end; reflexivity.

Lemma stable_destroy_n m first n : stable (destroy_n m first n).
Proof. unfold stable, destroy_n. stable_tac. Qed.

Lemma stable_uninitialized_copy_n src first n dst d_first :
  stable (uninitialized_copy_n src first n dst d_first).
Proof. unfold stable, uninitialized_copy_n. stable_tac. Qed.

Lemma stable_uninitialized_move_n src first n dst d_first :
  stable (uninitialized_move_n src first n dst d_first).
Proof. unfold stable, uninitialized_move_n. stable_tac. Qed.

Lemma stable_uninitialized_value_construct_n dst first n :
  stable (uninitialized_value_construct_n dst first n).
Proof. unfold stable, uninitialized_value_construct_n. stable_tac. Qed.

Lemma stable_std_copy src first n dst d_first :
  stable (std_copy src first n dst d_first).
Proof. unfold stable, std_copy. stable_tac. Qed.

Lemma stable_std_move m first last d_first :
  stable (std_move m first last d_first).
Proof. unfold stable, std_move. stable_tac. Qed.

Lemma stable_move_backward m first last d_last :
  stable (move_backward m first last d_last).
Proof. unfold stable, move_backward. stable_tac. Qed.

Lemma stable_placement_new m i c : stable (placement_new m i c).
Proof. unfold stable, placement_new, throw. stable_tac. Qed.

Lemma stable_placement_new_move m from i : stable (placement_new_move m from i).
Proof. unfold stable, placement_new_move. stable_tac. Qed.

Lemma stable_Deallocate r : stable (Deallocate r).
Proof. unfold stable, Deallocate, ret, modify. stable_tac. Qed.

(** *** Rules for a known shape *)

Lemma triple_step {A B} x (m : M A) (f : A → M B) a0 x' Q E :
  triple (λ sh, sh = x) m (λ a sh, a = a0 ∧ sh = x') E →
  triple (λ sh, sh = x') (f a0) Q E →
  triple (λ sh, sh = x) (bind m f) Q E.
Proof.
  intros Hm Hf. eapply triple_bind; [exact Hm|].
  intros a s [-> Hs]. by apply Hf.
Qed.

Lemma triple_step_any {A B} x (m : M A) (f : A → M B) x' Q E :
  triple (λ sh, sh = x) m (λ _ sh, sh = x') E →
  (∀ a, triple (λ sh, sh = x') (f a) Q E) →
  triple (λ sh, sh = x) (bind m f) Q E.
Proof. intros Hm Hf. eapply triple_bind; [exact Hm|]. exact Hf. Qed.

Lemma eq_gets {A} x (f : St T → A) (g : Shape → A) E :
  (∀ s, f s = g (shape_of s)) →
  triple (λ sh, sh = x) (gets f) (λ a sh, a = g x ∧ sh = x) E.
Proof. intros Hf s Hs. simpl. by rewrite Hf, Hs. Qed.

Lemma eq_Size x E :
  triple (λ sh, sh = x) Size (λ a sh, a = sh_size x ∧ sh = x) E.
Proof. by apply (eq_gets x _ sh_size). Qed.

Lemma eq_Capacity x E :
  triple (λ sh, sh = x) Capacity (λ a sh, a = sh_cap x ∧ sh = x) E.
Proof. by apply (eq_gets x _ sh_cap). Qed.

Lemma eq_stable {A} x (m : M A) (E : Shape → Prop) :
  stable m → E x → triple (λ sh, sh = x) m (λ _ sh, sh = x) E.
Proof.
  intros Hm HE. apply (triple_stable (λ sh, sh = x)); [done|by intros sh ->].
Qed.

Lemma eq_modify x (f : St T → St T) (g : Shape → Shape) E :
  (∀ s, shape_of (f s) = g (shape_of s)) →
  triple (λ sh, sh = x) (modify f) (λ _ sh, sh = g x) E.
Proof. intros Hf. apply (triple_modify _ f g); [done|by intros sh ->]. Qed.

Lemma eq_destroy_n x m first n E :
  triple (λ sh, sh = x) (destroy_n m first n) (λ _ sh, sh = x) E.
Proof.
  intros s Hs. pose proof (stable_destroy_n m first n s) as Hst.
  unfold destroy_n in *. destruct (destroy_cells _ _ _ _). simpl in *. congruence.
Qed.

Lemma stable_gets {A} (f : St T → A) : stable (gets f).
Proof. by intros s. Qed.

Lemma stable_assert b : stable (assert b).
Proof. intros s. by destruct b. Qed.

Lemma stable_bind {A B} (m : M A) (f : A → M B) :
  stable m → (∀ a, stable (f a)) → stable (bind m f).
Proof.
  intros Hm Hf s. unfold bind. specialize (Hm s).
  destruct (m s) as [[a|e|] s']; simpl in *; [|done|done].
  by rewrite Hf.
Qed.

Lemma stable_ret {A} (a : A) : stable (ret a).
Proof. by intros s. Qed.

Lemma stable_begin : stable begin.
Proof. apply stable_gets. Qed.

Lemma stable_end_ : stable end_.
Proof.
  unfold end_. apply stable_bind; [apply stable_begin|]. intros b.
  apply stable_bind; [apply stable_gets|]. intros sz. apply stable_ret.
Qed.

Lemma stable_RawMemory_index m i : stable (RawMemory_index m i).
Proof.
  unfold RawMemory_index. apply stable_bind; [apply stable_gets|]. intros r.
  apply stable_bind; [apply stable_assert|]. intros _. apply stable_ret.
Qed.

Lemma eq_RawMemory_plus x m offset (E : Shape → Prop) :
  E x →
  triple (λ sh, sh = x) (RawMemory_plus m offset)
         (λ a sh, a = offset ∧ sh = x) E.
Proof.
  intros HE s Hs. unfold RawMemory_plus, bind, gets, assert.
  destruct (offset <=? _); simpl; rewrite Hs; auto.
Qed.

Lemma shape_of_swap_data_new (s : St T) :
  shape_of (set_mem Data (new_data s) (set_mem NewData (data_ (this s)) s))
  = set_cap (sh_ncap (shape_of s)) (set_ncap (sh_cap (shape_of s)) (shape_of s)).
Proof. reflexivity. Qed.

Lemma eq_Swap_data_new x E :
  triple (λ sh, sh = x) Swap_data_new
         (λ _ sh, sh = set_cap (sh_ncap x) (set_ncap (sh_cap x) x)) E.
Proof.
  unfold Swap_data_new.
  apply (eq_modify x _ (λ y, set_cap (sh_ncap y) (set_ncap (sh_cap y) y))).
  apply shape_of_swap_data_new.
Qed.

(** The local [new_data] has the capacity asked for inside the block and is
    gone after it. *)
Lemma triple_with_new_data {A} x n (body : M A) Q' E' (Q : A → Shape → Prop) E :
  triple (λ sh, sh = set_ncap n x) body Q' E' →
  (∀ a sh, Q' a sh → Q a (set_ncap (sh_ncap x) sh)) →
  (∀ sh, E' sh → E (set_ncap (sh_ncap x) sh)) →
  E x →
  triple (λ sh, sh = x) (with_new_data n body) Q E.
Proof.
  intros Hb HQ HE Hx s Hs. unfold with_new_data, RawMemory_new, bind, Allocate.
  assert (∀ r w, capacity_ r = n →
            match
              (let '(o, s2) := body (set_mem NewData r (mkSt (this s) (other s) (new_data s) w)) in
               let '(_, s3) := Deallocate (new_data s2) s2 in
               (o, set_mem NewData (new_data s) s3))
            with
            | (Ok a, s') => Q a (shape_of s')
            | (_, s') => E (shape_of s')
            end) as Hrun.
  { intros r w Hr.
    specialize (Hb (set_mem NewData r (mkSt (this s) (other s) (new_data s) w))).
    destruct (body _) as [o s2].
    pose proof (stable_Deallocate (new_data s2) s2) as Hd.
    destruct (Deallocate (new_data s2) s2) as [u s3]. simpl in Hd.
    assert (shape_of (set_mem NewData (new_data s) s3)
            = set_ncap (sh_ncap x) (shape_of s2)) as ->.
    { rewrite <- Hd, <- Hs. reflexivity. }
    assert (shape_of (set_mem NewData r (mkSt (this s) (other s) (new_data s) w))
            = set_ncap n x) as Hin.
    { rewrite <- Hs, <- Hr. reflexivity. }
    specialize (Hb Hin). destruct o; auto. }
  destruct (n =? 0).
  - simpl. destruct s as [th ot nd w]. apply (Hrun (mkRaw 0 [] n) w). done.
  - destruct (alloc_fails n); [by subst x|].
    apply (Hrun (mkRaw _ _ n)). done.
Qed.

Lemma Reserve_shape x k :
  triple (λ sh, sh = x) (Reserve k)
         (λ _ sh, sh = set_cap (if k <=? sh_cap x then sh_cap x else k) x)
         (λ sh, sh = x).
Proof.
  unfold Reserve. eapply triple_step; [apply eq_Capacity|].
  destruct (k <=? sh_cap x) eqn:Ek.
  { apply triple_ret. intros sh ->. by destruct x. }
  eapply (triple_with_new_data x k _
            (λ _ sh, sh = set_cap k (set_ncap (sh_cap x) x))
            (λ sh, sh = set_ncap k x)).
  - eapply triple_step; [apply eq_Size|].
    eapply triple_step_any.
    { destruct relocate_by_move; apply eq_stable;
        auto using stable_uninitialized_move_n, stable_uninitialized_copy_n. }
    intros _. eapply triple_step_any; [apply eq_Swap_data_new|].
    intros _. apply eq_destroy_n.
  - intros _ sh ->. by destruct x.
  - intros sh ->. by destruct x.
  - done.
Qed.

Lemma triple_pre_pure {A} (φ : Prop) P (m : M A) Q E :
  (φ → triple P m Q E) → triple (λ sh, φ ∧ P sh) m Q E.
Proof. intros Hm s [Hφ Hs]. by apply Hm. Qed.

Lemma eq_step_stable {A B} x (m : M A) (f : A → M B) Q (E : Shape → Prop) :
  stable m → E x →
  (∀ a, triple (λ sh, sh = x) (f a) Q E) →
  triple (λ sh, sh = x) (bind m f) Q E.
Proof.
  intros Hm HE Hf. eapply triple_step_any; [by apply eq_stable|done].
Qed.

Lemma eq_incr_size x E :
  triple (λ sh, sh = x) incr_size (λ _ sh, sh = set_sz (sh_size x + 1) x) E.
Proof. by apply (eq_modify x _ (λ y, set_sz (sh_size y + 1) y)). Qed.

Lemma eq_decr_size x E :
  triple (λ sh, sh = x) decr_size (λ _ sh, sh = set_sz (sh_size x - 1) x) E.
Proof. by apply (eq_modify x _ (λ y, set_sz (sh_size y - 1) y)). Qed.

Lemma stable_relocate first n d_first :
  stable (if relocate_by_move
          then uninitialized_move_n Data first n NewData d_first
          else uninitialized_copy_n Data first n NewData d_first).
Proof.
  destruct relocate_by_move;
    auto using stable_uninitialized_move_n, stable_uninitialized_copy_n.
Qed.

Ltac sh_simpl :=
  unfold grown; cbn [sh_cap sh_size sh_ncap sh_osize set_cap set_sz set_ncap].

Lemma emplace_back_cap_ge x : sh_cap x ≤ emplace_back_cap x.
Proof.
  unfold emplace_back_cap.
  destruct (sh_size x =? 0); [destruct (1 <=? sh_cap x) eqn:E; [lia|]|].
  - apply Nat.leb_gt in E. lia.
  - destruct (sh_size x =? sh_cap x) eqn:E; [|lia].
    apply Nat.eqb_eq in E. lia.
Qed.

Lemma EmplaceBack_shape x c :
  triple (λ sh, sh = x) (EmplaceBack c)
         (λ _ sh, sh = set_sz (sh_size x + 1) (set_cap (emplace_back_cap x) x))
         (grown x).
Proof.
  pose proof (emplace_back_cap_ge x) as Hge.
  unfold EmplaceBack. eapply triple_step; [apply eq_Size|].
  eapply (triple_step_any _ _ _ (set_cap (emplace_back_cap x) x)).
  - unfold emplace_back_cap. destruct (sh_size x =? 0).
    + eapply (triple_step_any _ _ _
                (set_cap (if 1 <=? sh_cap x then sh_cap x else 1) x)).
      { eapply triple_conseq; [apply (Reserve_shape x 1)|done|done|].
        intros sh ->. sh_simpl; lia. }
      intros _. apply eq_stable; [apply stable_placement_new|].
      sh_simpl. destruct (1 <=? sh_cap x) eqn:E; [lia|].
      apply Nat.leb_gt in E. lia.
    + eapply triple_step; [apply eq_Capacity|].
      destruct (sh_size x =? sh_cap x) eqn:Esc.
      * eapply (triple_with_new_data x _ _
                  (λ _ sh, sh = set_cap (sh_size x * 2) (set_ncap (sh_cap x) x))
                  (λ sh, sh = set_ncap (sh_size x * 2) x)).
        -- eapply triple_step; [by apply eq_RawMemory_plus|].
           eapply eq_step_stable; [apply stable_placement_new|done|intros _].
           eapply triple_try_catch; [|apply eq_destroy_n|done].
           eapply eq_step_stable; [apply stable_relocate|done|intros _].
           eapply triple_step_any; [apply eq_destroy_n|intros _].
           eapply triple_conseq;
             [apply (eq_Swap_data_new (set_ncap (sh_size x * 2) x))|done| |done].
           by intros _ sh ->.
        -- intros _ sh ->. by destruct x.
        -- intros sh ->. destruct x. sh_simpl. lia.
        -- sh_simpl; lia.
      * eapply triple_step; [apply eq_RawMemory_plus; red; lia|].
        eapply triple_conseq;
          [apply (eq_stable x _ (grown x)); [apply stable_placement_new|]
          |done| |done].
        -- sh_simpl; lia.
        -- intros _ sh ->. by destruct x.
  - intros _. eapply triple_step_any; [apply eq_incr_size|intros _].
    eapply triple_step; [apply eq_Size|].
    apply (eq_stable _ _ (grown x)); [apply stable_RawMemory_index|].
    sh_simpl. lia.
Qed.

Lemma stable_try_catch {A} (m : M A) h :
  stable m → stable h → stable (try_catch m h).
Proof.
  intros Hm Hh s. unfold try_catch. specialize (Hm s).
  destruct (m s) as [[a|e|] s']; simpl in *; [done| |done].
  specialize (Hh s'). destruct (h s') as [[u|e'|] s'']; simpl in *; congruence.
Qed.

Lemma stable_RawMemory_plus m offset : stable (RawMemory_plus m offset).
Proof.
  unfold RawMemory_plus. apply stable_bind; [apply stable_gets|]. intros r.
  apply stable_bind; [apply stable_assert|]. intros _. apply stable_ret.
Qed.

Lemma eq_begin x E :
  triple (λ sh, sh = x) begin (λ a sh, off a = 0 ∧ sh = x) E.
Proof. by intros s Hs. Qed.

Lemma eq_end_ x E :
  triple (λ sh, sh = x) end_ (λ a sh, off a = sh_size x ∧ sh = x) E.
Proof. intros s Hs. simpl. by rewrite <- Hs. Qed.

Lemma emplace_cap_ge x dist : sh_cap x ≤ emplace_cap x dist.
Proof.
  unfold emplace_cap. destruct (dist =? sh_size x); [apply emplace_back_cap_ge|].
  destruct (sh_cap x <=? sh_size x) eqn:E; [|lia].
  apply Nat.leb_le in E. lia.
Qed.

Lemma Emplace_shape x pos c :
  triple (λ sh, sh = x) (Emplace pos c)
         (λ _ sh, off pos ≤ sh_size x
                  ∧ sh = set_sz (sh_size x + 1) (set_cap (emplace_cap x (off pos)) x))
         (grown x).
Proof.
  pose proof (emplace_cap_ge x (off pos)) as Hge.
  assert (grown x x) as Hxx by (sh_simpl; lia).
  unfold Emplace.
  eapply triple_bind; [apply eq_begin|]. intros b. apply triple_pre_pure. intros Hb.
  eapply triple_bind; [apply eq_end_|]. intros e. apply triple_pre_pure. intros He.
  eapply triple_bind; [apply triple_assert; by intros sh ->|].
  intros u. apply triple_pre_pure. intros Ha.
  apply andb_prop in Ha as [_ Ha]. apply andb_prop in Ha as [_ Ha].
  apply Nat.leb_le in Ha. rewrite He in Ha.
  rewrite Hb, Nat.sub_0_r.
  eapply triple_step; [apply eq_Size|].
  unfold emplace_cap in *. destruct (off pos =? sh_size x).
  { eapply triple_conseq; [apply (EmplaceBack_shape x)|done| |done].
    by intros _ sh ->. }
  eapply triple_step; [apply eq_Capacity|].
  eapply (triple_step_any _ _ _
    (set_cap (if sh_cap x <=? sh_size x then sh_size x * 2 else sh_cap x) x)).
  - destruct (sh_cap x <=? sh_size x).
    + eapply (triple_with_new_data x _ _
                (λ _ sh, sh = set_cap (sh_size x * 2) (set_ncap (sh_cap x) x))
                (λ sh, sh = set_ncap (sh_size x * 2) x)).
      * eapply triple_step; [by apply eq_RawMemory_plus|].
        eapply eq_step_stable; [apply stable_placement_new|done|intros _].
        eapply triple_try_catch; [|apply eq_destroy_n|done].
        eapply eq_step_stable; [|done|intros _].
        { destruct relocate_by_move.
          - apply stable_bind; [|intros _]; apply stable_uninitialized_move_n.
          - apply stable_bind; [apply stable_uninitialized_copy_n|intros _].
            apply stable_try_catch;
              [apply stable_uninitialized_copy_n|apply stable_destroy_n]. }
        eapply triple_step_any; [apply eq_destroy_n|intros _].
        eapply triple_conseq;
          [apply (eq_Swap_data_new (set_ncap (sh_size x * 2) x))|done| |done].
        by intros _ sh ->.
      * intros _ sh ->. by destruct x.
      * intros sh ->. destruct x. sh_simpl. lia.
      * done.
    + eapply triple_conseq;
        [apply (eq_stable x _ (grown x)); [|done]|done| |done].
      * apply stable_try_catch.
        -- apply stable_bind; [apply stable_RawMemory_plus|intros p].
           apply stable_bind; [apply stable_placement_new_move|intros _].
           apply stable_bind; [apply stable_move_backward|intros _].
           apply stable_bind; [apply stable_destroy_n|intros _].
           apply stable_bind; [apply stable_RawMemory_plus|intros q].
           apply stable_placement_new.
        -- apply stable_bind; [apply stable_RawMemory_plus|intros p].
           apply stable_destroy_n.
      * intros _ sh ->. by destruct x.
  - intros _. eapply triple_step_any; [apply eq_incr_size|intros _].
    eapply triple_conseq;
      [eapply (eq_stable _ _ (grown x)); [apply stable_RawMemory_index|]
      |intros sh Hsh; exact Hsh| |done].
    + sh_simpl. lia.
    + by intros _ sh ->.
Qed.

Lemma Erase_shape x pos :
  triple (λ sh, sh = x) (Erase pos)
         (λ _ sh, sh = set_sz (sh_size x - 1) x) (grown x).
Proof.
  assert (grown x x) as Hxx by (sh_simpl; lia).
  unfold Erase.
  eapply eq_step_stable; [apply stable_begin|done|intros b].
  eapply eq_step_stable; [apply stable_end_|done|intros e].
  eapply eq_step_stable; [apply stable_assert|done|intros _].
  eapply triple_step; [apply eq_Size|].
  eapply eq_step_stable; [apply stable_std_move|done|intros _].
  eapply triple_step_any; [apply eq_destroy_n|intros _].
  eapply triple_step_any; [apply eq_decr_size|intros _].
  apply (eq_stable _ _ (grown x)); [apply stable_RawMemory_index|].
  sh_simpl. lia.
Qed.

Lemma PopBack_shape x :
  triple (λ sh, sh = x) PopBack
         (λ _ sh, sh = set_sz (sh_size x - 1) x) (grown x).
Proof.
  assert (grown x x) as Hxx by (sh_simpl; lia).
  unfold PopBack.
  eapply triple_step; [apply eq_Size|].
  eapply eq_step_stable; [apply stable_assert|done|intros _].
  eapply triple_step_any; [apply eq_destroy_n|intros _].
  apply eq_decr_size.
Qed.

Lemma Resize_shape x n :
  triple (λ sh, sh = x) (Resize n)
         (λ _ sh, sh = set_sz n (set_cap (if (sh_size x <? n) && (sh_cap x <? n)
                                          then n else sh_cap x) x))
         (grown x).
Proof.
  assert (grown x x) as Hxx by (sh_simpl; lia).
  unfold Resize.
  eapply triple_step; [apply eq_Size|].
  eapply (triple_step_any _ _ _
    (set_cap (if (sh_size x <? n) && (sh_cap x <? n) then n else sh_cap x) x)).
  - destruct (sh_size x <? n); simpl.
    + eapply triple_step; [apply eq_Capacity|].
      destruct (sh_cap x <? n) eqn:Ec.
      * apply Nat.ltb_lt in Ec.
        eapply (triple_step_any _ _ _ (set_cap n x)).
        { eapply triple_conseq; [apply (Reserve_shape x n)|done| |].
          - intros _ sh ->. destruct (n <=? sh_cap x) eqn:E; [|done].
            apply Nat.leb_le in E. lia.
          - by intros sh ->. }
        intros _. apply eq_stable;
          [apply stable_uninitialized_value_construct_n|sh_simpl; lia].
      * eapply triple_step_any; [by apply triple_ret|intros _].
        eapply triple_conseq;
          [apply (eq_stable x _ (grown x));
             [apply stable_uninitialized_value_construct_n|done]
          |done| |done].
        intros _ sh ->. by destruct x.
    + eapply triple_conseq; [apply (eq_destroy_n x)|done| |done].
      intros _ sh ->. by destruct x.
  - intros _. eapply triple_conseq;
      [eapply (eq_modify _ _ (set_sz n)); done
      |intros sh Hsh; exact Hsh| |done].
    by intros _ sh ->.
Qed.

(** The copy made by copy-and-swap has exactly the size of the source as
    its capacity. *)
Lemma in_object_Vector_copy_shape x :
  triple (λ sh, sh = x) (in_object Vector_default Vector_copy)
         (λ a sh, capacity_ (data_ a.2) = sh_osize x ∧ size_ a.2 = sh_osize x
                  ∧ sh = x)
         (λ sh, sh = x).
Proof.
  intros s Hs. subst x.
  unfold in_object, Vector_copy, unwind_members, uninitialized_move_n_const,
    RawMemory_new, Allocate, try_catch, bind, gets, modify, ret.
  cbn [other this world new_data].
  destruct (size_ (other s) =? 0); [|destruct (alloc_fails _); [done|]];
    cbn [fst snd];
    (destruct relocate_by_move;
     unfold uninitialized_copy_n;
     cbv beta delta [set_cells add_log set_mem get_mem set_this];
     cbn [other this world new_data data_ size_ cells buffer_ capacity_];
     match goal with
     | |- context [uninitialized_copy_cells ?a1 ?a2 ?a3 ?a4 ?a5 ?a6 ?a7] =>
         destruct (uninitialized_copy_cells a1 a2 a3 a4 a5 a6 a7)
           as [[[u|e|] cs] ev]
     end; cbn; try done;
     match goal with
     | |- context [Deallocate ?r0 ?s0] =>
         pose proof (stable_Deallocate r0 s0) as Hd;
         destruct (Deallocate r0 s0) as [[u|e'|] s1]
     end; done).
Qed.

Lemma with_arg_Swap_shape x v E :
  triple (λ sh, sh = x) (with_arg v Swap)
         (λ _ sh, sh = set_sz (size_ v) (set_cap (capacity_ (data_ v)) x)) E.
Proof. intros s Hs. subst x. reflexivity. Qed.

Lemma stable_in_object_Vector_dtor v : stable (in_object v Vector_dtor).
Proof.
  intros s. unfold in_object, Vector_dtor, bind, Size, gets, destroy_n.
  cbn [other this world new_data get_mem data_ size_].
  destruct (destroy_cells _ _ _ _) as [cs ev].
  cbv beta delta [set_cells add_log set_mem get_mem].
  cbn [other this world new_data data_ size_ cells buffer_ capacity_].
  unfold Deallocate. cbn [buffer_].
  destruct (buffer_ (data_ v) =? 0); reflexivity.
Qed.

Lemma copy_assign_shape x :
  triple (λ sh, sh = x) copy_assign
         (λ _ sh, sh = set_sz (sh_osize x)
                         (set_cap (if sh_cap x <? sh_osize x
                                   then sh_osize x else sh_cap x) x))
         (grown x).
Proof.
  assert (grown x x) as Hxx by (sh_simpl; lia).
  set (final := set_sz (sh_osize x)
                  (set_cap (if sh_cap x <? sh_osize x
                            then sh_osize x else sh_cap x) x)).
  unfold copy_assign.
  eapply triple_step; [by apply (eq_gets x _ sh_osize)|].
  eapply triple_step; [apply eq_Capacity|].
  eapply (triple_bind _ _ _ (λ _ sh, set_sz (sh_osize x) sh = final)).
  - unfold final. destruct (sh_cap x <? sh_osize x) eqn:Ec.
    + apply Nat.ltb_lt in Ec.
      eapply triple_bind.
      { eapply triple_conseq;
          [apply (in_object_Vector_copy_shape x)|done|intros a sh Ha; exact Ha|].
        by intros sh ->. }
      intros a. apply triple_pre_pure. intros Hcap.
      apply triple_pre_pure. intros Hsz.
      eapply triple_bind; [apply (with_arg_Swap_shape x)|]. intros sw.
      eapply triple_step_any.
      { eapply (eq_stable _ _ (grown x)); [apply stable_in_object_Vector_dtor|].
        sh_simpl. lia. }
      intros _. apply triple_ret. intros sh ->. rewrite Hcap, Hsz. by destruct x.
    + eapply triple_step; [apply eq_Size|].
      eapply triple_conseq;
        [apply (eq_stable x _ (grown x)); [|done]|done| |done].
      * destruct (sh_size x <? sh_osize x).
        -- apply stable_bind; [apply stable_std_copy|intros _].
           apply stable_uninitialized_copy_n.
        -- apply stable_bind; [apply stable_std_copy|intros _].
           apply stable_destroy_n.
      * intros _ sh ->. by destruct x.
  - intros _. apply (triple_modify _ _ (set_sz (sh_osize x))); done.
Qed.

End Shape.

(** ** Running the operations on well-formed sequences *)

Section Spec.
Context {T : Type} `{Element T}.
#[local] Abbreviation M := (M T).

(** *** Running single steps *)

Lemma bind_eq {A B} (m : M A) (f : A → M B) s a s' :
  m s = (Ok a, s') → bind m f s = f a s'.
Proof. intros E. unfold bind. by rewrite E. Qed.

Lemma bind_gets {A B} (g : St T → A) (f : A → M B) s :
  bind (gets g) f s = f (g s) s.
Proof. reflexivity. Qed.

Lemma bind_Size {B} (f : nat → M B) s : bind Size f s = f (size_ (this s)) s.
Proof. reflexivity. Qed.

Lemma bind_Capacity {B} (f : nat → M B) s :
  bind Capacity f s = f (capacity_ (data_ (this s))) s.
Proof. reflexivity. Qed.

Lemma bind_modify {B} (g : St T → St T) (f : unit → M B) s :
  bind (modify g) f s = f tt (g s).
Proof. reflexivity. Qed.

Lemma bind_throw {A B} (m : M A) (f : A → M B) s e s' :
  m s = (Throw e, s') → bind m f s = (Throw e, s').
Proof. intros E. unfold bind. by rewrite E. Qed.

Lemma run_RawMemory_plus m offset (s : St T) :
  offset ≤ capacity_ (get_mem m s) → RawMemory_plus m offset s = (Ok offset, s).
Proof.
  intros Hle. unfold RawMemory_plus, bind, gets, assert.
  apply Nat.leb_le in Hle. by rewrite Hle.
Qed.

Lemma run_RawMemory_index m index (s : St T) :
  index < capacity_ (get_mem m s) →
  RawMemory_index m index s = (Ok (Ptr (buffer_ (get_mem m s)) index), s).
Proof.
  intros Hlt. unfold RawMemory_index, bind, gets, assert.
  apply Nat.ltb_lt in Hlt. by rewrite Hlt.
Qed.

Lemma run_placement_new m i t (s : St T) :
  cells (get_mem m s) !! i = Some Raw →
  placement_new m i (Some t) s
  = (Ok tt, add_log [] (set_cells m (<[i:=Live t]> (cells (get_mem m s))) s)).
Proof. intros E. unfold placement_new. by rewrite (construct_at_raw _ _ _ _ E). Qed.

(** Relocation of [n] live objects into raw slots of [new_data], by the
    constructor the traits select. *)
Lemma run_relocate first n d_first (s : St T) :
  (∀ i, i < n → ∃ t, cells (data_ (this s)) !! (first + i) = Some (Live t)
        ∧ (if relocate_by_move then move_throws t else copy_throws t) = false) →
  (∀ i, i < n → cells (new_data s) !! (d_first + i) = Some Raw) →
  ∃ scs dcs,
    (if relocate_by_move
     then uninitialized_move_n Data first n NewData d_first
     else uninitialized_copy_n Data first n NewData d_first) s
    = (Ok tt, add_log [] (set_cells NewData dcs (set_cells Data scs s)))
    ∧ length dcs = length (cells (new_data s))
    ∧ (∀ i, i < n → dcs !! (d_first + i) = cells (data_ (this s)) !! (first + i))
    ∧ (∀ j, ¬ (d_first ≤ j < d_first + n) → dcs !! j = cells (new_data s) !! j).
Proof.
  intros Hsrc Hdst. destruct s as [[[b cs cap] sz] ot [nb ncs ncap] w].
  cbn [this data_ cells new_data] in *.
  destruct relocate_by_move.
  - destruct (uninitialized_move_cells_ok first nb d_first n 0 cs ncs)
      as (scs & dcs & E & Hlen & Hin & Hout).
    { intros i Hi. apply Hsrc. lia. }
    { intros i Hi. apply Hdst. lia. }
    exists scs, dcs. unfold uninitialized_move_n.
    cbn [get_mem new_data this data_ cells buffer_]. rewrite E.
    split_and!; [done|done| |].
    + intros i Hi. apply Hin. lia.
    + intros j Hj. apply Hout. lia.
  - destruct (uninitialized_copy_cells_ok cs first nb d_first n 0 ncs)
      as (dcs & E & Hlen & Hin & Hout).
    { intros i Hi. apply Hsrc. lia. }
    { intros i Hi. apply Hdst. lia. }
    exists cs, dcs. unfold uninitialized_copy_n.
    cbn [get_mem new_data this data_ cells buffer_]. rewrite E.
    split_and!; [done|done| |].
    + intros i Hi. apply Hin. lia.
    + intros j Hj. apply Hout. lia.
Qed.

(** A block with a local [new_data] whose allocation succeeds: whatever
    the outcome of the body, the buffer is given back afterwards. *)
Lemma run_with_new_data {A} n (body : M A) (s : St T) (o : res A) s2 :
  n ≠ 0 → alloc_fails n = false →
  body (mkSt (this s) (other s)
             (mkRaw (S (next_block (world s))) (replicate n Raw) n)
             (mkWorld (log (world s) ++ [Alloc (S (next_block (world s))) n])
                      (S (next_block (world s)))))
  = (o, s2) →
  with_new_data n body s
  = (o, set_mem NewData (new_data s) (Deallocate (new_data s2) s2).2).
Proof.
  intros Hn Ha Hb. unfold with_new_data, RawMemory_new, bind, Allocate, ret.
  apply Nat.eqb_neq in Hn. rewrite Hn, Ha. destruct s as [th ot nd w].
  cbn in *. rewrite Hb. by destruct (Deallocate (new_data s2) s2).
Qed.

Lemma this_Deallocate r (s : St T) : this (Deallocate r s).2 = this s.
Proof. unfold Deallocate. by destruct (buffer_ r =? 0). Qed.

Lemma other_Deallocate r (s : St T) : other (Deallocate r s).2 = other s.
Proof. unfold Deallocate. by destruct (buffer_ r =? 0). Qed.

Lemma destroy_n_run m first n (s : St T) :
  ∃ cs ev, destroy_n m first n s = (Ok tt, add_log ev (set_cells m cs s)).
Proof.
  unfold destroy_n. destruct (destroy_cells _ _ _ _) as [cs ev]. eauto.
Qed.

(** *** [Reserve] *)

Lemma Reserve_noop (s : St T) c :
  c ≤ capacity (this s) → Reserve c s = (Ok tt, s).
Proof.
  intros Hc. unfold Reserve, bind, Capacity, gets.
  apply Nat.leb_le in Hc. unfold capacity in Hc. by rewrite Hc.
Qed.

(** [Reserve] past the capacity moves the elements to a fresh block. *)
Lemma Reserve_grow (s : St T) c :
  wf (this s) → capacity (this s) < c → alloc_fails c = false →
  relocatable (this s) →
  ∃ s', Reserve c s = (Ok tt, s')
    ∧ other s' = other s ∧ new_data s' = new_data s
    ∧ size_ (this s') = size_ (this s)
    ∧ capacity (this s') = c
    ∧ buffer_ (data_ (this s')) = S (next_block (world s))
    ∧ wf (this s')
    ∧ (∀ i, i < size_ (this s) →
         cells (data_ (this s')) !! i = cells (data_ (this s)) !! i).
Proof.
  intros [Hlen Hsz Hlive Hraw] Hc Ha Hrel.
  destruct s as [[[b cs cap] sz] ot nd w].
  unfold capacity, relocatable in *.
  cbn [this data_ size_ cells capacity_ buffer_ other new_data world] in *.
  set (nb := S (next_block w)).
  set (s1 := mkSt (mkVec (mkRaw b cs cap) sz) ot (mkRaw nb (replicate c Raw) c)
                  (mkWorld (log w ++ [Alloc nb c]) nb)).
  destruct (run_relocate 0 sz 0 s1) as (scs & dcs & Er & Hdl & Hin & Hout).
  { intros i Hi. destruct (Hlive i Hi) as [t Et]. exists t. split; [done|].
    by apply (Hrel i). }
  { intros i Hi. apply lookup_replicate_2. lia. }
  cbn [s1 this data_ cells new_data Nat.add] in Hdl, Hin, Hout.
  set (s2 := add_log [] (set_cells NewData dcs (set_cells Data scs s1))) in *.
  set (s3 := set_mem Data (new_data s2) (set_mem NewData (data_ (this s2)) s2)).
  destruct (destroy_n_run NewData 0 sz s3) as (cs4 & ev4 & Ed).
  assert (Reserve c (mkSt (mkVec (mkRaw b cs cap) sz) ot nd w)
          = (Ok tt, set_mem NewData nd
                      (Deallocate (new_data (add_log ev4 (set_cells NewData cs4 s3)))
                                  (add_log ev4 (set_cells NewData cs4 s3))).2))
    as Erun.
  { unfold Reserve. rewrite bind_Capacity. cbn [this data_ capacity_].
    apply Nat.leb_gt in Hc as Hc'. rewrite Hc'.
    apply (run_with_new_data c _ (mkSt (mkVec (mkRaw b cs cap) sz) ot nd w));
      [lia|done|].
    fold nb. fold s1.
    rewrite bind_Size. cbn [s1 this size_]. fold s1.
    rewrite (bind_eq _ _ _ _ _ Er).
    unfold Swap_data_new. rewrite bind_modify.
    exact Ed. }
  eexists. split; [exact Erun|].
  rewrite length_replicate in Hdl.
  cbn [this other set_mem]. rewrite this_Deallocate, other_Deallocate.
  split_and!; try done.
  constructor; unfold capacity; cbn.
  - done.
  - lia.
  - intros i Hi. rewrite (Hin i Hi). by apply Hlive.
  - intros i Hi. rewrite Hout by lia. apply lookup_replicate_2. lia.
Qed.

(** *** [EmplaceBack] *)

Lemma try_catch_ok {A} (m : M A) h s a s' :
  m s = (Ok a, s') → try_catch m h s = (Ok a, s').
Proof. intros E. unfold try_catch. by rewrite E. Qed.

(** What is left to do once the new element sits in slot [size_]. *)
Lemma EmplaceBack_finish (body : M unit) (s s1 : St T) x c :
  body s = (Ok tt, s1) →
  wf (this s) →
  capacity (this s1) = c →
  other s1 = other s →
  size_ (this s1) = size_ (this s) →
  length (cells (data_ (this s1))) = capacity (this s1) →
  size_ (this s) < capacity (this s1) →
  cells (data_ (this s1)) !! size_ (this s) = Some (Live x) →
  (∀ i, i < size_ (this s) →
     cells (data_ (this s1)) !! i = cells (data_ (this s)) !! i) →
  (∀ i, size_ (this s) < i < capacity (this s1) →
     cells (data_ (this s1)) !! i = Some Raw) →
  ∃ s', (body;; incr_size;; sz' ← Size; RawMemory_index Data (sz' - 1)) s
        = (Ok (Ptr (buffer_ (data_ (this s'))) (size_ (this s))), s')
    ∧ other s' = other s
    ∧ size_ (this s') = S (size_ (this s))
    ∧ cells (data_ (this s')) !! size_ (this s) = Some (Live x)
    ∧ (∀ i, i < size_ (this s) →
         cells (data_ (this s')) !! i = cells (data_ (this s)) !! i)
    ∧ wf (this s')
    ∧ capacity (this s') = c.
Proof.
  intros Eb [_ _ Hlive0 _] Hc Hot Hsz Hlen Hcap Hx Hlive Hraw.
  exists (set_size (size_ (this s) + 1) s1).
  rewrite (bind_eq _ _ _ _ _ Eb). unfold incr_size. rewrite bind_modify, bind_Size.
  rewrite Hsz. cbn [this other set_size size_ data_].
  rewrite run_RawMemory_index.
  - split_and!; [do 3 f_equal; lia|done|lia|done|done| |done].
    unfold capacity in *. constructor; unfold capacity; cbn [this data_ size_]; auto.
    + lia.
    + intros i Hi. destruct (decide (i = size_ (this s))) as [->|Hne]; [eauto|].
      rewrite Hlive by lia. apply Hlive0. lia.
    + intros i Hi. apply Hraw. lia.
  - cbn [get_mem this set_size data_]. unfold capacity in Hcap. lia.
Qed.

Lemma EmplaceBack_run (s : St T) (x : T) :
  wf (this s) →
  (size_ (this s) = capacity (this s) →
     alloc_fails (max 1 (2 * capacity (this s))) = false ∧ relocatable (this s)) →
  ∃ s', EmplaceBack (Some x) s
        = (Ok (Ptr (buffer_ (data_ (this s'))) (size_ (this s))), s')
    ∧ other s' = other s
    ∧ size_ (this s') = S (size_ (this s))
    ∧ cells (data_ (this s')) !! size_ (this s) = Some (Live x)
    ∧ (∀ i, i < size_ (this s) →
         cells (data_ (this s')) !! i = cells (data_ (this s)) !! i)
    ∧ wf (this s')
    ∧ capacity (this s')
      = (if size_ (this s) =? capacity (this s)
         then max 1 (2 * capacity (this s)) else capacity (this s)).
Proof.
  intros Hwf Hfull. pose proof Hwf as [Hlen Hsz Hlive Hraw].
  unfold EmplaceBack. rewrite bind_Size.
  destruct (size_ (this s) =? 0) eqn:E0.
  - apply Nat.eqb_eq in E0.
    destruct (decide (1 ≤ capacity (this s))) as [Hc|Hc].
    + (* no element yet, spare capacity *)
      assert ((size_ (this s) =? capacity (this s)) = false) as ->
        by (apply Nat.eqb_neq; lia).
      eapply EmplaceBack_finish; [|done|..].
      { rewrite (bind_eq _ _ _ _ _ (Reserve_noop s 1 Hc)).
        apply run_placement_new. apply Hraw. lia. }
      all: destruct s as [[[b cs cap] sz] ot nd w]; unfold capacity in *;
        cbn [this other add_log set_cells set_mem get_mem data_ size_ cells capacity_] in *;
        subst sz; rewrite ?length_insert; try done.
      * apply list_lookup_insert_eq. lia.
      * intros i Hi. lia.
      * intros i Hi. rewrite list_lookup_insert_ne by lia. apply Hraw. lia.
    + (* empty buffer: Reserve (1) allocates *)
      assert (capacity (this s) = 0) as Hc0 by lia.
      destruct Hfull as [Ha Hrel]; [lia|]. rewrite Hc0 in Ha. cbn in Ha.
      assert ((size_ (this s) =? capacity (this s)) = true) as ->
        by (apply Nat.eqb_eq; lia).
      destruct (Reserve_grow s 1 Hwf ltac:(lia) Ha Hrel)
        as (sr & Er & Hot & Hnd & Hsr & Hcr & Hbr & [Hl1 Hs1 Hlive1 Hraw1] & Hvals).
      rewrite Hc0. change (1 `max` (2 * 0)) with 1.
      eapply EmplaceBack_finish; [|done|..].
      { rewrite (bind_eq _ _ _ _ _ Er). apply run_placement_new.
        apply Hraw1. unfold capacity in *. cbn [get_mem]. lia. }
      all: unfold capacity in *;
        cbn [this other add_log set_cells set_mem get_mem data_ size_ cells capacity_] in *;
        rewrite ?E0 in *; rewrite ?length_insert; try done; try lia.
      apply list_lookup_insert_eq. lia.
  - apply Nat.eqb_neq in E0.
    destruct (size_ (this s) =? capacity (this s)) eqn:Ef.
    + (* full: relocate into a buffer twice as large *)
      apply Nat.eqb_eq in Ef. destruct (Hfull Ef) as [Ha Hrel].
      replace (1 `max` (2 * capacity (this s))) with (size_ (this s) * 2) in * by lia.
      destruct s as [[[b cs cap] sz] ot nd w]. unfold capacity, relocatable in *.
      cbn [this other data_ size_ cells capacity_ buffer_] in *.
      clear Hfull Hsz. rewrite <- Ef in *. clear Ef cap.
      set (n := sz * 2) in *. set (nb := S (next_block w)).
      set (sa := mkSt (mkVec (mkRaw b cs sz) sz) ot (mkRaw nb (replicate n Raw) n)
                      (mkWorld (log w ++ [Alloc nb n]) nb)).
      set (sb := add_log [] (set_cells NewData (<[sz:=Live x]> (replicate n Raw)) sa)).
      destruct (run_relocate 0 sz 0 sb) as (scs & dcs & Er & Hdl & Hin & Hout).
      { intros i Hi. destruct (Hlive i Hi) as [t Et]. exists t. split; [done|].
        by apply (Hrel i). }
      { intros i Hi. cbn. rewrite list_lookup_insert_ne by lia.
        apply lookup_replicate_2. lia. }
      cbn [sb sa add_log set_cells set_mem get_mem this data_ cells new_data Nat.add]
        in Hdl, Hin, Hout.
      rewrite length_insert, length_replicate in Hdl.
      set (sc := add_log [] (set_cells NewData dcs (set_cells Data scs sb))) in *.
      destruct (destroy_n_run Data 0 sz sc) as (cs4 & ev4 & Ed).
      set (sd := add_log ev4 (set_cells Data cs4 sc)) in *.
      set (se := set_mem Data (new_data sd) (set_mem NewData (data_ (this sd)) sd)).
      eapply EmplaceBack_finish; [|done|..].
      { rewrite bind_Capacity. cbn [this data_ capacity_ size_].
        rewrite Nat.eqb_refl.
        apply (run_with_new_data n _ (mkSt (mkVec (mkRaw b cs sz) sz) ot nd w));
          [lia|done|].
        fold nb. fold sa.
        rewrite (bind_eq _ _ _ _ _ (run_RawMemory_plus NewData sz sa ltac:(cbn; lia))).
        rewrite (bind_eq _ _ sa tt sb).
        2:{ apply run_placement_new. cbn. apply lookup_replicate_2. lia. }
        apply try_catch_ok.
        rewrite (bind_eq _ _ _ _ _ Er), (bind_eq _ _ _ _ _ Ed).
        reflexivity. }
      all: cbn [this other set_mem]; rewrite ?this_Deallocate, ?other_Deallocate;
        unfold capacity; cbn; try done; try lia.
      * rewrite Hout by lia. apply list_lookup_insert_eq.
        rewrite length_replicate. lia.
      * intros i Hi. rewrite Hout by lia. rewrite list_lookup_insert_ne by lia.
        apply lookup_replicate_2. lia.
    + (* spare capacity *)
      apply Nat.eqb_neq in Ef.
      eapply EmplaceBack_finish; [|done|..].
      { rewrite bind_Capacity. fold (capacity (this s)).
        rewrite (proj2 (Nat.eqb_neq _ _) Ef).
        rewrite (bind_eq _ _ _ _ _ (run_RawMemory_plus Data _ s Hsz)).
        apply run_placement_new. apply Hraw. lia. }
      all: destruct s as [[[b cs cap] sz] ot nd w]; unfold capacity in *;
        cbn [this other add_log set_cells set_mem get_mem data_ size_ cells capacity_] in *;
        rewrite ?length_insert; try done; try lia.
      * apply list_lookup_insert_eq. lia.
      * intros i Hi. apply list_lookup_insert_ne. lia.
      * intros i Hi. rewrite list_lookup_insert_ne by lia. apply Hraw. lia.
Qed.

(** *** [Reserve] when a copy constructor throws *)

Lemma leaked_replicate_raw b i n : leaked b i (replicate n (@Raw T)) = [].
Proof. revert i. induction n as [|n IH]; intros i; simpl; auto. Qed.

Lemma Reserve_copy_throws (s : St T) c j t :
  relocate_by_move = false →
  capacity (this s) < c → alloc_fails c = false →
  size_ (this s) ≤ capacity (this s) → j < size_ (this s) →
  (∀ i, i < j → ∃ u, cells (data_ (this s)) !! i = Some (Live u)
                     ∧ copy_throws u = false) →
  cells (data_ (this s)) !! j = Some (Live t) → copy_throws t = true →
  Reserve c s
  = (Throw elem_exn,
     mkSt (this s) (other s) (new_data s)
          (mkWorld (log (world s)
                    ++ [Alloc (S (next_block (world s))) c]
                    ++ (Dtor (S (next_block (world s))) <$> seq 0 j)
                    ++ [Free (S (next_block (world s)))])
                   (S (next_block (world s))))).
Proof.
  intros Hrm Hc Ha Hsz Hj Hpre Et Ect.
  destruct s as [[[b cs cap] sz] ot nd [l nbk]]. unfold capacity in *.
  cbn [this other new_data world data_ size_ cells capacity_ log next_block] in *.
  set (nb := S nbk).
  unfold Reserve. rewrite bind_Capacity. cbn [this data_ capacity_].
  apply Nat.leb_gt in Hc as Hc'. rewrite Hc'.
  erewrite run_with_new_data; [|lia|done|].
  2:{ cbn [this other world log next_block]. fold nb.
      rewrite bind_Size. cbn [this size_]. rewrite Hrm.
      apply bind_throw. unfold uninitialized_copy_n.
      cbn [get_mem this new_data data_ cells buffer_].
      rewrite (uninitialized_copy_cells_throw cs 0 nb 0 (replicate c Raw) j t);
        [reflexivity|exact Et|exact Ect|exact Hpre| |lia| |done].
      - intros i Hi. apply lookup_replicate_2. lia.
      - intros i Hi. lia. }
  cbn [add_log set_cells set_mem get_mem this other new_data world log
       next_block buffer_ cells capacity_ Deallocate].
  unfold Deallocate. cbn [buffer_ cells]. unfold nb at 1. cbn [Nat.eqb].
  cbn. rewrite leaked_replicate_raw. cbn. by rewrite <- !app_assoc.
Qed.

(** *** [Erase] *)

Lemma run_end_ (s : St T) :
  end_ s = (Ok (Ptr (buffer_ (data_ (this s))) (size_ (this s))), s).
Proof. reflexivity. Qed.

Lemma run_assert (b : bool) (s : St T) : b = true → assert b s = (Ok tt, s).
Proof. by intros ->. Qed.

Lemma Erase_run (s : St T) k :
  wf (this s) → k < size_ (this s) →
  (∀ i t, k < i < size_ (this s) → cells (data_ (this s)) !! i = Some (Live t) →
     move_assign_throws t = false) →
  ∃ s', Erase (Ptr (buffer_ (data_ (this s))) k) s
        = (Ok (Ptr (buffer_ (data_ (this s))) k), s')
    ∧ size_ (this s') = size_ (this s) - 1
    ∧ capacity (this s') = capacity (this s)
    ∧ buffer_ (data_ (this s')) = buffer_ (data_ (this s))
    ∧ (∀ i, i < k → cells (data_ (this s')) !! i = cells (data_ (this s)) !! i)
    ∧ (∀ i, k ≤ i < size_ (this s) - 1 →
         cells (data_ (this s')) !! i = cells (data_ (this s)) !! S i)
    ∧ wf (this s').
Proof.
  intros [Hlen Hsz Hlive Hraw] Hk Hnt.
  destruct s as [[[b cs cap] sz] ot nd w]. unfold capacity in *.
  cbn [this data_ size_ cells capacity_ buffer_] in *.
  destruct (move_cells_shift_left (sz - S k) k cs)
    as (cs1 & Em & Hl1 & Hin & [tl Hlast] & Hout).
  { intros i Hi. apply Hlive. lia. }
  { intros i t Hi. apply Hnt. lia. }
  replace (k + (sz - S k)) with (sz - 1) in * by lia.
  set (s0 := mkSt (mkVec (mkRaw b cs cap) sz) ot nd w).
  set (s1 := set_cells Data cs1 s0).
  set (s2 := add_log [Dtor b (sz - 1)] (set_cells Data (<[sz - 1:=Raw]> cs1) s1)).
  exists (set_size (sz - 1) s2).
  split.
  { unfold Erase. rewrite (bind_eq begin _ s0 (Ptr b 0) s0 eq_refl).
    rewrite (bind_eq _ _ _ _ _ (run_end_ s0)).
    rewrite (bind_eq (assert _) _ s0 tt s0).
    2:{ apply run_assert. unfold ptr_leb, ptr_ltb. cbn.
        rewrite Nat.eqb_refl. cbn. by apply Nat.ltb_lt. }
    rewrite bind_Size. cbn [s0 this size_ off]. fold s0.
    rewrite Nat.sub_0_r, Nat.add_1_r.
    rewrite (bind_eq _ _ s0 tt s1).
    2:{ unfold std_move. cbn [s0 get_mem this data_ cells]. by rewrite Em. }
    rewrite (bind_eq _ _ s1 tt s2).
    2:{ unfold destroy_n. cbn [s1 s0 get_mem set_cells set_mem this data_ cells buffer_].
        cbn [destroy_cells]. by rewrite (destroy_at_live _ _ _ _ Hlast). }
    unfold decr_size. rewrite bind_modify.
    apply run_RawMemory_index. cbn. lia. }
  cbn. split_and!; try done.
  - intros i Hi. rewrite list_lookup_insert_ne by lia. apply Hout. lia.
  - intros i Hi. rewrite list_lookup_insert_ne by lia. apply Hin. lia.
  - constructor; unfold capacity; cbn.
    + by rewrite length_insert, Hl1.
    + lia.
    + intros i Hi. rewrite list_lookup_insert_ne by lia.
      destruct (decide (i < k)) as [Hlt|Hge].
      * rewrite Hout by lia. apply Hlive. lia.
      * rewrite Hin by lia. apply Hlive. lia.
    + intros i Hi. destruct (decide (i = sz - 1)) as [->|Hne].
      * apply list_lookup_insert_eq. apply lookup_lt_Some in Hlast. done.
      * rewrite list_lookup_insert_ne by lia. rewrite Hout by lia.
        apply Hraw. lia.
Qed.

(** *** The copy constructor *)

Lemma run_RawMemory_new n (s : St T) :
  (n ≠ 0 → alloc_fails n = false) →
  ∃ b w', RawMemory_new n s
          = (Ok (mkRaw b (replicate n Raw) n),
             mkSt (this s) (other s) (new_data s) w').
Proof.
  intros Ha. unfold RawMemory_new, bind, Allocate, ret.
  destruct (n =? 0) eqn:En.
  - apply Nat.eqb_eq in En. subst n. exists 0, (world s). by destruct s.
  - apply Nat.eqb_neq in En. rewrite (Ha En). eauto.
Qed.

Lemma Vector_copy_run (s : St T) :
  wf (other s) →
  (size_ (other s) ≠ 0 → alloc_fails (size_ (other s)) = false) →
  (∀ i t, i < size_ (other s) → cells (data_ (other s)) !! i = Some (Live t) →
     copy_throws t = false) →
  ∃ s', Vector_copy s = (Ok tt, s')
    ∧ other s' = other s
    ∧ size_ (this s') = size_ (other s)
    ∧ capacity (this s') = size_ (other s)
    ∧ (∀ i, i < size_ (other s) →
         cells (data_ (this s')) !! i = cells (data_ (other s)) !! i)
    ∧ wf (this s').
Proof.
  intros [Hlen Hsz Hlive Hraw] Ha Hnt.
  destruct (run_RawMemory_new (size_ (other s)) s Ha) as (b & w' & En).
  destruct s as [th [[ob ocs ocap] n] nd w]. unfold capacity in *.
  cbn [this other new_data data_ size_ cells capacity_ buffer_] in *.
  destruct (uninitialized_copy_cells_ok ocs 0 b 0 n 0 (replicate n Raw))
    as (dcs & Ec & Hdl & Hin & Hout).
  { intros i Hi. destruct (Hlive i ltac:(lia)) as [t Et]. exists t.
    split; [done|]. apply (Hnt i); [lia|done]. }
  { intros i Hi. apply lookup_replicate_2. lia. }
  rewrite length_replicate in Hdl. cbn [Nat.add] in Hin.
  eexists. split.
  { unfold Vector_copy. rewrite bind_gets. cbn [other size_].
    rewrite (bind_eq _ _ _ _ _ En). rewrite bind_modify.
    unfold unwind_members, uninitialized_move_n_const.
    apply try_catch_ok.
    assert (uninitialized_copy_n OtherData 0 n Data 0
              (set_this (mkVec (mkRaw b (replicate n Raw) n) n)
                 (mkSt th (mkVec (mkRaw ob ocs ocap) n) nd w'))
            = (Ok tt, add_log [] (set_cells Data dcs
                 (set_this (mkVec (mkRaw b (replicate n Raw) n) n)
                    (mkSt th (mkVec (mkRaw ob ocs ocap) n) nd w'))))) as Erun.
    { unfold uninitialized_copy_n.
      cbn [get_mem set_this this other data_ cells buffer_]. by rewrite Ec. }
    destruct relocate_by_move; exact Erun. }
  cbn. split_and!; try done.
  - intros i Hi. apply Hin. lia.
  - constructor; unfold capacity; cbn; try done.
    + intros i Hi. rewrite Hin by lia. apply Hlive. lia.
    + intros i Hi. lia.
Qed.

(** *** [Emplace] into spare capacity *)

(** In-place [Emplace] at offset [k] when nothing throws: the new element is
    at [k], the elements of [k .. size-2] are one index up, and slot [size]
    holds what a move leaves behind of the former last element. *)
Lemma Emplace_in_place_run (v : Vector T) (w : World) (k : nat) (x last : T) :
  wf v → k < size_ v → size_ v < capacity v →
  cells (data_ v) !! (size_ v - 1) = Some (Live last) →
  move_throws last = false →
  move_assign_throws (moved_from last) = false →
  (∀ i t, k ≤ i < size_ v - 1 → cells (data_ v) !! i = Some (Live t) →
     move_assign_throws t = false) →
  ∃ v' w',
    call (Emplace (Ptr (buffer_ (data_ v)) k) (Some x)) v w
    = (Ok (Ptr (buffer_ (data_ v)) k), v', w')
    ∧ size_ v' = S (size_ v)
    ∧ value_at v' k = Some x
    ∧ (∀ i, i < k → value_at v' i = value_at v i)
    ∧ (∀ j, k ≤ j < size_ v - 1 → value_at v' (S j) = value_at v j)
    ∧ value_at v' (size_ v) = Some (moved_from last)
    ∧ wf v'
    ∧ capacity v' = capacity v
    ∧ buffer_ (data_ v') = buffer_ (data_ v)
    ∧ w' = mkWorld (log w ++ [Dtor (buffer_ (data_ v)) k]) (next_block w).
Proof.
  intros [Hlen Hsz Hlive Hraw] Hk Hcap Elast Hmt Hmat Hnt.
  destruct v as [[b cs cap] sz]. unfold capacity, value_at in *.
  cbn [data_ size_ cells capacity_ buffer_] in *.
  set (cs0 := <[sz - 1:=Live (moved_from last)]> (<[sz:=Live last]> cs)).
  assert (∀ i, i < sz - 1 → cs0 !! i = cs !! i) as H0lo.
  { intros i Hi. unfold cs0. by rewrite !list_lookup_insert_ne by lia. }
  assert (cs0 !! (sz - 1) = Some (Live (moved_from last))) as H0mid.
  { unfold cs0. apply list_lookup_insert_eq. rewrite length_insert. lia. }
  assert (cs0 !! sz = Some (Live last)) as H0last.
  { unfold cs0. rewrite list_lookup_insert_ne by lia.
    apply list_lookup_insert_eq. lia. }
  assert (∀ i, sz < i → cs0 !! i = cs !! i) as H0hi.
  { intros i Hi. unfold cs0. by rewrite !list_lookup_insert_ne by lia. }
  destruct (move_backward_cells_shift_right (sz - k) sz cs0)
    as (cs1 & Emb & Hl1 & Hin & Hl & Hout); [lia| |
    |].
  { intros i Hi. destruct (decide (i = sz)) as [->|Hn1]; [eauto|].
    destruct (decide (i = sz - 1)) as [->|Hn2]; [eauto|].
    rewrite H0lo by lia. apply Hlive. lia. }
  { intros i t Hi Et. destruct (decide (i = sz - 1)) as [->|Hn2].
    - rewrite H0mid in Et. by injection Et as <-.
    - rewrite H0lo in Et by lia. apply (Hnt i t); [lia|done]. }
  replace (sz - (sz - k)) with k in * by lia.
  destruct (Hl k) as [tk Etk]; [lia|].
  set (s0 := mkSt (mkVec (mkRaw b cs cap) sz) Vector_default RawMemory_default w).
  set (s1 := add_log [] (set_cells Data cs0 s0)).
  set (s2 := set_cells Data cs1 s1).
  set (s3 := add_log [Dtor b k] (set_cells Data (<[k:=Raw]> cs1) s2)).
  set (s4 := add_log [] (set_cells Data (<[k:=Live x]> (<[k:=Raw]> cs1)) s3)).
  assert (length cs0 = cap) as Hl0 by (unfold cs0; by rewrite !length_insert).
  exists (this (set_size (sz + 1) s4)), (world (set_size (sz + 1) s4)).
  split.
  { unfold call. fold s0. unfold Emplace.
    rewrite (bind_eq begin _ s0 (Ptr b 0) s0 eq_refl).
    rewrite (bind_eq _ _ _ _ _ (run_end_ s0)).
    rewrite (bind_eq (assert _) _ s0 tt s0).
    2:{ apply run_assert. unfold ptr_leb, ptr_ltb. cbn.
        rewrite Nat.eqb_refl. cbn. apply Nat.leb_le. lia. }
    rewrite bind_Size. cbn [s0 this size_ off]. fold s0.
    rewrite Nat.sub_0_r. rewrite (proj2 (Nat.eqb_neq k sz)) by lia.
    rewrite bind_Capacity. cbn [s0 this data_ capacity_]. fold s0.
    rewrite (proj2 (Nat.leb_gt cap sz)) by lia.
    rewrite (bind_eq _ _ s0 tt s4).
    2:{ apply try_catch_ok.
        rewrite (bind_eq _ _ _ _ _ (run_RawMemory_plus Data sz s0 ltac:(cbn; lia))).
        rewrite (bind_eq _ _ s0 tt s1).
        2:{ unfold placement_new_move. cbn [s0 get_mem this data_ cells buffer_].
            rewrite Elast, Hmt.
            rewrite (construct_at_raw _ _ _ _ (Hraw sz ltac:(lia))). done. }
        rewrite (bind_eq _ _ s1 tt s2).
        2:{ unfold move_backward. cbn [s1 s0 get_mem add_log set_cells set_mem this data_ cells].
            rewrite Nat.add_1_r, Emb. done. }
        rewrite (bind_eq _ _ s2 tt s3).
        2:{ unfold destroy_n.
            cbn [s2 s1 s0 get_mem add_log set_cells set_mem this data_ cells buffer_].
            cbn [destroy_cells]. by rewrite (destroy_at_live _ _ _ _ Etk). }
        rewrite (bind_eq _ _ _ _ _ (run_RawMemory_plus Data k s3 ltac:(cbn; lia))).
        apply run_placement_new. cbn. apply list_lookup_insert_eq.
        apply lookup_lt_Some in Etk. done. }
    unfold incr_size. rewrite bind_modify.
    cbn [s4 s3 s2 s1 s0 add_log set_cells set_mem get_mem this size_ data_].
    rewrite run_RawMemory_index by (cbn; lia). reflexivity. }
  assert (length cs1 = cap) as Hl1' by lia.
  assert (∀ i, i ≠ k → <[k:=Live x]> (<[k:=Raw]> cs1) !! i = cs1 !! i) as Hne.
  { intros i Hi. by rewrite !list_lookup_insert_ne by lia. }
  assert (<[k:=Live x]> (<[k:=Raw]> cs1) !! k = Some (Live x)) as Heq.
  { apply list_lookup_insert_eq. rewrite length_insert. lia. }
  cbn. split_and!.
  - lia.
  - by rewrite Heq.
  - intros i Hi. rewrite Hne, Hout, H0lo by lia. done.
  - intros j Hj. rewrite Hne, Hin by lia.
    replace (S j - 1) with j by lia. rewrite H0lo by lia. done.
  - rewrite Hne, Hin by lia. by rewrite H0mid.
  - constructor; unfold capacity; cbn.
    + by rewrite !length_insert.
    + lia.
    + intros i Hi. destruct (decide (i = k)) as [->|Hik]; [eauto|].
      rewrite Hne by done. destruct (decide (i < k)) as [Hlt|Hge].
      * rewrite Hout, H0lo by lia. apply Hlive. lia.
      * apply Hl. lia.
    + intros i Hi. rewrite Hne, Hout, H0hi by lia. apply Hraw. lia.
  - done.
  - done.
  - by rewrite !app_nil_r.
Qed.

(** A count that fits gets a block with room for that many objects. *)
Lemma fits_room (n : nat) : fits (T:=T) n → room (T:=T) n = n.
Proof.
  unfold fits, room. intros Hfit.
  rewrite N.mod_small by lia.
  rewrite N.div_mul by done.
  apply Nat2N.id.
Qed.

End Spec.

(** * The claims *)

Section Claims.
Context {T : Type} `{Element T}.
#[local] Abbreviation M := (M T).

Lemma call_PushBack (v v' : Vector T) (w w' : World) x p :
  copy_throws x = false →
  call (EmplaceBack (Some x)) v w = (Ok p, v', w') →
  call (PushBack x) v w = (Ok tt, v', w').
Proof.
  intros Hx. unfold call, PushBack, copy_of, bind. rewrite Hx.
  destruct (EmplaceBack (Some x) _) as [[a|e|] s']; intros [= <- <- <-]; done.
Qed.

Lemma call_PushBack_rvalue (v v' : Vector T) (w w' : World) x p :
  move_throws x = false →
  call (EmplaceBack (Some x)) v w = (Ok p, v', w') →
  call (PushBack_rvalue x) v w = (Ok tt, v', w').
Proof.
  intros Hx. unfold call, PushBack_rvalue, move_of, bind. rewrite Hx.
  destruct (EmplaceBack (Some x) _) as [[a|e|] s']; intros [= <- <- <-]; done.
Qed.

(** C5.  On a well-formed sequence of size [n], when the constructor of the
    new element and (if the buffer is full) the allocation and the relocation
    do not throw, [EmplaceBack] and both overloads of [PushBack] return
    normally; the size is then [n + 1], element [n] has the value [x], the
    elements [0 .. n-1] keep their values, and [EmplaceBack] returns the
    address of slot [n] of the (possibly new) buffer. *)
Theorem PushBack_appends (v : Vector T) (w : World) (x : T) :
  wf v →
  (size_ v = capacity v →
     alloc_fails (max 1 (2 * capacity v)) = false ∧ relocatable v) →
  ∃ v' w',
    call (EmplaceBack (Some x)) v w
    = (Ok (Ptr (buffer_ (data_ v')) (size_ v)), v', w')
    ∧ (copy_throws x = false → call (PushBack x) v w = (Ok tt, v', w'))
    ∧ (move_throws x = false → call (PushBack_rvalue x) v w = (Ok tt, v', w'))
    ∧ size_ v' = S (size_ v)
    ∧ value_at v' (size_ v) = Some x
    ∧ (∀ i, i < size_ v → value_at v' i = value_at v i)
    ∧ wf v'.
Proof.
  intros Hwf Hfull.
  destruct (EmplaceBack_run (mkSt v Vector_default RawMemory_default w) x Hwf Hfull)
    as (s' & Er & _ & Hsz & Hx & Hvals & Hwf' & _).
  cbn [this] in *.
  assert (call (EmplaceBack (Some x)) v w
          = (Ok (Ptr (buffer_ (data_ (this s'))) (size_ v)), this s', world s'))
    as Ecall by (unfold call; by rewrite Er).
  exists (this s'), (world s'). split_and!; try done.
  - intros Hc. by eapply call_PushBack.
  - intros Hm. by eapply call_PushBack_rvalue.
  - unfold value_at. by rewrite Hx.
  - intros i Hi. unfold value_at. by rewrite Hvals.
Qed.

(** C7.  On a well-formed sequence, [Erase] at offset [k < size] (move
    assignment of the shifted elements not throwing) keeps the values at
    [0 .. k-1], moves the values of [k+1 .. size-1] one index down, makes
    the size one smaller and returns the cursor at offset [k]. *)
Theorem Erase_shifts_left (v : Vector T) (w : World) (k : nat) :
  wf v → k < size_ v →
  (∀ i t, k < i < size_ v → cells (data_ v) !! i = Some (Live t) →
     move_assign_throws t = false) →
  ∃ v' w',
    call (Erase (Ptr (buffer_ (data_ v)) k)) v w
    = (Ok (Ptr (buffer_ (data_ v')) k), v', w')
    ∧ size_ v' = size_ v - 1
    ∧ (∀ i, i < k → value_at v' i = value_at v i)
    ∧ (∀ i, k ≤ i < size_ v - 1 → value_at v' i = value_at v (S i))
    ∧ buffer_ (data_ v') = buffer_ (data_ v)
    ∧ capacity v' = capacity v
    ∧ wf v'.
Proof.
  intros Hwf Hk Hnt.
  destruct (Erase_run (mkSt v Vector_default RawMemory_default w) k Hwf Hk Hnt)
    as (s' & Er & Hsz & Hcap & Hb & Hlo & Hhi & Hwf').
  cbn [this] in *.
  exists (this s'), (world s'). unfold call. rewrite Er, Hb.
  split_and!; try done.
  - intros i Hi. unfold value_at. by rewrite Hlo.
  - intros i Hi. unfold value_at. by rewrite Hhi.
Qed.


(** C4.  [Reserve (c)] past the capacity, for a [c] whose byte count does
    not wrap, on a type relocated by copy: if the [k]-th copy construction
    throws (the earlier ones do not), the exception leaves [Reserve], the
    sequence is exactly as before, and on the new block exactly [k - 1]
    destructors have run, on the slots [0 .. k-2] that had been constructed,
    before the block was released. *)
Theorem Reserve_rolls_back (v : Vector T) (w : World) (c k : nat) (t : T) :
  relocate_by_move = false →
  size_ v ≤ capacity v → capacity v < c → fits (T:=T) c →
  alloc_fails c = false →
  1 ≤ k ≤ size_ v →
  (∀ i, i < k - 1 →
     ∃ u, cells (data_ v) !! i = Some (Live u) ∧ copy_throws u = false) →
  cells (data_ v) !! (k - 1) = Some (Live t) → copy_throws t = true →
  let b := S (next_block w) in
  call (Reserve c) v w
  = (Throw elem_exn, v,
     mkWorld (log w ++ [Alloc b c] ++ (Dtor b <$> seq 0 (k - 1)) ++ [Free b]) b)
  ∧ length (Dtor b <$> seq 0 (k - 1)) = k - 1.
Proof.
  intros Hrm Hsz Hc _ Ha Hk Hpre Et Ect b. split.
  - unfold call.
    rewrite (Reserve_copy_throws (mkSt v Vector_default RawMemory_default w)
               c (k - 1) t); try done.
    cbn [this size_]. lia.
  - by rewrite length_fmap, length_seq.
Qed.

Lemma call_triple {A} (m : M A) (v : Vector T) (w : World)
    (Q : A → Shape → Prop) (E : Shape → Prop) :
  triple (λ sh, sh = shape_of (mkSt v Vector_default RawMemory_default w)) m Q E →
  ∃ sh, sh_cap sh = capacity (call m v w).1.2
      ∧ match (call m v w).1.1 with Ok a => Q a sh | _ => E sh end.
Proof.
  intros Hm. specialize (Hm _ eq_refl). unfold call.
  destruct (m _) as [[a|e|] s']; by exists (shape_of s').
Qed.

Lemma grow_emplace_back_cap (v : Vector T) (w : World) :
  size_ v ≤ capacity v →
  emplace_back_cap (shape_of (mkSt v Vector_default RawMemory_default w)) = grow v.
Proof.
  intros Hsz. unfold emplace_back_cap, grow, capacity in *.
  cbn [shape_of sh_size sh_cap this].
  destruct (size_ v =? 0) eqn:E0.
  - apply Nat.eqb_eq in E0. rewrite E0 in *.
    destruct (1 <=? capacity_ (data_ v)) eqn:E1.
    + apply Nat.leb_le in E1.
      destruct (0 =? capacity_ (data_ v)) eqn:E2; [|done].
      apply Nat.eqb_eq in E2. lia.
    + apply Nat.leb_gt in E1.
      destruct (0 =? capacity_ (data_ v)) eqn:E2; [lia|].
      apply Nat.eqb_neq in E2. lia.
  - apply Nat.eqb_neq in E0.
    destruct (size_ v =? capacity_ (data_ v)) eqn:E1; [|done].
    apply Nat.eqb_eq in E1. lia.
Qed.

Lemma grow_emplace_cap (v : Vector T) (w : World) dist :
  size_ v ≤ capacity v → dist ≤ size_ v →
  emplace_cap (shape_of (mkSt v Vector_default RawMemory_default w)) dist = grow v.
Proof.
  intros Hsz Hd. unfold emplace_cap.
  destruct (dist =? _) eqn:Ed; [by apply grow_emplace_back_cap|].
  cbn [shape_of sh_size sh_cap this] in *. apply Nat.eqb_neq in Ed.
  unfold grow, capacity in *.
  destruct (capacity_ (data_ v) <=? size_ v) eqn:E1.
  - apply Nat.leb_le in E1.
    assert ((size_ v =? capacity_ (data_ v)) = true) as ->
      by (apply Nat.eqb_eq; lia). lia.
  - apply Nat.leb_gt in E1.
    assert ((size_ v =? capacity_ (data_ v)) = false) as ->
      by (apply Nat.eqb_neq; lia). done.
Qed.

Lemma EmplaceBack_grow (v v' : Vector T) (w w' : World) c p :
  size_ v ≤ capacity v →
  call (EmplaceBack c) v w = (Ok p, v', w') → capacity v' = grow v.
Proof.
  intros Hsz Ec.
  destruct (call_triple _ v w _ _ (EmplaceBack_shape _ c)) as (sh & Hcap & Hq).
  rewrite Ec in *. cbn [fst snd] in *. rewrite <- Hcap, Hq.
  by apply grow_emplace_back_cap.
Qed.

Lemma Emplace_grow (v v' : Vector T) (w w' : World) pos c p :
  size_ v ≤ capacity v →
  call (Emplace pos c) v w = (Ok p, v', w') → capacity v' = grow v.
Proof.
  intros Hsz Ec.
  destruct (call_triple _ v w _ _ (Emplace_shape _ pos c)) as (sh & Hcap & Hq).
  rewrite Ec in *. cbn [fst snd] in *. destruct Hq as [Hd Hq].
  rewrite <- Hcap, Hq.
  by apply grow_emplace_cap.
Qed.

Lemma PushBack_inv (v v' : Vector T) (w w' : World) x :
  call (PushBack x) v w = (Ok tt, v', w') →
  ∃ p, call (EmplaceBack (copy_of x)) v w = (Ok p, v', w').
Proof.
  unfold call, PushBack, bind.
  destruct (EmplaceBack (copy_of x) _) as [[p|e|] s']; [|done|done].
  intros [= <- <-]. by exists p.
Qed.

Lemma PushBack_rvalue_inv (v v' : Vector T) (w w' : World) x :
  call (PushBack_rvalue x) v w = (Ok tt, v', w') →
  ∃ p, call (EmplaceBack (move_of x)) v w = (Ok p, v', w').
Proof.
  unfold call, PushBack_rvalue, bind.
  destruct (EmplaceBack (move_of x) _) as [[p|e|] s']; [|done|done].
  intros [= <- <-]. by exists p.
Qed.

Lemma PushBack_run (s : St T) (x : T) :
  copy_throws x = false → wf (this s) →
  (size_ (this s) = capacity (this s) →
     alloc_fails (max 1 (2 * capacity (this s))) = false ∧ relocatable (this s)) →
  ∃ s', PushBack x s = (Ok tt, s')
    ∧ size_ (this s') = S (size_ (this s))
    ∧ cells (data_ (this s')) !! size_ (this s) = Some (Live x)
    ∧ (∀ i, i < size_ (this s) →
         cells (data_ (this s')) !! i = cells (data_ (this s)) !! i)
    ∧ wf (this s')
    ∧ capacity (this s') = grow (this s).
Proof.
  intros Hx Hwf Hfull.
  destruct (EmplaceBack_run s x Hwf Hfull) as (s' & Er & _ & Hsz & Hn & Hv & Hwf' & Hc).
  exists s'. unfold PushBack, copy_of. rewrite Hx, (bind_eq _ _ _ _ _ Er).
  done.
Qed.

Lemma wf_default : wf (@Vector_default T).
Proof. constructor; cbn; intros; (done || lia). Qed.

(** Scenario "grow from empty": the capacities seen after each of three
    pushes into a default-constructed sequence. *)
Lemma three_pushes_run (x1 x2 x3 : T) (w : World) :
  copy_throws x1 = false → copy_throws x2 = false → copy_throws x3 = false →
  alloc_fails 1 = false → alloc_fails 2 = false → alloc_fails 4 = false →
  (if relocate_by_move then move_throws x1 else copy_throws x1) = false →
  (if relocate_by_move then move_throws x2 else copy_throws x2) = false →
  ∃ v' w', call (three_pushes x1 x2 x3) Vector_default w = (Ok (1, 2, 4), v', w')
    ∧ size_ v' = 3
    ∧ value_at v' 0 = Some x1 ∧ value_at v' 1 = Some x2 ∧ value_at v' 2 = Some x3.
Proof.
  intros Hx1 Hx2 Hx3 Ha1 Ha2 Ha4 Hr1 Hr2.
  destruct (PushBack_run (mkSt Vector_default Vector_default RawMemory_default w) x1)
    as (s1 & E1 & Hs1 & Hn1 & _ & Hwf1 & Hc1); [done|apply wf_default| |].
  { intros _. split; [done|]. intros i t Hi. cbn in Hi. lia. }
  cbn [this Vector_default size_] in *. unfold grow in Hc1. cbn in Hc1.
  destruct (PushBack_run s1 x2) as (s2 & E2 & Hs2 & Hn2 & Hv2 & Hwf2 & Hc2);
    [done|done| |].
  { intros _. rewrite Hc1. split; [done|]. intros i t Hi Et.
    rewrite Hs1 in Hi. assert (i = 0) as -> by lia.
    rewrite Hn1 in Et. by injection Et as <-. }
  unfold grow in Hc2. rewrite Hs1, Hc1 in *. cbn in Hc2.
  destruct (PushBack_run s2 x3) as (s3 & E3 & Hs3 & Hn3 & Hv3 & Hwf3 & Hc3);
    [done|done| |].
  { intros _. rewrite Hc2. split; [done|]. intros i t Hi Et.
    rewrite Hs2 in Hi. destruct (decide (i = 0)) as [->|Hne].
    - rewrite Hv2, Hn1 in Et by lia. by injection Et as <-.
    - assert (i = 1) as -> by lia. rewrite Hn2 in Et. by injection Et as <-. }
  unfold grow in Hc3. rewrite Hs2, Hc2 in *. cbn in Hc3.
  exists (this s3), (world s3). unfold call, three_pushes.
  rewrite (bind_eq _ _ _ _ _ E1), bind_Capacity.
  rewrite (bind_eq _ _ _ _ _ E2), bind_Capacity.
  rewrite (bind_eq _ _ _ _ _ E3), bind_Capacity.
  unfold capacity in *. rewrite Hc1, Hc2, Hc3. unfold value_at.
  rewrite Hn3, !Hv3, Hn2, Hv2, Hn1 by lia. done.
Qed.

(** The capacity of [*this] after a call, whatever its outcome. *)
Lemma grown_call {A} (m : M A) (v o : Vector T) (w : World) Q :
  triple (λ sh, sh = shape_of (frame v o w)) m Q (grown (shape_of (frame v o w))) →
  (∀ a sh, Q a sh → grown (shape_of (frame v o w)) sh) →
  capacity v ≤ capacity (this (m (frame v o w)).2).
Proof.
  intros Hm HQ. specialize (Hm _ eq_refl).
  destruct (m _) as [[a|e|] s']; cbn [snd];
    [exact (HQ a _ Hm)|exact Hm|exact Hm].
Qed.

Lemma grown_bind_ret {A} (m : M A) (s : St T) :
  this (bind m (λ _, ret tt) s).2 = this (m s).2.
Proof. unfold bind. by destruct (m s) as [[a|e|] s']. Qed.

(** C10.  After [Reserve], [Resize], [PushBack], [EmplaceBack], [Emplace],
    [Insert], [Erase], [PopBack] and copy assignment, however the call ends,
    the capacity is at least what it was before the call. *)
Theorem capacity_never_shrinks (v rhs : Vector T) (w : World) :
  (∀ c, capacity v ≤ capacity (after (call (Reserve c) v w)))
  ∧ (∀ n, capacity v ≤ capacity (after (call (Resize n) v w)))
  ∧ (∀ x, capacity v ≤ capacity (after (call (PushBack x) v w)))
  ∧ (∀ x, capacity v ≤ capacity (after (call (PushBack_rvalue x) v w)))
  ∧ (∀ c, capacity v ≤ capacity (after (call (EmplaceBack c) v w)))
  ∧ (∀ pos c, capacity v ≤ capacity (after (call (Emplace pos c) v w)))
  ∧ (∀ pos x, capacity v ≤ capacity (after (call (Insert pos x) v w)))
  ∧ (∀ pos x, capacity v ≤ capacity (after (call (Insert_rvalue pos x) v w)))
  ∧ (∀ pos, capacity v ≤ capacity (after (call (Erase pos) v w)))
  ∧ capacity v ≤ capacity (after (call PopBack v w))
  ∧ capacity v ≤ capacity (after2 (call2 copy_assign v rhs w)).
Proof.
  assert (∀ A (m : M A) o, after (call m v w) = this (m (frame v Vector_default w)).2
                         ∧ after2 (call2 m v o w) = this (m (frame v o w)).2) as Hafter.
  { intros A m o. unfold after, after2, call, call2, frame.
    split; by destruct (m _). }
  assert (∀ x : Shape, grown x x) as Hxx by (intros x; unfold grown; lia).
  split_and!; intros; rewrite ?(proj1 (Hafter _ _ rhs)), ?(proj2 (Hafter _ _ rhs)).
  - eapply grown_call.
    + eapply triple_conseq;
        [apply (Reserve_shape (shape_of (frame v Vector_default w)) c)
        |done|intros a sh Hq; exact Hq|].
      by intros sh ->.
    + intros _ sh ->. unfold grown. cbn [sh_cap set_cap].
      destruct (c <=? _) eqn:E; [lia|]. apply Nat.leb_gt in E. lia.
  - eapply grown_call; [apply Resize_shape|].
    intros _ sh ->. unfold grown. cbn [sh_cap set_cap set_sz].
    destruct (_ && _) eqn:E; [|lia].
    apply andb_prop in E as [_ E]. apply Nat.ltb_lt in E. lia.
  - unfold PushBack. rewrite grown_bind_ret.
    eapply grown_call; [apply EmplaceBack_shape|].
    intros _ sh ->. unfold grown. cbn [sh_cap set_cap set_sz].
    apply emplace_back_cap_ge.
  - unfold PushBack_rvalue. rewrite grown_bind_ret.
    eapply grown_call; [apply EmplaceBack_shape|].
    intros _ sh ->. unfold grown. cbn [sh_cap set_cap set_sz].
    apply emplace_back_cap_ge.
  - eapply grown_call; [apply EmplaceBack_shape|].
    intros _ sh ->. unfold grown. cbn [sh_cap set_cap set_sz].
    apply emplace_back_cap_ge.
  - eapply grown_call; [apply Emplace_shape|].
    intros _ sh [_ ->]. unfold grown. cbn [sh_cap set_cap set_sz].
    apply emplace_cap_ge.
  - eapply grown_call; [apply Emplace_shape|].
    intros _ sh [_ ->]. unfold grown. cbn [sh_cap set_cap set_sz].
    apply emplace_cap_ge.
  - eapply grown_call; [apply Emplace_shape|].
    intros _ sh [_ ->]. unfold grown. cbn [sh_cap set_cap set_sz].
    apply emplace_cap_ge.
  - eapply grown_call; [apply Erase_shape|]. intros _ sh ->. unfold grown. done.
  - eapply grown_call; [apply PopBack_shape|]. intros _ sh ->. unfold grown. done.
  - eapply grown_call; [apply copy_assign_shape|].
    intros _ sh ->. unfold grown. cbn [sh_cap set_cap set_sz].
    destruct (_ <? _) eqn:E; [|lia]. apply Nat.ltb_lt in E. lia.
Qed.

End Claims.

(** ** The claims that the code does not meet, at concrete inputs *)

(** C1.  Relocation by copy in a reallocating [Insert]: when the copy of the
    second range throws, the inner handler destroys slots [0 .. dist] of the
    new buffer and the outer handler then destroys slot [dist] again, so
    the inserted element has its destructor run twice. *)
Theorem Insert_destroys_new_element_twice :
  call insert_before_armed Vector_default world0
  = (Throw elem_exn,
     mkVec (mkRaw 1 [Live (Probe 1 true)] 1) 1,
     mkWorld [Alloc 1 1; Alloc 2 2; Dtor 2 0; DtorDead 2 0; Free 2] 2)
  ∧ lifetime_clean (log (call insert_before_armed Vector_default world0).2)
    = false.
Proof. split; vm_compute; reflexivity. Qed.

(** Another path that breaks the same rule: in-place [Insert] when the move
    construction of the last element into slot [size_] throws.  The handler
    runs the destructor on slot [size_], which was never constructed. *)
Lemma Insert_destroys_raw_slot :
  call insert_before_armed_last Vector_default world0
  = (Throw elem_exn,
     mkVec (mkRaw 1 [Live (Probe 1 false); Live (Probe 2 true); Raw; Raw] 4) 2,
     mkWorld [Alloc 1 4; DtorDead 1 2] 1).
Proof. vm_compute. reflexivity. Qed.

(** C2.  Reallocating [Insert] at offset 1 of three elements, relocation by
    copy, the copy of the last element throwing: the sequence is left as it
    was, the new buffer is released and the exception is rethrown, but the
    destructor calls on the new buffer are slot 2 (rollback of the second
    range by [std::uninitialized_copy_n]), slots 0 and 1 (inner handler:
    prefix and inserted element), and slot 1 once more (outer handler). *)
Theorem Insert_rollback_destroys_slot_twice :
  call insert_amid_armed Vector_default world0
  = (Throw elem_exn,
     three_probes,
     mkWorld [Alloc 1 3; Alloc 2 6;
              Dtor 2 2; Dtor 2 0; Dtor 2 1; DtorDead 2 1; Free 2] 2).
Proof. vm_compute. reflexivity. Qed.

(** C3.  In-place [Emplace] at the front of [owner 1; owner 2] with spare
    capacity, nothing throwing: [std::move_backward] starts from the last
    element, which has just been moved from, so slot 2 ends up holding the
    moved-from value instead of the value [owner 2] that was at index 1. *)
Theorem Emplace_in_place_loses_last_value :
  call emplace_front_unique Vector_default world0
  = (Ok (Ptr 1 0),
     mkVec (mkRaw 1 [Live (owner 0); Live (owner 1); Live null; Raw] 4) 3,
     mkWorld [Alloc 1 4; Dtor 1 0] 1)
  ∧ value_at (after (call emplace_front_unique Vector_default world0)) 2
    ≠ Some (owner 2).
Proof. split; vm_compute; [reflexivity|discriminate]. Qed.

(** C9.  In-place [Insert] at the front of two elements when constructing
    the inserted element throws: slot 0 has been destroyed and is not
    constructed again while [size_] stays 2, so the state the caller gets
    back has a dead slot inside [0, size). *)
Theorem Insert_failure_breaks_invariant :
  call insert_armed_in_place Vector_default world0
  = (Throw elem_exn,
     mkVec (mkRaw 1 [Raw; Live (Probe 1 false); Raw; Raw] 4) 2,
     mkWorld [Alloc 1 4; Dtor 1 0; Dtor 1 2] 1)
  ∧ ¬ wf (after (call insert_armed_in_place Vector_default world0)).
Proof.
  split; [vm_compute; reflexivity|].
  intros [_ _ Hlive _]. destruct (Hlive 0) as [t Et]; [cbn; lia|].
  discriminate Et.
Qed.

(** ** The general theorems at concrete inputs *)

Ltac wf_concrete :=
  constructor; cbn;
  [ reflexivity
  | lia
  | intros i Hi; try lia;
    repeat (destruct i as [|i]; [first [lia|eexists; reflexivity]|try lia])
  | intros i Hi; try lia;
    repeat (destruct i as [|i]; [first [lia|reflexivity]|try lia]) ].

Lemma PushBack_appends_witness :
  wf (@Vector_default nat)
  ∧ ∃ v' w',
      call (EmplaceBack (Some 7)) Vector_default world0
      = (Ok (Ptr (buffer_ (data_ v')) 0), v', w')
      ∧ (copy_throws 7 = false → call (PushBack 7) Vector_default world0 = (Ok tt, v', w'))
      ∧ (move_throws 7 = false
         → call (PushBack_rvalue 7) Vector_default world0 = (Ok tt, v', w'))
      ∧ size_ v' = 1
      ∧ value_at v' 0 = Some 7
      ∧ (∀ i, i < 0 → value_at v' i = value_at Vector_default i)
      ∧ wf v'.
Proof.
  split; [wf_concrete|].
  apply (PushBack_appends (@Vector_default nat) world0 7).
  - wf_concrete.
  - intros _. split; [reflexivity|]. intros i t Hi. cbn in Hi. lia.
Defined.

Lemma Erase_shifts_left_witness :
  wf five_ints
  ∧ ∃ v' w',
      call (Erase (Ptr 1 2)) five_ints world0 = (Ok (Ptr (buffer_ (data_ v')) 2), v', w')
      ∧ size_ v' = 4
      ∧ (∀ i, i < 2 → value_at v' i = value_at five_ints i)
      ∧ (∀ i, 2 ≤ i < 4 → value_at v' i = value_at five_ints (S i))
      ∧ buffer_ (data_ v') = 1
      ∧ capacity v' = 5
      ∧ wf v'.
Proof.
  split; [wf_concrete|].
  apply (Erase_shifts_left five_ints world0 2).
  - wf_concrete.
  - cbn. lia.
  - reflexivity.
Defined.


Lemma Reserve_rolls_back_witness :
  fits (T:=probe) 8
  ∧ call (Reserve 8) three_probes world0
    = (Throw elem_exn, three_probes,
       mkWorld ([] ++ [Alloc 1 8] ++ (Dtor 1 <$> seq 0 (3 - 1)) ++ [Free 1]) 1)
  ∧ length (Dtor 1 <$> seq 0 (3 - 1)) = 3 - 1.
Proof.
  split; [by vm_compute|].
  apply (Reserve_rolls_back three_probes world0 8 3 (Probe 3 true)).
  - reflexivity.
  - cbn. lia.
  - cbn. lia.
  - by vm_compute.
  - reflexivity.
  - cbn. lia.
  - intros i Hi. cbn in Hi.
    repeat (destruct i as [|i]; [eexists; split; reflexivity|]). lia.
  - reflexivity.
  - reflexivity.
Defined.

(** * Further properties of the header *)

Section MoreCells.
Context {T : Type} `{Element T}.
Implicit Types (cs src dst : list (slot T)) (b : block).

Lemma leaked_all_raw b cs : ∀ i0,
  (∀ i, i < length cs → cs !! i = Some Raw) → leaked b i0 cs = [].
Proof.
  induction cs as [|c cs IH]; intros i0 Hraw; [done|].
  pose proof (Hraw 0 ltac:(cbn; lia)) as H0. cbn in H0. injection H0 as ->.
  cbn. apply IH. intros i Hi. apply (Hraw (S i)). cbn. lia.
Qed.

(** What [std::uninitialized_move_n] leaves in the source when no move
    constructor throws: moved-from objects in the range, the rest as it
    was. *)
Lemma uninitialized_move_cells_src first b d_first n : ∀ k src dst,
  (∀ i, k ≤ i < k + n →
     ∃ t, src !! (first + i) = Some (Live t) ∧ move_throws t = false) →
  (∀ i, k ≤ i < k + n → dst !! (d_first + i) = Some Raw) →
  let src' := (uninitialized_move_cells first b d_first k n src dst).1.1.2 in
  length src' = length src
  ∧ (∀ i t, k ≤ i < k + n → src !! (first + i) = Some (Live t) →
       src' !! (first + i) = Some (Live (moved_from t)))
  ∧ (∀ j, ¬ (first + k ≤ j < first + k + n) → src' !! j = src !! j).
Proof.
  induction n as [|n IH]; intros k src dst Hsrc Hdst; cbn [uninitialized_move_cells].
  - split_and!; [done|intros; lia|done].
  - destruct (Hsrc k) as (t & Et & Ec); [lia|]. rewrite Et, Ec.
    rewrite (construct_at_raw _ _ _ _ (Hdst k ltac:(lia))).
    specialize (IH (S k) (<[first + k:=Live (moved_from t)]> src)
                   (<[d_first + k:=Live t]> dst)).
    destruct (uninitialized_move_cells first b d_first (S k) n _ _)
      as [[[r src'] dst'] ev]. cbn [fst snd] in *.
    destruct IH as (Hlen & Hin & Hout).
    { intros i Hi. rewrite list_lookup_insert_ne by lia. apply Hsrc. lia. }
    { intros i Hi. rewrite list_lookup_insert_ne by lia. apply Hdst. lia. }
    split_and!.
    + by rewrite Hlen, length_insert.
    + intros i u Hi Eu. destruct (decide (i = k)) as [->|Hne].
      * rewrite Hout by lia. rewrite Et in Eu. injection Eu as <-.
        apply list_lookup_insert_eq. by eapply lookup_lt_Some.
      * apply Hin; [lia|]. by rewrite list_lookup_insert_ne by lia.
    + intros j Hj. rewrite Hout by lia. apply list_lookup_insert_ne. lia.
Qed.

(** [std::uninitialized_move_n] when the move of element [first + j]
    throws: the [j] objects built so far are destroyed, the destination is raw
    again, and the [j] sources already moved from stay moved-from. *)
Lemma uninitialized_move_cells_throw first b d_first dst0 j t :
  ∀ n k src dst, k ≤ j < k + n →
  src !! (first + j) = Some (Live t) → move_throws t = true →
  (∀ i, k ≤ i < j → ∃ u, src !! (first + i) = Some (Live u) ∧ move_throws u = false) →
  (∀ i, i < j → dst0 !! (d_first + i) = Some Raw) →
  (∀ i, d_first ≤ i < d_first + k → ∃ u, dst !! i = Some (Live u)) →
  (∀ i, ¬ (d_first ≤ i < d_first + k) → dst !! i = dst0 !! i) →
  ∃ src',
    uninitialized_move_cells first b d_first k n src dst
    = (Throw elem_exn, src', dst0, Dtor b <$> seq d_first j)
    ∧ length src' = length src
    ∧ (∀ i u, k ≤ i < j → src !! (first + i) = Some (Live u) →
         src' !! (first + i) = Some (Live (moved_from u)))
    ∧ (∀ i, ¬ (first + k ≤ i < first + j) → src' !! i = src !! i).
Proof.
  induction n as [|n IH]; intros k src dst Hk Et Ec Hsrc Hraw Hlive Hsame;
    cbn [uninitialized_move_cells]; [lia|].
  destruct (decide (k = j)) as [->|Hne].
  - rewrite Et, Ec.
    destruct (destroy_cells_live b d_first j dst Hlive) as (cs' & E & Hin & Hout).
    rewrite E. exists src. split_and!; [|done|intros; lia|done].
    do 2 f_equal. f_equal. apply list_eq. intros i.
    destruct (decide (d_first ≤ i < d_first + j)) as [Hi|Hi].
    + rewrite Hin by done. replace i with (d_first + (i - d_first)) by lia.
      symmetry. apply Hraw. lia.
    + rewrite Hout by done. by apply Hsame.
  - destruct (Hsrc k) as (u & Eu & Ecu); [lia|]. rewrite Eu, Ecu.
    assert (dst !! (d_first + k) = Some Raw) as Er.
    { rewrite Hsame by lia. apply Hraw. lia. }
    rewrite (construct_at_raw _ _ _ _ Er).
    destruct (IH (S k) (<[first + k:=Live (moved_from u)]> src)
                 (<[d_first + k:=Live u]> dst))
      as (src' & E & Hlen & Hin & Hout); [lia| | | |done| | |].
    + by rewrite list_lookup_insert_ne by lia.
    + done.
    + intros i Hi. rewrite list_lookup_insert_ne by lia. apply Hsrc. lia.
    + intros i Hi. destruct (decide (i = d_first + k)) as [->|Hn].
      * exists u. apply list_lookup_insert_eq. by eapply lookup_lt_Some.
      * rewrite list_lookup_insert_ne by lia. apply Hlive. lia.
    + intros i Hi. rewrite list_lookup_insert_ne by lia. apply Hsame. lia.
    + rewrite E. exists src'. split_and!; [done| | |].
      * by rewrite Hlen, length_insert.
      * intros i v Hi Ev. destruct (decide (i = k)) as [->|Hik].
        -- rewrite Hout by lia. rewrite Eu in Ev. injection Ev as <-.
           apply list_lookup_insert_eq. by eapply lookup_lt_Some.
        -- apply Hin; [lia|]. by rewrite list_lookup_insert_ne by lia.
      * intros i Hi. rewrite Hout by lia. apply list_lookup_insert_ne. lia.
Qed.

(** [std::uninitialized_value_construct_n] when [T()] does not throw. *)
Lemma uninitialized_value_construct_cells_ok b first n t0 : ∀ k dst,
  value_init = Some t0 →
  (∀ i, k ≤ i < k + n → dst !! (first + i) = Some Raw) →
  ∃ dst', uninitialized_value_construct_cells b first k n dst = (Ok tt, dst', [])
    ∧ length dst' = length dst
    ∧ (∀ i, k ≤ i < k + n → dst' !! (first + i) = Some (Live t0))
    ∧ (∀ j, ¬ (first + k ≤ j < first + k + n) → dst' !! j = dst !! j).
Proof.
  intros k dst Hv. revert k dst.
  induction n as [|n IH]; intros k dst Hdst; cbn [uninitialized_value_construct_cells].
  - exists dst. split_and!; [done|done|intros; lia|done].
  - rewrite Hv. rewrite (construct_at_raw _ _ _ _ (Hdst k ltac:(lia))).
    destruct (IH (S k) (<[first + k:=Live t0]> dst)) as (dst' & E & Hlen & Hin & Hout).
    { intros i Hi. rewrite list_lookup_insert_ne by lia. apply Hdst. lia. }
    rewrite E. exists dst'. split_and!; [done| | |].
    + by rewrite Hlen, length_insert.
    + intros i Hi. destruct (decide (i = k)) as [->|Hne].
      * rewrite Hout by lia. apply list_lookup_insert_eq.
        eapply lookup_lt_Some. apply Hdst. lia.
      * apply Hin. lia.
    + intros j Hj. rewrite Hout by lia. apply list_lookup_insert_ne. lia.
Qed.

(** [std::copy] of [n] live objects onto [n] live objects when no copy
    assignment throws. *)
Lemma copy_cells_ok src n : ∀ first d_first dst,
  (∀ i, i < n → ∃ t, src !! (first + i) = Some (Live t)
                     ∧ copy_assign_throws t = false) →
  (∀ i, i < n → ∃ u, dst !! (d_first + i) = Some (Live u)) →
  ∃ dst', copy_cells src first d_first n dst = (Ok tt, dst')
    ∧ length dst' = length dst
    ∧ (∀ i, i < n → dst' !! (d_first + i) = src !! (first + i))
    ∧ (∀ j, ¬ (d_first ≤ j < d_first + n) → dst' !! j = dst !! j).
Proof.
  induction n as [|n IH]; intros first d_first dst Hsrc Hdst; cbn [copy_cells].
  - exists dst. split_and!; [done|done|intros; lia|done].
  - destruct (Hsrc 0) as (t & Et & Ec); [lia|].
    destruct (Hdst 0) as (u & Eu); [lia|].
    rewrite Nat.add_0_r in Et, Eu. rewrite Et, Eu, Ec.
    destruct (IH (S first) (S d_first) (<[d_first:=Live t]> dst))
      as (dst' & E & Hlen & Hin & Hout).
    { intros i Hi. replace (S first + i) with (first + S i) by lia.
      apply Hsrc. lia. }
    { intros i Hi. rewrite list_lookup_insert_ne by lia.
      replace (S d_first + i) with (d_first + S i) by lia. apply Hdst. lia. }
    rewrite E. exists dst'. split_and!; [done| | |].
    + by rewrite Hlen, length_insert.
    + intros i Hi. destruct i as [|i].
      * rewrite !Nat.add_0_r. rewrite Hout by lia. rewrite Et.
        apply list_lookup_insert_eq. by eapply lookup_lt_Some.
      * replace (d_first + S i) with (S d_first + i) by lia.
        replace (first + S i) with (S first + i) by lia. apply Hin. lia.
    + intros j Hj. rewrite Hout by lia. apply list_lookup_insert_ne. lia.
Qed.

End MoreCells.

Section MoreRuns.
Context {T : Type} `{Element T}.
#[local] Abbreviation M := (M T).

Lemma log_Deallocate r (s : St T) :
  log (world (Deallocate r s).2)
  = log (world s)
    ++ (if buffer_ r =? 0 then []
        else leaked (buffer_ r) 0 (cells r) ++ [Free (buffer_ r)]).
Proof.
  unfold Deallocate. destruct (buffer_ r =? 0); cbn; [by rewrite app_nil_r|done].
Qed.

Lemma next_block_Deallocate r (s : St T) :
  next_block (world (Deallocate r s).2) = next_block (world s).
Proof. unfold Deallocate. by destruct (buffer_ r =? 0). Qed.

Lemma run_destroy_n_live m first n (s : St T) :
  (∀ i, first ≤ i < first + n → ∃ t, cells (get_mem m s) !! i = Some (Live t)) →
  ∃ cs', destroy_n m first n s
         = (Ok tt, add_log (Dtor (buffer_ (get_mem m s)) <$> seq first n)
                           (set_cells m cs' s))
    ∧ length cs' = length (cells (get_mem m s))
    ∧ (∀ i, first ≤ i < first + n → cs' !! i = Some Raw)
    ∧ (∀ i, ¬ (first ≤ i < first + n) → cs' !! i = cells (get_mem m s) !! i).
Proof.
  intros Hlive.
  destruct (destroy_cells_live (buffer_ (get_mem m s)) first n _ Hlive)
    as (cs' & E & Hin & Hout).
  exists cs'. unfold destroy_n. rewrite E. split_and!; try done.
  pose proof (destroy_cells_length (buffer_ (get_mem m s)) first n
                (cells (get_mem m s))) as Hl.
  by rewrite E in Hl.
Qed.

(** Relocation, with what it leaves in the old buffer. *)
Lemma run_relocate_full first n d_first (s : St T) :
  (∀ i, i < n → ∃ t, cells (data_ (this s)) !! (first + i) = Some (Live t)
        ∧ (if relocate_by_move then move_throws t else copy_throws t) = false) →
  (∀ i, i < n → cells (new_data s) !! (d_first + i) = Some Raw) →
  ∃ scs dcs,
    (if relocate_by_move
     then uninitialized_move_n Data first n NewData d_first
     else uninitialized_copy_n Data first n NewData d_first) s
    = (Ok tt, add_log [] (set_cells NewData dcs (set_cells Data scs s)))
    ∧ length dcs = length (cells (new_data s))
    ∧ (∀ i, i < n → dcs !! (d_first + i) = cells (data_ (this s)) !! (first + i))
    ∧ (∀ j, ¬ (d_first ≤ j < d_first + n) → dcs !! j = cells (new_data s) !! j)
    ∧ length scs = length (cells (data_ (this s)))
    ∧ (∀ i, i < n → ∃ u, scs !! (first + i) = Some (Live u))
    ∧ (∀ j, ¬ (first ≤ j < first + n) → scs !! j = cells (data_ (this s)) !! j).
Proof.
  intros Hsrc Hdst. destruct s as [[[b cs cap] sz] ot [nb ncs ncap] w].
  cbn [this data_ cells new_data] in *.
  destruct relocate_by_move.
  - destruct (uninitialized_move_cells_ok first nb d_first n 0 cs ncs)
      as (scs & dcs & E & Hlen & Hin & Hout).
    { intros i Hi. apply Hsrc. lia. }
    { intros i Hi. apply Hdst. lia. }
    destruct (uninitialized_move_cells_src first nb d_first n 0 cs ncs)
      as (Hsl & Hsin & Hsout).
    { intros i Hi. apply Hsrc. lia. }
    { intros i Hi. apply Hdst. lia. }
    rewrite E in Hsl, Hsin, Hsout. cbn [fst snd] in *.
    exists scs, dcs. unfold uninitialized_move_n.
    cbn [get_mem new_data this data_ cells buffer_]. rewrite E.
    split_and!; [done|done| | |done| |].
    + intros i Hi. apply Hin. lia.
    + intros j Hj. apply Hout. lia.
    + intros i Hi. destruct (Hsrc i Hi) as (t & Et & _).
      exists (moved_from t). apply Hsin; [lia|done].
    + intros j Hj. apply Hsout. lia.
  - destruct (uninitialized_copy_cells_ok cs first nb d_first n 0 ncs)
      as (dcs & E & Hlen & Hin & Hout).
    { intros i Hi. apply Hsrc. lia. }
    { intros i Hi. apply Hdst. lia. }
    exists cs, dcs. unfold uninitialized_copy_n.
    cbn [get_mem new_data this data_ cells buffer_]. rewrite E.
    split_and!; [done|done| | |done| |done].
    + intros i Hi. apply Hin. lia.
    + intros j Hj. apply Hout. lia.
    + intros i Hi. destruct (Hsrc i Hi) as (t & Et & _). eauto.
Qed.

(** *** [PopBack] *)

Lemma PopBack_run (s : St T) t :
  0 < size_ (this s) →
  cells (data_ (this s)) !! (size_ (this s) - 1) = Some (Live t) →
  PopBack s
  = (Ok tt,
     set_size (size_ (this s) - 1)
       (add_log [Dtor (buffer_ (data_ (this s))) (size_ (this s) - 1)]
          (set_cells Data (<[size_ (this s) - 1:=Raw]> (cells (data_ (this s)))) s))).
Proof.
  intros Hsz Et. unfold PopBack. rewrite bind_Size.
  rewrite (bind_eq (assert _) _ s tt s).
  2:{ apply run_assert. apply negb_true_iff, Nat.eqb_neq. lia. }
  rewrite (bind_eq _ _ s tt
             (add_log [Dtor (buffer_ (data_ (this s))) (size_ (this s) - 1)]
                (set_cells Data (<[size_ (this s) - 1:=Raw]> (cells (data_ (this s)))) s))).
  2:{ unfold destroy_n. cbn [get_mem destroy_cells].
      by rewrite (destroy_at_live _ _ _ _ Et). }
  unfold decr_size, modify. by destruct s as [[[b cs cap] sz] ot nd w].
Qed.

(** *** [Reserve], with the trace *)

Lemma Reserve_grow_trace (s : St T) c :
  wf (this s) → capacity (this s) < c → alloc_fails c = false →
  relocatable (this s) →
  ∃ s', Reserve c s = (Ok tt, s')
    ∧ other s' = other s ∧ new_data s' = new_data s
    ∧ size_ (this s') = size_ (this s)
    ∧ capacity (this s') = c
    ∧ buffer_ (data_ (this s')) = S (next_block (world s))
    ∧ wf (this s')
    ∧ (∀ i, i < size_ (this s) →
         cells (data_ (this s')) !! i = cells (data_ (this s)) !! i)
    ∧ world s'
      = mkWorld (log (world s)
                 ++ [Alloc (S (next_block (world s))) c]
                 ++ (Dtor (buffer_ (data_ (this s))) <$> seq 0 (size_ (this s)))
                 ++ (if buffer_ (data_ (this s)) =? 0 then []
                     else [Free (buffer_ (data_ (this s)))]))
                (S (next_block (world s))).
Proof.
  intros [Hlen Hsz Hlive Hraw] Hc Ha Hrel.
  destruct s as [[[b cs cap] sz] ot nd w].
  unfold capacity, relocatable in *.
  cbn [this data_ size_ cells capacity_ buffer_ other new_data world] in *.
  set (nb := S (next_block w)).
  set (s1 := mkSt (mkVec (mkRaw b cs cap) sz) ot (mkRaw nb (replicate c Raw) c)
                  (mkWorld (log w ++ [Alloc nb c]) nb)).
  destruct (run_relocate_full 0 sz 0 s1)
    as (scs & dcs & Er & Hdl & Hin & Hout & Hsl & Hslive & Hsout).
  { intros i Hi. destruct (Hlive i Hi) as [t Et]. exists t. split; [done|].
    by apply (Hrel i). }
  { intros i Hi. apply lookup_replicate_2. lia. }
  cbn [s1 this data_ cells new_data Nat.add] in Hdl, Hin, Hout, Hsl, Hslive, Hsout.
  rewrite length_replicate in Hdl.
  set (s2 := add_log [] (set_cells NewData dcs (set_cells Data scs s1))) in *.
  set (s3 := set_mem Data (new_data s2) (set_mem NewData (data_ (this s2)) s2)).
  destruct (run_destroy_n_live NewData 0 sz s3) as (cs4 & Ed & Hl4 & H4in & H4out).
  { intros i Hi. apply Hslive. lia. }
  cbn [s3 s2 s1 get_mem set_mem set_cells add_log new_data this data_ cells buffer_]
    in Ed, Hl4, H4in, H4out.
  set (s4 := add_log (Dtor b <$> seq 0 sz) (set_cells NewData cs4 s3)) in *.
  assert (Reserve c (mkSt (mkVec (mkRaw b cs cap) sz) ot nd w)
          = (Ok tt, set_mem NewData nd (Deallocate (new_data s4) s4).2)) as Erun.
  { unfold Reserve. rewrite bind_Capacity. cbn [this data_ capacity_].
    apply Nat.leb_gt in Hc as Hc'. rewrite Hc'.
    apply (run_with_new_data c _ (mkSt (mkVec (mkRaw b cs cap) sz) ot nd w));
      [lia|done|].
    fold nb. fold s1.
    rewrite bind_Size. cbn [s1 this size_]. fold s1.
    rewrite (bind_eq _ _ _ _ _ Er).
    unfold Swap_data_new. rewrite bind_modify.
    exact Ed. }
  eexists. split; [exact Erun|].
  cbn [this other world set_mem]. rewrite this_Deallocate, other_Deallocate.
  split_and!; try done.
  - constructor; unfold capacity; cbn.
    + done.
    + lia.
    + intros i Hi. rewrite (Hin i Hi). by apply Hlive.
    + intros i Hi. rewrite Hout by lia. apply lookup_replicate_2. lia.
  - pose proof (log_Deallocate (new_data s4) s4) as Hlog.
    pose proof (next_block_Deallocate (new_data s4) s4) as Hnb.
    destruct (world (Deallocate (new_data s4) s4).2) as [l' n'].
    cbn [log next_block] in Hlog, Hnb. rewrite Hlog, Hnb. cbn.
    f_equal. rewrite (leaked_all_raw b cs4).
    + rewrite app_nil_r, <- !app_assoc. done.
    + intros i Hi. destruct (decide (i < sz)) as [Hlt|Hge].
      * apply H4in. lia.
      * rewrite H4out, Hsout by lia. apply Hraw. lia.
Qed.

End MoreRuns.

Section Basics.
Context {T : Type} `{Element T}.
#[local] Abbreviation M := (M T).

(** X1.  [PopBack] stops at its assertion on an empty sequence and changes
    nothing.  On a well-formed non-empty one it runs exactly one destructor,
    on the last element, makes the size one smaller, keeps the buffer, the
    capacity and the values of the other elements, and allocates nothing. *)
Theorem PopBack_removes_last (v : Vector T) (w : World) :
  wf v →
  (size_ v = 0 → call PopBack v w = (Abort, v, w))
  ∧ (0 < size_ v →
     ∃ v', call PopBack v w
           = (Ok tt, v',
              mkWorld (log w ++ [Dtor (buffer_ (data_ v)) (size_ v - 1)])
                      (next_block w))
       ∧ size_ v' = size_ v - 1
       ∧ capacity v' = capacity v
       ∧ buffer_ (data_ v') = buffer_ (data_ v)
       ∧ (∀ i, i < size_ v - 1 → value_at v' i = value_at v i)
       ∧ wf v').
Proof.
  intros [Hlen Hsz Hlive Hraw]. split.
  - intros E0. destruct v as [d sz]. cbn in E0. subst sz.
    unfold call. by destruct w.
  - intros Hpos. destruct (Hlive (size_ v - 1)) as [t Et]; [lia|].
    destruct v as [[b cs cap] sz]. unfold capacity, value_at in *.
    cbn [data_ size_ cells capacity_ buffer_] in *.
    eexists. unfold call.
    rewrite (PopBack_run (mkSt (mkVec (mkRaw b cs cap) sz) Vector_default
                               RawMemory_default w) t Hpos Et).
    cbn. split_and!; try done.
    + intros i Hi. cbn. by rewrite list_lookup_insert_ne by lia.
    + constructor; unfold capacity; cbn.
      * by rewrite length_insert.
      * lia.
      * intros i Hi. rewrite list_lookup_insert_ne by lia. apply Hlive. lia.
      * intros i Hi. destruct (decide (i = sz - 1)) as [->|Hne].
        -- apply list_lookup_insert_eq. lia.
        -- rewrite list_lookup_insert_ne by lia. apply Hraw. lia.
Qed.

(** X2.  [Reserve (c)] on a well-formed sequence, allocation and relocation
    not throwing.  With [c <= capacity] nothing changes, not even the trace.
    Otherwise, for a [c] whose byte count does not wrap, the elements are in
    a new block of capacity exactly [c] with their values and the size
    unchanged, every element of the old block has had its destructor run
    exactly once, and the old block has been freed. *)
Theorem Reserve_relocates (v : Vector T) (w : World) (c : nat) :
  wf v →
  (capacity v < c → fits (T:=T) c ∧ alloc_fails c = false ∧ relocatable v) →
  (c ≤ capacity v → call (Reserve c) v w = (Ok tt, v, w))
  ∧ (capacity v < c →
     ∃ v', call (Reserve c) v w
           = (Ok tt, v',
              mkWorld (log w
                       ++ [Alloc (S (next_block w)) c]
                       ++ (Dtor (buffer_ (data_ v)) <$> seq 0 (size_ v))
                       ++ (if buffer_ (data_ v) =? 0 then []
                           else [Free (buffer_ (data_ v))]))
                      (S (next_block w)))
       ∧ size_ v' = size_ v
       ∧ capacity v' = c
       ∧ buffer_ (data_ v') = S (next_block w)
       ∧ (∀ i, i < size_ v → value_at v' i = value_at v i)
       ∧ wf v').
Proof.
  intros Hwf Hgrow. split.
  - intros Hc. unfold call.
    by rewrite (Reserve_noop (mkSt v Vector_default RawMemory_default w) c Hc).
  - intros Hc. destruct (Hgrow Hc) as (_ & Ha & Hrel).
    destruct (Reserve_grow_trace (mkSt v Vector_default RawMemory_default w) c
                Hwf Hc Ha Hrel)
      as (s' & Er & _ & _ & Hsz & Hcap & Hb & Hwf' & Hvals & Hw).
    cbn [this world] in *.
    exists (this s'). unfold call. rewrite Er, Hw. split_and!; try done.
    intros i Hi. unfold value_at. by rewrite Hvals.
Qed.

(** X3.  The destructor of a well-formed sequence runs the destructor of
    each of its [size] elements exactly once, in slots [0 .. size-1], then
    frees the buffer if there is one; it touches no other slot and loses no
    object. *)
Theorem destructor_destroys_live_range (v : Vector T) (w : World) :
  wf v →
  let events := (Dtor (buffer_ (data_ v)) <$> seq 0 (size_ v))
                ++ (if buffer_ (data_ v) =? 0 then []
                    else [Free (buffer_ (data_ v))]) in
  (call Vector_dtor v w).1.1 = Ok tt
  ∧ (call Vector_dtor v w).2 = mkWorld (log w ++ events) (next_block w)
  ∧ lifetime_clean events = true.
Proof.
  intros [Hlen Hsz Hlive Hraw] events. unfold capacity in *.
  set (s0 := mkSt v Vector_default RawMemory_default w).
  destruct (run_destroy_n_live Data 0 (size_ v) s0) as (cs' & Ed & Hl & Hin & Hout).
  { intros i Hi. apply Hlive. lia. }
  cbn [s0 get_mem this] in Ed, Hl, Hin, Hout.
  assert (leaked (buffer_ (data_ v)) 0 cs' = []) as Hleak.
  { apply leaked_all_raw. intros i Hi. destruct (decide (i < size_ v)).
    - apply Hin. lia.
    - rewrite Hout by lia. apply Hraw. lia. }
  assert (call Vector_dtor v w
          = (Ok tt,
             this (Deallocate (mkRaw (buffer_ (data_ v)) cs' (capacity_ (data_ v)))
                     (add_log (Dtor (buffer_ (data_ v)) <$> seq 0 (size_ v))
                        (set_cells Data cs' s0))).2,
             mkWorld (log w ++ events) (next_block w))) as Ecall.
  { unfold call, Vector_dtor. fold s0. rewrite bind_Size.
    cbn [s0 this]. fold s0. rewrite (bind_eq _ _ _ _ _ Ed), bind_gets.
    unfold Deallocate, events.
    destruct v as [[b cs cap] sz], w as [l nb].
    cbn [get_mem set_cells set_mem add_log this data_ buffer_ cells capacity_
         size_ s0 world log next_block] in *.
    destruct (b =? 0); cbn; [by rewrite app_nil_r|].
    rewrite Hleak, <- app_assoc. done. }
  rewrite Ecall. split_and!; [done|done|].
  - unfold events, lifetime_clean. rewrite forallb_app. apply andb_true_iff. split.
    + apply forallb_forall. intros e He. apply in_map_iff in He as (i & <- & _).
      done.
    + by destruct (buffer_ _ =? 0).
Qed.

(** X4.  Move construction takes the buffer, the capacity and the size of
    the source as they are and leaves the source empty (null buffer,
    capacity 0, size 0); it allocates nothing and runs no destructor.
    Destroying the emptied source afterwards adds nothing to the trace. *)
Theorem move_constructor_steals (v0 o : Vector T) (w : World) :
  call2 Vector_move v0 o w = (Ok tt, o, Vector_default, w)
  ∧ (call Vector_dtor (call2 Vector_move v0 o w).1.2 w).2 = w.
Proof.
  assert (call2 Vector_move v0 o w = (Ok tt, o, Vector_default, w)) as E.
  { destruct o as [[b cs cap] sz], w as [l nb]. reflexivity. }
  split; [exact E|]. rewrite E. destruct w as [l nb].
  unfold call. cbn. by rewrite app_nil_r.
Qed.

(** X5.  [Swap] exchanges buffer, capacity and size of the two sequences,
    allocates nothing and runs no destructor; move assignment does the same;
    swapping twice gives back both sequences. *)
Theorem Swap_exchanges (v o : Vector T) (w : World) :
  call2 Swap v o w = (Ok tt, o, v, w)
  ∧ call2 move_assign v o w = (Ok tt, o, v, w)
  ∧ call2 (Swap;; Swap) v o w = (Ok tt, v, o, w).
Proof.
  destruct v as [[b cs cap] sz], o as [[b' cs' cap'] sz'], w as [l nb].
  split_and!; reflexivity.
Qed.

(** X6.  A cursor into the buffer is accepted by [Emplace] only at an
    offset of at most [size], and by [Erase] only below [size]: past that
    the call stops at its assertion with nothing changed (so [Erase] on an
    empty sequence always stops).  [Emplace] at the end cursor is
    [EmplaceBack]. *)
Theorem cursor_checks (v : Vector T) (w : World) (k : nat) (c : option T) :
  (size_ v < k →
     call (Emplace (Ptr (buffer_ (data_ v)) k) c) v w = (Abort, v, w))
  ∧ (size_ v ≤ k →
     call (Erase (Ptr (buffer_ (data_ v)) k)) v w = (Abort, v, w))
  ∧ call (Emplace (Ptr (buffer_ (data_ v)) (size_ v)) c) v w
    = call (EmplaceBack c) v w.
Proof.
  set (s0 := mkSt v Vector_default RawMemory_default w).
  assert (this s0 = v ∧ world s0 = w) as [Hth Hw] by done.
  split_and!.
  - intros Ho. unfold call, Emplace. fold s0.
    rewrite (bind_eq begin _ s0 (Ptr (buffer_ (data_ v)) 0) s0 eq_refl).
    rewrite (bind_eq _ _ _ _ _ (run_end_ s0)). cbn [s0 this]. fold s0.
    assert ((ptr_leb (Ptr (buffer_ (data_ v)) 0) (Ptr (buffer_ (data_ v)) k)
             && ptr_leb (Ptr (buffer_ (data_ v)) k)
                        (Ptr (buffer_ (data_ v)) (size_ v))) = false) as ->.
    { unfold ptr_leb. cbn [blk off].
      rewrite (proj2 (Nat.leb_gt k _) Ho), andb_false_r.
      apply andb_false_r. }
    done.
  - intros Ho. unfold call, Erase. fold s0.
    rewrite (bind_eq begin _ s0 (Ptr (buffer_ (data_ v)) 0) s0 eq_refl).
    rewrite (bind_eq _ _ _ _ _ (run_end_ s0)). cbn [s0 this]. fold s0.
    assert ((ptr_leb (Ptr (buffer_ (data_ v)) 0) (Ptr (buffer_ (data_ v)) k)
             && ptr_ltb (Ptr (buffer_ (data_ v)) k)
                        (Ptr (buffer_ (data_ v)) (size_ v))) = false) as ->.
    { unfold ptr_leb, ptr_ltb. cbn [blk off].
      rewrite (proj2 (Nat.ltb_ge k _) Ho), andb_false_r.
      apply andb_false_r. }
    done.
  - unfold call, Emplace. fold s0.
    rewrite (bind_eq begin _ s0 (Ptr (buffer_ (data_ v)) 0) s0 eq_refl).
    rewrite (bind_eq _ _ _ _ _ (run_end_ s0)). cbn [s0 this]. fold s0.
    rewrite (bind_eq (assert _) _ s0 tt s0).
    2:{ apply run_assert. unfold ptr_leb. cbn [blk off].
        rewrite Nat.eqb_refl, Nat.leb_refl. reflexivity. }
    rewrite bind_Size. cbn [s0 this off]. fold s0.
    by rewrite Nat.sub_0_r, Nat.eqb_refl.
Qed.

End Basics.

Section ResizeAndSized.
Context {T : Type} `{Element T}.
#[local] Abbreviation M := (M T).

Lemma run_value_construct first n t0 (s : St T) :
  value_init = Some t0 →
  (∀ i, i < n → cells (data_ (this s)) !! (first + i) = Some Raw) →
  ∃ cs', uninitialized_value_construct_n Data first n s
         = (Ok tt, add_log [] (set_cells Data cs' s))
    ∧ length cs' = length (cells (data_ (this s)))
    ∧ (∀ i, i < n → cs' !! (first + i) = Some (Live t0))
    ∧ (∀ j, ¬ (first ≤ j < first + n) → cs' !! j = cells (data_ (this s)) !! j).
Proof.
  intros Hv Hraw.
  destruct (uninitialized_value_construct_cells_ok (buffer_ (data_ (this s)))
              first n t0 0 (cells (data_ (this s))) Hv)
    as (cs' & E & Hlen & Hin & Hout).
  { intros i Hi. apply Hraw. lia. }
  exists cs'. unfold uninitialized_value_construct_n. cbn [get_mem]. rewrite E.
  split_and!; [done|done| |].
  - intros i Hi. apply Hin. lia.
  - intros j Hj. apply Hout. lia.
Qed.

Lemma run_value_construct_throws first n (s : St T) :
  value_init = None → 0 < n →
  uninitialized_value_construct_n Data first n s
  = (Throw elem_exn, add_log [] (set_cells Data (cells (data_ (this s))) s)).
Proof.
  intros Hv Hn. unfold uninitialized_value_construct_n. cbn [get_mem].
  destruct n as [|n]; [lia|]. cbn [uninitialized_value_construct_cells].
  by rewrite Hv.
Qed.

(** What [Resize] does before it constructs anything: [Reserve] if the
    capacity is too small. *)
Lemma Resize_reserve_run (s : St T) n :
  wf (this s) →
  (capacity (this s) < n → alloc_fails n = false ∧ relocatable (this s)) →
  ∃ s1, (if capacity (this s) <? n then Reserve n else ret tt) s = (Ok tt, s1)
    ∧ other s1 = other s ∧ new_data s1 = new_data s
    ∧ size_ (this s1) = size_ (this s)
    ∧ capacity (this s1) = max (capacity (this s)) n
    ∧ wf (this s1)
    ∧ (∀ i, i < size_ (this s) →
         cells (data_ (this s1)) !! i = cells (data_ (this s)) !! i).
Proof.
  intros Hwf Hgrow.
  destruct (capacity (this s) <? n) eqn:E.
  - apply Nat.ltb_lt in E. destruct (Hgrow E) as [Ha Hrel].
    destruct (Reserve_grow s n Hwf E Ha Hrel)
      as (s1 & Er & Hot & Hnd & Hsz & Hcap & _ & Hwf1 & Hv).
    exists s1. split_and!; try done. lia.
  - apply Nat.ltb_ge in E. exists s. split_and!; try done. lia.
Qed.

(** X7.  [Resize (n)] with [n <= size] on a well-formed sequence runs the
    destructors of the elements [n .. size-1], each once, keeps the first
    [n] values, the buffer and the capacity, and sets the size to [n]; it
    allocates nothing. *)
Theorem Resize_shrinks (v : Vector T) (w : World) (n : nat) :
  wf v → n ≤ size_ v →
  ∃ v', call (Resize n) v w
        = (Ok tt, v',
           mkWorld (log w ++ (Dtor (buffer_ (data_ v)) <$> seq n (size_ v - n)))
                   (next_block w))
    ∧ size_ v' = n
    ∧ capacity v' = capacity v
    ∧ buffer_ (data_ v') = buffer_ (data_ v)
    ∧ (∀ i, i < n → value_at v' i = value_at v i)
    ∧ wf v'.
Proof.
  intros [Hlen Hsz Hlive Hraw] Hn.
  set (s0 := mkSt v Vector_default RawMemory_default w).
  destruct (run_destroy_n_live Data n (size_ v - n) s0) as (cs' & Ed & Hl & Hin & Hout).
  { intros i Hi. apply Hlive. lia. }
  cbn [s0 get_mem this] in Ed, Hl, Hin, Hout.
  eexists. split.
  { unfold call, Resize. fold s0. rewrite bind_Size. cbn [s0 this]. fold s0.
    rewrite (proj2 (Nat.ltb_ge (size_ v) n)) by lia.
    rewrite (bind_eq _ _ _ _ _ Ed). unfold modify.
    destruct v as [[b cs cap] sz], w as [l nb]. reflexivity. }
  unfold capacity, value_at in *. destruct v as [[b cs cap] sz].
  cbn [this data_ size_ cells capacity_ buffer_ set_size add_log set_cells
       set_mem get_mem s0] in *.
  split_and!; try done.
  - intros i Hi. by rewrite Hout by lia.
  - constructor; unfold capacity; cbn.
    + lia.
    + lia.
    + intros i Hi. rewrite Hout by lia. apply Hlive. lia.
    + intros i Hi. destruct (decide (i < sz)) as [Hlt|Hge].
      * apply Hin. lia.
      * rewrite Hout by lia. apply Hraw. lia.
Qed.

(** X8.  [Resize (n)] with [n > size] on a well-formed sequence, the
    allocation and relocation that [Reserve] may need not throwing and the
    byte count of [n] not wrapping.  The capacity becomes [max capacity n] and the old values are kept in either
    case.  If [T()] does not throw, the size becomes [n] and the new
    elements [size .. n-1] are value-initialized.  If [T()] throws, the
    exception leaves [Resize] with the size unchanged, but the capacity
    stays grown. *)
Theorem Resize_grows (v : Vector T) (w : World) (n : nat) :
  wf v → size_ v < n →
  (capacity v < n → fits (T:=T) n ∧ alloc_fails n = false ∧ relocatable v) →
  ∃ v' w',
    call (Resize n) v w
    = (match value_init with Some _ => Ok tt | None => Throw elem_exn end, v', w')
    ∧ capacity v' = max (capacity v) n
    ∧ (∀ i, i < size_ v → value_at v' i = value_at v i)
    ∧ size_ v' = (match value_init with Some _ => n | None => size_ v end)
    ∧ (∀ i, size_ v ≤ i < n →
         value_at v' i = value_init)
    ∧ wf v'.
Proof.
  intros Hwf Hn Hfit.
  assert (capacity v < n → alloc_fails n = false ∧ relocatable v) as Hgrow.
  { intros Hc. by destruct (Hfit Hc) as (_ & Ha & Hrel). }
  clear Hfit.
  set (s0 := mkSt v Vector_default RawMemory_default w).
  destruct (Resize_reserve_run s0 n Hwf Hgrow)
    as (s1 & Er & _ & _ & Hsz1 & Hcap1 & Hwf1 & Hv1).
  pose proof Hwf1 as [Hlen1 Hle1 Hlive1 Hraw1].
  cbn [s0 this] in *. unfold capacity, value_at in *.
  assert (∀ i, i < n - size_ v →
            cells (data_ (this s1)) !! (size_ v + i) = Some Raw) as Hr.
  { intros i Hi. apply Hraw1. lia. }
  assert (∀ k : M unit, (sz ← Size;
                (if sz <? n then
                   cap ← Capacity;
                   (if cap <? n then Reserve n else ret tt);;
                   uninitialized_value_construct_n Data sz (n - sz)
                 else destroy_n Data n (sz - n));;
                k) s0
               = (uninitialized_value_construct_n Data (size_ v) (n - size_ v);; k) s1)
    as Hhead.
  { intros k. rewrite bind_Size. cbn [s0 this]. fold s0.
    rewrite (proj2 (Nat.ltb_lt (size_ v) n)) by lia.
    unfold bind at 1. unfold bind at 1. unfold Capacity, gets at 1.
    cbn [s0 this]. fold s0. unfold bind at 1. rewrite Er. reflexivity. }
  destruct value_init as [t0|] eqn:Hvi.
  - destruct (run_value_construct (size_ v) (n - size_ v) t0 s1 Hvi Hr)
      as (cs' & Ec & Hl & Hin & Hout).
    exists (this (set_size n (add_log [] (set_cells Data cs' s1)))),
           (world (set_size n (add_log [] (set_cells Data cs' s1)))).
    split.
    { unfold call, Resize. fold s0. rewrite Hhead.
      rewrite (bind_eq _ _ _ _ _ Ec). reflexivity. }
    cbn [this set_size add_log set_cells set_mem get_mem data_ size_ cells
         capacity_]. split_and!; try done.
    + intros i Hi. rewrite Hout by lia. by rewrite Hv1.
    + intros i Hi. replace i with (size_ v + (i - size_ v)) by lia.
      rewrite Hin by lia. done.
    + constructor; unfold capacity; cbn.
      * lia.
      * lia.
      * intros i Hi. destruct (decide (i < size_ v)) as [Hlt|Hge].
        -- rewrite Hout by lia. apply Hlive1. lia.
        -- replace i with (size_ v + (i - size_ v)) by lia.
           rewrite Hin by lia. eauto.
      * intros i Hi. rewrite Hout by lia. apply Hraw1. lia.
  - exists (this s1), (world (add_log [] s1)). split.
    { unfold call, Resize. fold s0. rewrite Hhead.
      erewrite bind_throw; [|by apply run_value_construct_throws; [done|lia]].
      destruct s1 as [[[b1 cs1 cap1] sz1] ot1 nd1 w1]. reflexivity. }
    split_and!; try done.
    + intros i Hi. by rewrite Hv1.
    + intros i Hi. by rewrite Hraw1 by lia.
Qed.

(** X9.  The sized constructor [Vector (n)], for an [n] whose byte count
    does not wrap, with the allocation not failing.  If [T()] does not throw, the result is a well-formed sequence
    of size and capacity [n] whose elements are all value-initialized.  If
    [T()] throws (and [n > 0]), the exception leaves the constructor, nothing
    has been constructed, and the buffer has been given back. *)
Theorem sized_constructor (v0 : Vector T) (w : World) (n : nat) :
  fits (T:=T) n →
  (n ≠ 0 → alloc_fails n = false) →
  (∀ t0, value_init = Some t0 →
     ∃ v' w', call (Vector_sized n) v0 w = (Ok tt, v', w')
       ∧ size_ v' = n ∧ capacity v' = n
       ∧ (∀ i, i < n → value_at v' i = Some t0)
       ∧ wf v')
  ∧ (value_init = None → 0 < n →
     call (Vector_sized n) v0 w
     = (Throw elem_exn, Vector_default,
        mkWorld (log w ++ [Alloc (S (next_block w)) n; Free (S (next_block w))])
                (S (next_block w)))).
Proof.
  intros _ Ha. split.
  - intros t0 Hvi.
    destruct (run_RawMemory_new n (mkSt v0 Vector_default RawMemory_default w) Ha)
      as (b & w' & En).
    set (s1 := set_this (mkVec (mkRaw b (replicate n Raw) n) n)
                 (mkSt v0 Vector_default RawMemory_default w')).
    destruct (run_value_construct 0 n t0 s1 Hvi) as (cs' & Ec & Hl & Hin & Hout).
    { intros i Hi. cbn. apply lookup_replicate_2. lia. }
    cbn [s1 this set_this data_ cells Nat.add] in Hl, Hin, Hout.
    rewrite length_replicate in Hl.
    eexists _, _. split.
    { unfold call, Vector_sized. rewrite (bind_eq _ _ _ _ _ En), bind_modify.
      cbn [this other new_data world]. fold s1.
      unfold unwind_members. rewrite (try_catch_ok _ _ _ _ _ Ec). reflexivity. }
    unfold value_at, capacity. cbn. split_and!; try done.
    + intros i Hi. by rewrite Hin.
    + constructor; unfold capacity; cbn; try done.
      * intros i Hi. rewrite Hin by lia. eauto.
      * intros i Hi. lia.
  - intros Hvi Hn. unfold call, Vector_sized, RawMemory_new, Allocate.
    unfold bind at 2. rewrite (proj2 (Nat.eqb_neq n 0)) by lia.
    rewrite Ha by lia. unfold bind at 1. cbn [ret fst snd].
    rewrite bind_modify. unfold unwind_members, try_catch.
    rewrite run_value_construct_throws by done.
    destruct w as [l nb]. cbn. rewrite leaked_replicate_raw.
    cbn. by rewrite <- !app_assoc.
Qed.

End ResizeAndSized.

Section CopyAssign.
Context {T : Type} `{Element T}.
Implicit Types (s : St T) (v rhs : Vector T) (w : World).

Lemma Vector_dtor_ok s :
  ∃ s', Vector_dtor s = (Ok tt, s') ∧ other s' = other s.
Proof.
  unfold Vector_dtor. rewrite bind_Size.
  destruct (destroy_n_run Data 0 (size_ (this s)) s) as (cs & ev & E).
  rewrite (bind_eq _ _ _ _ _ E), bind_gets.
  unfold Deallocate. destruct (buffer_ _ =? 0); eexists; (split; [reflexivity|done]).
Qed.

Lemma run_std_copy first n d_first s :
  (∀ i, i < n → ∃ t, cells (data_ (other s)) !! (first + i) = Some (Live t)
                     ∧ copy_assign_throws t = false) →
  (∀ i, i < n → ∃ u, cells (data_ (this s)) !! (d_first + i) = Some (Live u)) →
  ∃ cs', std_copy OtherData first n Data d_first s = (Ok tt, set_cells Data cs' s)
    ∧ length cs' = length (cells (data_ (this s)))
    ∧ (∀ i, i < n → cs' !! (d_first + i) = cells (data_ (other s)) !! (first + i))
    ∧ (∀ j, ¬ (d_first ≤ j < d_first + n) → cs' !! j = cells (data_ (this s)) !! j).
Proof.
  intros Hsrc Hdst.
  destruct (copy_cells_ok _ n first d_first _ Hsrc Hdst) as (cs' & E & Hl & Hin & Hout).
  exists cs'. unfold std_copy. cbn [get_mem]. by rewrite E.
Qed.

Lemma run_uninitialized_copy first n d_first s :
  (∀ i, i < n → ∃ t, cells (data_ (other s)) !! (first + i) = Some (Live t)
                     ∧ copy_throws t = false) →
  (∀ i, i < n → cells (data_ (this s)) !! (d_first + i) = Some Raw) →
  ∃ cs', uninitialized_copy_n OtherData first n Data d_first s
         = (Ok tt, add_log [] (set_cells Data cs' s))
    ∧ length cs' = length (cells (data_ (this s)))
    ∧ (∀ i, i < n → cs' !! (d_first + i) = cells (data_ (other s)) !! (first + i))
    ∧ (∀ j, ¬ (d_first ≤ j < d_first + n) → cs' !! j = cells (data_ (this s)) !! j).
Proof.
  intros Hsrc Hdst.
  destruct (uninitialized_copy_cells_ok (cells (data_ (other s))) first
              (buffer_ (data_ (this s))) d_first n 0 (cells (data_ (this s))))
    as (cs' & E & Hl & Hin & Hout).
  { intros i Hi. apply Hsrc. lia. }
  { intros i Hi. apply Hdst. lia. }
  exists cs'. unfold uninitialized_copy_n. cbn [get_mem]. rewrite E.
  split_and!; try done.
  - intros i Hi. apply Hin. lia.
  - intros j Hj. apply Hout. lia.
Qed.

(** What [operator=(const Vector&)] does before it sets the size. *)
Lemma copy_assign_run v rhs w :
  wf v → wf rhs →
  (capacity v < size_ rhs → alloc_fails (size_ rhs) = false) →
  (∀ i t, i < size_ rhs → cells (data_ rhs) !! i = Some (Live t) →
     copy_throws t = false ∧ copy_assign_throws t = false) →
  ∃ s', copy_assign (mkSt v rhs RawMemory_default w) = (Ok tt, s')
    ∧ other s' = rhs
    ∧ size_ (this s') = size_ rhs
    ∧ capacity (this s')
      = (if capacity v <? size_ rhs then size_ rhs else capacity v)
    ∧ (∀ i, i < size_ rhs →
         cells (data_ (this s')) !! i = cells (data_ rhs) !! i)
    ∧ wf (this s').
Proof.
  intros Hwf Hwfr Ha Hnt.
  pose proof Hwf as [Hlen Hsz Hlive Hraw].
  pose proof Hwfr as [Hrlen Hrsz Hrlive Hrraw].
  unfold capacity in *.
  set (s0 := mkSt v rhs RawMemory_default w).
  unfold copy_assign. rewrite bind_gets, bind_Capacity. cbn [s0 this other]. fold s0.
  destruct (capacity_ (data_ v) <? size_ rhs) eqn:Ecap.
  - apply Nat.ltb_lt in Ecap.
    destruct (Vector_copy_run (mkSt Vector_default rhs RawMemory_default w))
      as (s1 & E1 & Ho1 & Hsz1 & Hcap1 & Hv1 & Hwf1); cbn [other].
    { done. }
    { intros _. apply Ha. lia. }
    { intros i t Hi Et. by apply (Hnt i t). }
    cbn [other] in *.
    destruct (Vector_dtor_ok (mkSt (mkVec (data_ v) (size_ v)) rhs RawMemory_default
                                (world s1))) as (s2 & E2 & Ho2).
    cbn [other] in Ho2.
    eexists. split.
    { unfold bind at 2. unfold bind at 1. unfold in_object at 1.
      cbn [s0 this other new_data world]. rewrite E1.
      unfold bind at 1. unfold with_arg, Swap, bind, modify.
      cbn [this other new_data world set_mem set_size set_other_size data_ size_
           snd fst]. unfold in_object. cbn [this other new_data world].
      rewrite Ho1, E2. cbn [ret]. reflexivity. }
    cbn [this other set_size data_ size_ capacity_ cells].
    split_and!; try done.
    destruct Hwf1 as [Hl1 Hs1 Hlive1 Hraw1]. unfold capacity in *.
    constructor; unfold capacity; cbn; try done.
    + lia.
    + intros i Hi. apply Hlive1. lia.
    + intros i Hi. lia.
  - apply Nat.ltb_ge in Ecap.
    destruct (size_ v <? size_ rhs) eqn:Esz.
    + pose proof Esz as Eb. apply Nat.ltb_lt in Esz.
      destruct (run_std_copy 0 (size_ v) 0 s0) as (cs1 & E1 & Hl1 & Hin1 & Hout1).
      { intros i Hi. cbn. destruct (Hrlive i) as [t Et]; [lia|].
        exists t. split; [done|]. apply (Hnt i t); [lia|done]. }
      { intros i Hi. cbn. apply Hlive. lia. }
      cbn [s0 this other Nat.add] in Hl1, Hin1, Hout1.
      destruct (run_uninitialized_copy (size_ v) (size_ rhs - size_ v) (size_ v)
                  (set_cells Data cs1 s0)) as (cs2 & E2 & Hl2 & Hin2 & Hout2).
      { intros i Hi. cbn. destruct (Hrlive (size_ v + i)) as [t Et]; [lia|].
        exists t. split; [done|]. apply (Hnt (size_ v + i) t); [lia|done]. }
      { intros i Hi. cbn. rewrite Hout1 by lia. apply Hraw. lia. }
      cbn [s0 this other set_cells set_mem get_mem data_ cells] in Hl2, Hin2, Hout2.
      eexists. split.
      { unfold bind at 1. rewrite bind_Size. cbn [s0 this]. fold s0. rewrite Eb.
        rewrite (bind_eq _ _ _ _ _ E1), E2. reflexivity. }
      cbn [this other set_size add_log set_cells set_mem get_mem data_ size_
           capacity_ cells s0].
      assert (∀ i, i < size_ rhs → cs2 !! i = cells (data_ rhs) !! i) as Hvals.
      { intros i Hi. destruct (decide (i < size_ v)) as [Hlt|Hge].
        - rewrite Hout2 by lia. apply (Hin1 i Hlt).
        - replace i with (size_ v + (i - size_ v)) by lia. apply Hin2. lia. }
      split_and!; try done.
      constructor; unfold capacity; cbn.
      * lia.
      * lia.
      * intros i Hi. rewrite Hvals by lia. apply Hrlive. lia.
      * intros i Hi. rewrite Hout2, Hout1 by lia. apply Hraw. lia.
    + pose proof Esz as Eb. apply Nat.ltb_ge in Esz.
      destruct (run_std_copy 0 (size_ rhs) 0 s0) as (cs1 & E1 & Hl1 & Hin1 & Hout1).
      { intros i Hi. cbn. destruct (Hrlive i) as [t Et]; [lia|].
        exists t. split; [done|]. apply (Hnt i t); [lia|done]. }
      { intros i Hi. cbn. apply Hlive. lia. }
      cbn [s0 this other Nat.add] in Hl1, Hin1, Hout1.
      destruct (run_destroy_n_live Data (size_ rhs) (size_ v - size_ rhs)
                  (set_cells Data cs1 s0)) as (cs2 & E2 & Hl2 & Hin2 & Hout2).
      { intros i Hi. cbn. rewrite Hout1 by lia. apply Hlive. lia. }
      cbn [s0 this other set_cells set_mem get_mem data_ cells] in Hl2, Hin2, Hout2.
      eexists. split.
      { unfold bind at 1. rewrite bind_Size. cbn [s0 this]. fold s0. rewrite Eb.
        rewrite (bind_eq _ _ _ _ _ E1), E2. reflexivity. }
      cbn [this other set_size add_log set_cells set_mem get_mem data_ size_
           capacity_ cells s0].
      assert (∀ i, i < size_ rhs → cs2 !! i = cells (data_ rhs) !! i) as Hvals.
      { intros i Hi. rewrite Hout2 by lia. apply (Hin1 i Hi). }
      split_and!; try done.
      constructor; unfold capacity; cbn.
      * lia.
      * lia.
      * intros i Hi. rewrite Hvals by lia. apply Hrlive. lia.
      * intros i Hi. destruct (decide (i < size_ v)) as [Hlt|Hge].
        -- apply Hin2. lia.
        -- rewrite Hout2, Hout1 by lia. apply Hraw. lia.
Qed.

(** X10.  Copy assignment [v = rhs] between two distinct well-formed
    sequences, no copy of an element of [rhs] throwing and the allocation
    not failing where one is needed: afterwards [v] has the size and the
    values of [rhs], [rhs] is unchanged, and the capacity of [v] is the size
    of [rhs] if that exceeded the old capacity and the old capacity
    otherwise. *)
Theorem copy_assignment_copies v rhs w :
  wf v → wf rhs →
  (capacity v < size_ rhs → alloc_fails (size_ rhs) = false) →
  (∀ i t, i < size_ rhs → value_at rhs i = Some t →
     copy_throws t = false ∧ copy_assign_throws t = false) →
  ∃ v' w', call2 copy_assign v rhs w = (Ok tt, v', rhs, w')
    ∧ size_ v' = size_ rhs
    ∧ capacity v' = (if capacity v <? size_ rhs then size_ rhs else capacity v)
    ∧ (∀ i, i < size_ rhs → value_at v' i = value_at rhs i)
    ∧ wf v'.
Proof.
  intros Hwf Hwfr Ha Hnt.
  destruct (copy_assign_run v rhs w Hwf Hwfr Ha)
    as (s' & E & Ho & Hsz & Hcap & Hv & Hwf').
  { intros i t Hi Et. apply (Hnt i t Hi). unfold value_at. by rewrite Et. }
  exists (this s'), (world s'). unfold call2. rewrite E, Ho.
  split_and!; try done.
  intros i Hi. unfold value_at. by rewrite Hv.
Qed.

End CopyAssign.

Section EmplaceRealloc.
Context {T : Type} `{Element T}.
Implicit Types (s : St T) (v : Vector T) (w : World).

(** [Emplace] in the middle of a full buffer: both halves are relocated
    around the new element. *)
Lemma Emplace_realloc_run v w (k : nat) (x : T) :
  wf v → k < size_ v → size_ v = capacity v →
  alloc_fails (size_ v * 2) = false → relocatable v →
  ∃ s', Emplace (Ptr (buffer_ (data_ v)) k) (Some x)
          (mkSt v Vector_default RawMemory_default w)
        = (Ok (Ptr (S (next_block w)) k), s')
    ∧ size_ (this s') = S (size_ v)
    ∧ capacity (this s') = size_ v * 2
    ∧ buffer_ (data_ (this s')) = S (next_block w)
    ∧ cells (data_ (this s')) !! k = Some (Live x)
    ∧ (∀ i, i < k → cells (data_ (this s')) !! i = cells (data_ v) !! i)
    ∧ (∀ j, k ≤ j < size_ v →
         cells (data_ (this s')) !! (S j) = cells (data_ v) !! j)
    ∧ wf (this s')
    ∧ world s'
      = mkWorld (log w ++ [Alloc (S (next_block w)) (size_ v * 2)]
                 ++ (Dtor (buffer_ (data_ v)) <$> seq 0 (size_ v))
                 ++ (if buffer_ (data_ v) =? 0 then []
                     else [Free (buffer_ (data_ v))]))
                (S (next_block w)).
Proof.
  intros [Hlen Hsz Hlive Hraw] Hk Hfull Ha Hrel.
  destruct v as [[b cs cap] sz]. unfold capacity, relocatable in *.
  cbn [data_ size_ cells capacity_ buffer_] in *.
  clear Hsz. rewrite <- Hfull in *. clear Hfull cap.
  set (n := sz * 2) in *. set (nb := S (next_block w)).
  set (s0 := mkSt (mkVec (mkRaw b cs sz) sz) Vector_default RawMemory_default w).
  set (sa := mkSt (mkVec (mkRaw b cs sz) sz) Vector_default
                  (mkRaw nb (replicate n Raw) n)
                  (mkWorld (log w ++ [Alloc nb n]) nb)).
  set (sb := add_log [] (set_cells NewData (<[k:=Live x]> (replicate n Raw)) sa)).
  (* the elements before the cursor *)
  destruct (run_relocate_full 0 k 0 sb)
    as (scs1 & dcs1 & Er1 & Hdl1 & Hin1 & Hout1 & Hsl1 & Hslive1 & Hsout1).
  { intros i Hi. destruct (Hlive i ltac:(lia)) as [t Et]. exists t.
    split; [done|]. apply (Hrel i); [lia|done]. }
  { intros i Hi. cbn. rewrite list_lookup_insert_ne by lia.
    apply lookup_replicate_2. lia. }
  cbn [sb sa add_log set_cells set_mem get_mem this data_ cells new_data Nat.add]
    in Hdl1, Hin1, Hout1, Hsl1, Hslive1, Hsout1.
  rewrite length_insert, length_replicate in Hdl1.
  set (sc1 := add_log [] (set_cells NewData dcs1 (set_cells Data scs1 sb))) in *.
  (* the elements from the cursor on *)
  destruct (run_relocate_full k (sz - k) (k + 1) sc1)
    as (scs2 & dcs2 & Er2 & Hdl2 & Hin2 & Hout2 & Hsl2 & Hslive2 & Hsout2).
  { intros i Hi. cbn. rewrite Hsout1 by lia.
    destruct (Hlive (k + i) ltac:(lia)) as [t Et]. exists t.
    split; [done|]. apply (Hrel (k + i)); [lia|done]. }
  { intros i Hi. cbn. rewrite Hout1 by lia. rewrite list_lookup_insert_ne by lia.
    apply lookup_replicate_2. lia. }
  cbn [sc1 sb sa add_log set_cells set_mem get_mem this data_ cells new_data]
    in Hdl2, Hin2, Hout2, Hsl2, Hslive2, Hsout2.
  set (sc2 := add_log [] (set_cells NewData dcs2 (set_cells Data scs2 sc1))) in *.
  assert ((if relocate_by_move then
             uninitialized_move_n Data 0 k NewData 0;;
             uninitialized_move_n Data k (sz - k) NewData (k + 1)
           else
             uninitialized_copy_n Data 0 k NewData 0;;
             try_catch
               (uninitialized_copy_n Data k (sz - k) NewData (k + 1))
               (destroy_n NewData 0 (k + 1))) sb
          = (Ok tt, sc2)) as Erel.
  { clear -Er1 Er2. revert Er1 Er2. destruct relocate_by_move; intros Er1 Er2.
    - by rewrite (bind_eq _ _ _ _ _ Er1).
    - rewrite (bind_eq _ _ _ _ _ Er1). by apply try_catch_ok. }
  (* the old objects are destroyed, then the buffers change hands *)
  destruct (run_destroy_n_live Data 0 sz sc2) as (cs4 & Ed & Hl4 & H4in & H4out).
  { intros i Hi. cbn. destruct (decide (i < k)) as [Hlt|Hge].
    - rewrite Hsout2 by lia. apply (Hslive1 i Hlt).
    - replace i with (k + (i - k)) by lia. apply Hslive2. lia. }
  cbn [sc2 sc1 sb sa get_mem set_mem set_cells add_log new_data this data_ cells
       buffer_] in Ed, Hl4, H4in, H4out.
  set (sd := add_log (Dtor b <$> seq 0 sz) (set_cells Data cs4 sc2)) in *.
  set (se := set_mem Data (new_data sd) (set_mem NewData (data_ (this sd)) sd)).
  set (sf := set_mem NewData RawMemory_default (Deallocate (new_data se) se).2).
  assert (this sf = mkVec (mkRaw nb dcs2 n) sz) as Hthis.
  { unfold sf. cbn [this set_mem]. by rewrite this_Deallocate. }
  exists (set_size (sz + 1) sf). split.
  { unfold Emplace.
    rewrite (bind_eq begin _ s0 (Ptr b 0) s0 eq_refl).
    rewrite (bind_eq _ _ _ _ _ (run_end_ s0)).
    rewrite (bind_eq (assert _) _ s0 tt s0).
    2:{ apply run_assert. unfold ptr_leb. cbn.
        rewrite Nat.eqb_refl. cbn. apply Nat.leb_le. lia. }
    rewrite bind_Size. cbn [s0 this size_ off]. fold s0.
    rewrite Nat.sub_0_r. rewrite (proj2 (Nat.eqb_neq k sz)) by lia.
    rewrite bind_Capacity. cbn [s0 this data_ capacity_]. fold s0.
    rewrite Nat.leb_refl.
    rewrite (bind_eq _ _ s0 tt sf).
    2:{ apply (run_with_new_data n _ s0); [lia|done|].
        cbn [s0 this other world]. fold nb. fold sa.
        rewrite (bind_eq _ _ _ _ _ (run_RawMemory_plus NewData k sa ltac:(cbn; lia))).
        rewrite (bind_eq _ _ sa tt sb).
        2:{ apply run_placement_new. cbn. apply lookup_replicate_2. lia. }
        apply try_catch_ok.
        rewrite (bind_eq _ _ _ _ _ Erel), (bind_eq _ _ _ _ _ Ed).
        reflexivity. }
    unfold incr_size. rewrite bind_modify.
    rewrite run_RawMemory_index.
    - cbn [set_size get_mem this data_ buffer_]. rewrite Hthis. cbn. 
      by rewrite Nat.add_1_r.
    - cbn [set_size get_mem this data_ capacity_]. rewrite Hthis. cbn. lia. }
  cbn [set_size this data_ size_ cells capacity_ buffer_ world]. rewrite Hthis.
  cbn [data_ cells capacity_ buffer_].
  assert (dcs2 !! k = Some (Live x)) as Hk2.
  { rewrite Hout2, Hout1 by lia. apply list_lookup_insert_eq.
    rewrite length_replicate. lia. }
  assert (∀ i, i < k → dcs2 !! i = cs !! i) as Hlo.
  { intros i Hi. rewrite Hout2 by lia. apply (Hin1 i Hi). }
  assert (∀ j, k ≤ j < sz → dcs2 !! S j = cs !! j) as Hhi.
  { intros j Hj. replace (S j) with (k + 1 + (j - k)) by lia.
    rewrite Hin2 by lia. rewrite Hsout1 by lia. f_equal. lia. }
  split_and!; try done.
  - lia.
  - constructor; unfold capacity; cbn.
    + lia.
    + lia.
    + intros i Hi. destruct (decide (i < k)) as [Hlt|Hge].
      * rewrite Hlo by done. apply Hlive. lia.
      * destruct (decide (i = k)) as [->|Hne]; [eauto|].
        replace i with (S (i - 1)) by lia. rewrite Hhi by lia. apply Hlive. lia.
    + intros i Hi. rewrite Hout2, Hout1 by lia.
      rewrite list_lookup_insert_ne by lia. apply lookup_replicate_2. lia.
  - unfold sf. cbn [world set_mem].
    pose proof (log_Deallocate (new_data se) se) as Hlog.
    pose proof (next_block_Deallocate (new_data se) se) as Hnb.
    destruct (world (Deallocate (new_data se) se).2) as [l' n'].
    cbn [log next_block] in Hlog, Hnb. rewrite Hlog, Hnb. cbn.
    f_equal. rewrite (leaked_all_raw b cs4).
    + rewrite !app_nil_r, <- !app_assoc. done.
    + intros i Hi. destruct (decide (i < sz)) as [Hlt|Hge].
      * apply H4in. lia.
      * apply lookup_lt_is_Some_2 in Hi as [c Ec]. 
        assert (length cs4 = sz) by lia. apply lookup_lt_Some in Ec. lia.
Qed.

(** X11.  [Emplace] before element [k] of a full, well-formed sequence,
    the allocation and the relocation not throwing: the new element ends up
    in slot [k] of a fresh buffer of twice the size, the elements before it
    keep their index, every element from [k] on moves up by one with its
    value (the last one included), and the old objects are destroyed once
    each before the old buffer is freed. *)
Theorem Emplace_reallocates v w (k : nat) (x : T) :
  wf v → k < size_ v → size_ v = capacity v →
  alloc_fails (size_ v * 2) = false → relocatable v →
  ∃ v',
    call (Emplace (Ptr (buffer_ (data_ v)) k) (Some x)) v w
    = (Ok (Ptr (buffer_ (data_ v')) k), v',
       mkWorld (log w ++ [Alloc (S (next_block w)) (size_ v * 2)]
                ++ (Dtor (buffer_ (data_ v)) <$> seq 0 (size_ v))
                ++ (if buffer_ (data_ v) =? 0 then []
                    else [Free (buffer_ (data_ v))]))
               (S (next_block w)))
    ∧ size_ v' = S (size_ v)
    ∧ capacity v' = size_ v * 2
    ∧ value_at v' k = Some x
    ∧ (∀ i, i < k → value_at v' i = value_at v i)
    ∧ (∀ j, k ≤ j < size_ v → value_at v' (S j) = value_at v j)
    ∧ wf v'.
Proof.
  intros Hwf Hk Hfull Ha Hrel.
  destruct (Emplace_realloc_run v w k x Hwf Hk Hfull Ha Hrel)
    as (s' & E & Hsz & Hcap & Hb & Hx & Hlo & Hhi & Hwf' & Hw).
  exists (this s'). unfold call. rewrite E, Hb, Hw. unfold value_at.
  split_and!; try done.
  - by rewrite Hx.
  - intros i Hi. by rewrite Hlo.
  - intros j Hj. by rewrite Hhi.
Qed.

End EmplaceRealloc.

Section ConstructorThrows.
Context {T : Type} `{Element T}.
Implicit Types (s : St T) (v : Vector T) (w : World).

(** A block with a local buffer in which the constructor of the new
    element throws at once: the buffer is given back untouched. *)
Lemma run_with_new_data_ctor_throws {A} n k (rest : M T A) s :
  n ≠ 0 → alloc_fails n = false → k ≤ n →
  with_new_data n (p ← RawMemory_plus NewData k;
                   placement_new NewData p None;; rest) s
  = (Throw elem_exn,
     mkSt (this s) (other s) (new_data s)
          (mkWorld (log (world s)
                    ++ [Alloc (S (next_block (world s))) n;
                        Free (S (next_block (world s)))])
                   (S (next_block (world s))))).
Proof.
  intros Hn Ha Hk.
  set (nb := S (next_block (world s))).
  set (sa := mkSt (this s) (other s) (mkRaw nb (replicate n Raw) n)
                  (mkWorld (log (world s) ++ [Alloc nb n]) nb)).
  rewrite (run_with_new_data n _ s (Throw elem_exn) sa Hn Ha).
  2:{ fold nb. fold sa.
      rewrite (bind_eq _ _ _ _ _ (run_RawMemory_plus NewData k sa ltac:(cbn; lia))).
      reflexivity. }
  unfold Deallocate. cbn. rewrite leaked_replicate_raw. cbn.
  by rewrite <- app_assoc.
Qed.

(** X12.  [EmplaceBack] when the constructor of the new element throws.
    With spare capacity nothing at all has happened.  With a full non-empty
    buffer the new buffer has been allocated and freed again, and the
    sequence is as before.  With no buffer at all, [Reserve (1)] has already
    run: the sequence is still empty but now owns a buffer of capacity 1. *)
Theorem EmplaceBack_constructor_throws v w :
  wf v →
  (size_ v < capacity v → call (EmplaceBack None) v w = (Throw elem_exn, v, w))
  ∧ (0 < size_ v → size_ v = capacity v → alloc_fails (size_ v * 2) = false →
     call (EmplaceBack None) v w
     = (Throw elem_exn, v,
        mkWorld (log w ++ [Alloc (S (next_block w)) (size_ v * 2);
                           Free (S (next_block w))])
                (S (next_block w))))
  ∧ (capacity v = 0 → alloc_fails 1 = false →
     call (EmplaceBack None) v w
     = (Throw elem_exn, mkVec (mkRaw (S (next_block w)) [Raw] 1) 0,
        mkWorld (log w ++ [Alloc (S (next_block w)) 1]
                 ++ (if buffer_ (data_ v) =? 0 then []
                     else [Free (buffer_ (data_ v))]))
                (S (next_block w)))).
Proof.
  intros Hwf. pose proof Hwf as [Hlen Hsz Hlive Hraw]. unfold capacity in *.
  set (s0 := mkSt v Vector_default RawMemory_default w).
  split_and!.
  - intros Hlt. unfold call, EmplaceBack. fold s0.
    rewrite bind_Size. cbn [s0 this]. fold s0.
    rewrite (bind_throw _ _ s0 elem_exn s0); [done|].
    destruct (size_ v =? 0) eqn:E0.
    + rewrite (bind_eq _ _ _ _ _ (Reserve_noop s0 1 ltac:(unfold capacity; cbn; lia))).
      reflexivity.
    + rewrite bind_Capacity. cbn [s0 this]. fold s0.
      rewrite (proj2 (Nat.eqb_neq (size_ v) (capacity_ (data_ v)))) by lia.
      rewrite (bind_eq _ _ _ _ _ (run_RawMemory_plus Data (size_ v) s0 ltac:(cbn; lia))).
      reflexivity.
  - intros Hpos Hfull Ha. unfold call, EmplaceBack. fold s0.
    rewrite bind_Size. cbn [s0 this]. fold s0.
    rewrite (proj2 (Nat.eqb_neq (size_ v) 0)) by lia.
    rewrite (bind_throw _ _ s0 elem_exn
               (mkSt v Vector_default RawMemory_default
                  (mkWorld (log w ++ [Alloc (S (next_block w)) (size_ v * 2);
                                      Free (S (next_block w))])
                           (S (next_block w))))); [done|].
    rewrite bind_Capacity. cbn [s0 this]. fold s0.
    rewrite (proj2 (Nat.eqb_eq (size_ v) (capacity_ (data_ v)))) by lia.
    rewrite run_with_new_data_ctor_throws by first [lia|done]. reflexivity.
  - intros Hc Ha.
    destruct (Reserve_grow_trace s0 1) as
      (s1 & Er & Ho & Hnd & Hs1 & Hc1 & Hb1 & [Hl1 Hsz1 Hlive1 Hraw1] & Hv & Hw);
      [done|unfold capacity; cbn; lia|done|intros i t Hi; cbn in Hi; lia|].
    unfold capacity in *. cbn [s0 this world] in *.
    assert (size_ v = 0) as Hz by lia.
    unfold call, EmplaceBack. fold s0.
    rewrite bind_Size. cbn [s0 this]. fold s0.
    rewrite (proj2 (Nat.eqb_eq (size_ v) 0)) by lia.
    rewrite (bind_throw _ _ s0 elem_exn s1).
    2:{ by rewrite (bind_eq _ _ _ _ _ Er). }
    rewrite Hw, Hz. cbn [seq fmap list_fmap app].
    destruct (this s1) as [[b1 cs1 cap1] sz1]. cbn in *. subst.
    do 3 f_equal; try done. destruct cs1 as [|c1 [|c2 cs1]]; cbn in Hl1; try lia.
    specialize (Hraw1 0 ltac:(lia)). cbn in Hraw1. by injection Hraw1 as ->.
Qed.

(** X13.  [Emplace] before element [k] of a full buffer when the
    constructor of the new element throws: the new buffer is allocated and
    freed again, no element has been touched, and the sequence is exactly
    as before.  Both overloads of [Insert] behave the same when the copy,
    respectively the move, of the inserted value throws. *)
Theorem Emplace_constructor_throws_full v w (k : nat) :
  k < size_ v → capacity v ≤ size_ v → alloc_fails (size_ v * 2) = false →
  let pos := Ptr (buffer_ (data_ v)) k in
  let unchanged :=
    (Throw elem_exn, v,
     mkWorld (log w ++ [Alloc (S (next_block w)) (size_ v * 2);
                        Free (S (next_block w))])
             (S (next_block w))) in
  call (Emplace pos None) v w = unchanged
  ∧ (∀ x, copy_throws x = true → call (Insert pos x) v w = unchanged)
  ∧ (∀ x, move_throws x = true → call (Insert_rvalue pos x) v w = unchanged).
Proof.
  intros Hk Hfull Ha pos unchanged. unfold capacity in *.
  assert (call (Emplace pos None) v w = unchanged) as Hrun.
  { set (s0 := mkSt v Vector_default RawMemory_default w).
    unfold call. fold s0. unfold Emplace, pos.
    rewrite (bind_eq begin _ s0 (Ptr (buffer_ (data_ v)) 0) s0 eq_refl).
    rewrite (bind_eq _ _ _ _ _ (run_end_ s0)).
    rewrite (bind_eq (assert _) _ s0 tt s0).
    2:{ apply run_assert. unfold ptr_leb. cbn.
        rewrite Nat.eqb_refl. cbn. apply Nat.leb_le. lia. }
    rewrite bind_Size. cbn [s0 this size_ off]. fold s0.
    rewrite Nat.sub_0_r. rewrite (proj2 (Nat.eqb_neq k (size_ v))) by lia.
    rewrite bind_Capacity. cbn [s0 this]. fold s0.
    rewrite (proj2 (Nat.leb_le (capacity_ (data_ v)) (size_ v))) by lia.
    rewrite (bind_throw _ _ s0 elem_exn
               (mkSt v Vector_default RawMemory_default
                  (mkWorld (log w ++ [Alloc (S (next_block w)) (size_ v * 2);
                                      Free (S (next_block w))])
                           (S (next_block w))))); [done|].
    rewrite run_with_new_data_ctor_throws by first [lia|done]. reflexivity. }
  split_and!; [done| |].
  - intros x Hx. unfold Insert, copy_of. by rewrite Hx.
  - intros x Hx. unfold Insert_rvalue, move_of. by rewrite Hx.
Qed.

End ConstructorThrows.

Section Composition.
Context {T : Type} `{Element T}.
Implicit Types (s : St T) (v : Vector T) (w : World).

(** X14.  [PushBack (x)] followed by [PopBack ()] on a well-formed
    sequence, nothing throwing: the size and every value are as before, the
    sequence is well formed, and the only lasting change is the capacity,
    which is the one the growth policy gave [PushBack]. *)
Theorem PushBack_PopBack_round_trip v w (x : T) :
  copy_throws x = false → wf v →
  (size_ v = capacity v →
     alloc_fails (max 1 (2 * capacity v)) = false ∧ relocatable v) →
  ∃ v' w', call (PushBack x;; PopBack) v w = (Ok tt, v', w')
    ∧ size_ v' = size_ v
    ∧ (∀ i, i < size_ v → value_at v' i = value_at v i)
    ∧ capacity v' = grow v
    ∧ wf v'.
Proof.
  intros Hx Hwf Hfull.
  destruct (PushBack_run (mkSt v Vector_default RawMemory_default w) x Hx Hwf Hfull)
    as (s1 & E1 & Hs1 & Hn1 & Hv1 & [Hl1 Hsz1 Hlive1 Hraw1] & Hc1).
  cbn [this] in *. unfold capacity in *.
  assert (cells (data_ (this s1)) !! (size_ (this s1) - 1) = Some (Live x)) as Hlast.
  { rewrite Hs1. replace (S (size_ v) - 1) with (size_ v) by lia. done. }
  pose proof (PopBack_run s1 x ltac:(lia) Hlast) as E2.
  eexists _, _. split.
  { unfold call. rewrite (bind_eq _ _ _ _ _ E1), E2. reflexivity. }
  rewrite Hs1. replace (S (size_ v) - 1) with (size_ v) by lia.
  unfold value_at, capacity.
  cbn [this set_size add_log set_cells set_mem get_mem data_ size_ cells capacity_].
  split_and!; try done.
  - intros i Hi. rewrite list_lookup_insert_ne by lia. by rewrite Hv1.
  - constructor; unfold capacity; cbn.
    + by rewrite length_insert.
    + lia.
    + intros i Hi. rewrite list_lookup_insert_ne by lia. apply Hlive1. lia.
    + intros i Hi. destruct (decide (i = size_ v)) as [->|Hne].
      * apply list_lookup_insert_eq. lia.
      * rewrite list_lookup_insert_ne by lia. apply Hraw1. lia.
Qed.

(** X15.  [operator[] (i)] on a well-formed sequence returns the address
    of slot [i] of the buffer, [begin () + i], when [i < Size ()], and fails
    its assertion for every other index; [end ()] is [begin () + Size ()].
    None of them changes anything. *)
Theorem index_is_checked v w (i : nat) :
  wf v →
  (i < size_ v →
     call (Vector_index i) v w = (Ok (Ptr (buffer_ (data_ v)) i), v, w))
  ∧ (size_ v ≤ i → call (Vector_index i) v w = (Abort, v, w))
  ∧ call begin v w = (Ok (Ptr (buffer_ (data_ v)) 0), v, w)
  ∧ call end_ v w = (Ok (Ptr (buffer_ (data_ v)) (size_ v)), v, w).
Proof.
  intros [Hlen Hsz Hlive Hraw]. unfold capacity in *.
  set (s0 := mkSt v Vector_default RawMemory_default w).
  split_and!; try done.
  - intros Hi. unfold call, Vector_index. fold s0. rewrite bind_Size.
    cbn [s0 this]. fold s0. rewrite (proj2 (Nat.ltb_lt i (size_ v)) Hi).
    rewrite (bind_eq _ _ s0 tt s0) by done.
    rewrite run_RawMemory_index by (cbn; lia). done.
  - intros Hi. unfold call, Vector_index. fold s0. rewrite bind_Size.
    cbn [s0 this]. fold s0. by rewrite (proj2 (Nat.ltb_ge i (size_ v)) Hi).
Qed.

(** X16.  [Erase] at the last element of a well-formed, non-empty
    sequence does exactly what [PopBack] does (no element is move-assigned,
    so nothing can throw) and returns the new [end ()]. *)
Theorem Erase_last_is_PopBack v w :
  wf v → 0 < size_ v →
  ∃ v' w',
    call (Erase (Ptr (buffer_ (data_ v)) (size_ v - 1))) v w
    = (Ok (Ptr (buffer_ (data_ v')) (size_ v')), v', w')
    ∧ call PopBack v w = (Ok tt, v', w')
    ∧ size_ v' = size_ v - 1.
Proof.
  intros [Hlen Hsz Hlive Hraw] Hpos. unfold capacity in *.
  destruct (Hlive (size_ v - 1)) as [t Et]; [lia|].
  set (s0 := mkSt v Vector_default RawMemory_default w).
  pose proof (PopBack_run s0 t Hpos Et) as Ep. cbn [s0 this] in Ep. fold s0 in Ep.
  exists (mkVec (mkRaw (buffer_ (data_ v)) (<[size_ v - 1:=Raw]> (cells (data_ v)))
                   (capacity_ (data_ v))) (size_ v - 1)),
         (mkWorld (log w ++ [Dtor (buffer_ (data_ v)) (size_ v - 1)]) (next_block w)).
  split_and!.
  - unfold call, Erase. fold s0.
    rewrite (bind_eq begin _ s0 (Ptr (buffer_ (data_ v)) 0) s0 eq_refl).
    rewrite (bind_eq _ _ _ _ _ (run_end_ s0)).
    rewrite (bind_eq (assert _) _ s0 tt s0).
    2:{ apply run_assert. unfold ptr_leb, ptr_ltb. cbn.
        rewrite Nat.eqb_refl. cbn. apply Nat.ltb_lt. lia. }
    rewrite bind_Size. cbn [s0 this size_ off]. fold s0.
    rewrite Nat.sub_0_r.
    rewrite (bind_eq _ _ s0 tt (set_cells Data (cells (data_ v)) s0)).
    2:{ unfold std_move. replace (size_ v - (size_ v - 1 + 1)) with 0 by lia.
        reflexivity. }
    rewrite (bind_eq _ _ _ tt
               (add_log [Dtor (buffer_ (data_ v)) (size_ v - 1)]
                  (set_cells Data (<[size_ v - 1:=Raw]> (cells (data_ v)))
                     (set_cells Data (cells (data_ v)) s0)))).
    2:{ unfold destroy_n. cbn [get_mem set_cells set_mem s0 this data_ cells buffer_
                               destroy_cells].
        by rewrite (destroy_at_live _ _ _ _ Et). }
    unfold decr_size. rewrite bind_modify.
    rewrite run_RawMemory_index by (cbn; lia). reflexivity.
  - unfold call. fold s0. rewrite Ep. destruct v as [[b cs cap] sz]. reflexivity.
  - reflexivity.
Qed.

(** X17.  [EmplaceBack] into a full, non-empty buffer of a type relocated
    by copy, when the copy of element [j] throws (the earlier ones do not):
    the [j] copies already made are destroyed, then the new element in slot
    [size] of the new buffer, the buffer is freed, and the sequence is
    exactly as before. *)
Theorem EmplaceBack_rolls_back v w (x : T) (j : nat) (t : T) :
  relocate_by_move = false →
  0 < size_ v → size_ v = capacity v → alloc_fails (size_ v * 2) = false →
  j < size_ v →
  (∀ i, i < j →
     ∃ u, cells (data_ v) !! i = Some (Live u) ∧ copy_throws u = false) →
  cells (data_ v) !! j = Some (Live t) → copy_throws t = true →
  let b := S (next_block w) in
  call (EmplaceBack (Some x)) v w
  = (Throw elem_exn, v,
     mkWorld (log w ++ [Alloc b (size_ v * 2)] ++ (Dtor b <$> seq 0 j)
              ++ [Dtor b (size_ v); Free b]) b).
Proof.
  intros Hrm Hpos Hfull Ha Hj Hpre Et Ect nb.
  destruct v as [[b cs cap] sz]. unfold capacity in *.
  cbn [data_ size_ cells capacity_ buffer_] in *.
  rewrite <- Hfull in *. clear Hfull cap.
  set (n := sz * 2) in *.
  set (s0 := mkSt (mkVec (mkRaw b cs sz) sz) Vector_default RawMemory_default w).
  set (sa := mkSt (mkVec (mkRaw b cs sz) sz) Vector_default
                  (mkRaw nb (replicate n Raw) n)
                  (mkWorld (log w ++ [Alloc nb n]) nb)).
  set (dst0 := <[sz:=Live x]> (replicate n (@Raw T))).
  set (sb := add_log [] (set_cells NewData dst0 sa)).
  set (sc := add_log (Dtor nb <$> seq 0 j) (set_cells NewData dst0 sb)).
  set (sd := add_log [Dtor nb sz] (set_cells NewData (<[sz:=Raw]> dst0) sc)).
  assert (dst0 !! sz = Some (Live x)) as Hx0.
  { apply list_lookup_insert_eq. rewrite length_replicate. lia. }
  assert (∀ i, i ≠ sz → dst0 !! i = replicate n Raw !! i) as Hne0.
  { intros i Hi. unfold dst0. by rewrite list_lookup_insert_ne by lia. }
  unfold call. fold s0. unfold EmplaceBack.
  rewrite bind_Size. cbn [s0 this size_]. fold s0.
  rewrite (proj2 (Nat.eqb_neq sz 0)) by lia.
  rewrite (bind_throw _ _ s0 elem_exn
             (set_mem NewData RawMemory_default (Deallocate (new_data sd) sd).2)).
  - cbn [this world set_mem]. rewrite this_Deallocate.
    unfold Deallocate.
    cbn [sd sc sb sa add_log set_cells set_mem get_mem new_data buffer_ cells this
         other world log next_block capacity_].
    unfold nb at 1. cbn [Nat.eqb]. unfold modify. 
    cbn [snd add_log world log next_block this].
    rewrite (leaked_all_raw nb (<[sz:=Raw]> dst0)).
    + unfold sd, sc, sb, sa.
      cbn [add_log set_cells set_mem get_mem world log next_block this other
           new_data app].
      do 2 f_equal. rewrite ?app_nil_r, <- ?app_assoc. done.
    + intros i Hi. rewrite length_insert in Hi.
      unfold dst0 in Hi. rewrite length_insert, length_replicate in Hi.
      destruct (decide (i = sz)) as [->|Hne].
      * apply list_lookup_insert_eq. unfold dst0.
        rewrite length_insert, length_replicate. lia.
      * rewrite list_lookup_insert_ne by lia. rewrite Hne0 by done.
        apply lookup_replicate_2. lia.
  - rewrite bind_Capacity. cbn [s0 this data_ capacity_]. fold s0.
    rewrite Nat.eqb_refl.
    apply (run_with_new_data n _ s0); [lia|done|].
    cbn [s0 this other world]. fold nb. fold sa.
    rewrite (bind_eq _ _ _ _ _ (run_RawMemory_plus NewData sz sa ltac:(cbn; lia))).
    rewrite (bind_eq _ _ sa tt sb).
    2:{ apply run_placement_new. cbn. apply lookup_replicate_2. lia. }
    unfold try_catch. rewrite Hrm.
    rewrite (bind_throw _ _ sb elem_exn sc).
    2:{ unfold uninitialized_copy_n.
        cbn [sb sa get_mem add_log set_cells set_mem this new_data data_ cells
             buffer_].
        rewrite (uninitialized_copy_cells_throw cs 0 nb 0 dst0 j t);
          [reflexivity|exact Et|exact Ect|exact Hpre| |lia| |done].
        - intros i Hi. cbn. rewrite Hne0 by lia. apply lookup_replicate_2. lia.
        - intros i Hi. lia. }
    unfold destroy_n.
    cbn [sc sb sa get_mem add_log set_cells set_mem this new_data data_ cells
         buffer_ destroy_cells].
    rewrite (destroy_at_live _ _ _ _ Hx0). reflexivity.
Qed.

(** X18.  [Reserve (c)] past the capacity, for a [c] whose byte count does
    not wrap, on a type relocated by move, when the move of element [j] throws (the earlier ones do not): the
    exception leaves [Reserve] with the size, the capacity and the buffer
    unchanged and the new buffer freed, but the elements [0 .. j-1] have
    been moved from; the elements from [j] on keep their values. *)
Theorem Reserve_move_throws v w (c j : nat) (t : T) :
  relocate_by_move = true →
  wf v → capacity v < c → fits (T:=T) c → alloc_fails c = false →
  j < size_ v →
  (∀ i u, i < j → value_at v i = Some u → move_throws u = false) →
  value_at v j = Some t → move_throws t = true →
  ∃ v',
    call (Reserve c) v w
    = (Throw elem_exn, v',
       mkWorld (log w ++ [Alloc (S (next_block w)) c]
                ++ (Dtor (S (next_block w)) <$> seq 0 j)
                ++ [Free (S (next_block w))])
               (S (next_block w)))
    ∧ size_ v' = size_ v ∧ capacity v' = capacity v
    ∧ buffer_ (data_ v') = buffer_ (data_ v)
    ∧ (∀ i u, i < j → value_at v i = Some u → value_at v' i = Some (moved_from u))
    ∧ (∀ i, j ≤ i → value_at v' i = value_at v i)
    ∧ wf v'.
Proof.
  intros Hrm [Hlen Hsz Hlive Hraw] Hc _ Ha Hj Hpre Et Ect.
  destruct v as [[b cs cap] sz]. unfold capacity, value_at in *.
  cbn [data_ size_ cells capacity_ buffer_] in *.
  set (nb := S (next_block w)).
  assert (cs !! j = Some (Live t)) as Et'.
  { destruct (Hlive j Hj) as [t' E']. rewrite E' in Et. by injection Et as ->. }
  destruct (uninitialized_move_cells_throw 0 nb 0 (replicate c Raw) j t
              sz 0 cs (replicate c Raw))
    as (src' & E & Hl' & Hin & Hout); [lia|exact Et'|exact Ect| | | |done|].
  { intros i Hi. destruct (Hlive i ltac:(lia)) as [u Eu]. exists u.
    split; [done|]. apply (Hpre i u); [lia|]. by rewrite Eu. }
  { intros i Hi. apply lookup_replicate_2. lia. }
  { intros i Hi. lia. }
  cbn [Nat.add] in Hin, Hout.
  set (s0 := mkSt (mkVec (mkRaw b cs cap) sz) Vector_default RawMemory_default w).
  set (sa := mkSt (mkVec (mkRaw b cs cap) sz) Vector_default
                  (mkRaw nb (replicate c Raw) c)
                  (mkWorld (log w ++ [Alloc nb c]) nb)).
  set (sb := add_log (Dtor nb <$> seq 0 j)
               (set_cells NewData (replicate c Raw) (set_cells Data src' sa))).
  assert (Reserve c s0
          = (Throw elem_exn,
             set_mem NewData RawMemory_default (Deallocate (new_data sb) sb).2))
    as Erun.
  { unfold Reserve. rewrite bind_Capacity. cbn [s0 this data_ capacity_]. fold s0.
    apply Nat.leb_gt in Hc as Hc'. rewrite Hc'.
    apply (run_with_new_data c _ s0); [lia|done|].
    cbn [s0 this other world]. fold nb. fold sa.
    rewrite bind_Size. cbn [sa this size_]. fold sa. rewrite Hrm.
    apply bind_throw. unfold uninitialized_move_n.
    cbn [sa get_mem this new_data data_ cells buffer_]. by rewrite E. }
  exists (mkVec (mkRaw b src' cap) sz). split.
  { unfold call. fold s0. rewrite Erun. cbn [this world set_mem].
    rewrite this_Deallocate. unfold Deallocate.
    cbn [sb sa add_log set_cells set_mem get_mem new_data buffer_ cells this
         other world log next_block capacity_ data_ size_].
    unfold nb at 1. cbn [Nat.eqb]. unfold modify.
    cbn [snd add_log world log next_block this].
    rewrite leaked_replicate_raw. unfold sb, sa.
    cbn [add_log set_cells set_mem get_mem world log next_block this other
         new_data app].
    do 2 f_equal. rewrite ?app_nil_r, <- ?app_assoc. done. }
  cbn [data_ size_ cells capacity_ buffer_]. split_and!; try done.
  - intros i u Hi Eu. destruct (Hlive i ltac:(lia)) as [u' Eu'].
    rewrite Eu' in Eu. injection Eu as ->. by rewrite (Hin i u ltac:(lia) Eu').
  - intros i Hi. by rewrite Hout by lia.
  - constructor; unfold capacity; cbn.
    + lia.
    + lia.
    + intros i Hi. destruct (decide (i < j)) as [Hlt|Hge].
      * destruct (Hlive i Hi) as [u Eu]. exists (moved_from u).
        apply (Hin i u); [lia|done].
      * rewrite Hout by lia. by apply Hlive.
    + intros i Hi. rewrite Hout by lia. by apply Hraw.
Qed.

End Composition.

Section Failures.
Context {T : Type} `{Element T}.
Implicit Types (s : St T) (v rhs : Vector T) (w : World).

(** The copy constructor when the copy of element [j] throws. *)
Lemma Vector_copy_throws_run s (j : nat) (t : T) :
  alloc_fails (size_ (other s)) = false →
  j < size_ (other s) →
  (∀ i, i < j → ∃ u, cells (data_ (other s)) !! i = Some (Live u)
                     ∧ copy_throws u = false) →
  cells (data_ (other s)) !! j = Some (Live t) → copy_throws t = true →
  Vector_copy s
  = (Throw elem_exn,
     mkSt Vector_default (other s) (new_data s)
          (mkWorld (log (world s)
                    ++ [Alloc (S (next_block (world s))) (size_ (other s))]
                    ++ (Dtor (S (next_block (world s))) <$> seq 0 j)
                    ++ [Free (S (next_block (world s)))])
                   (S (next_block (world s))))).
Proof.
  intros Ha Hj Hpre Et Ect.
  destruct s as [th [[ob ocs ocap] n] nd [l nbk]].
  cbn [this other new_data world data_ size_ cells capacity_ log next_block] in *.
  set (nb := S nbk).
  unfold Vector_copy. rewrite bind_gets. cbn [other size_].
  unfold RawMemory_new, Allocate. unfold bind at 2.
  rewrite (proj2 (Nat.eqb_neq n 0)) by lia. rewrite Ha.
  unfold bind at 1. cbn [ret fst snd this other new_data world log next_block].
  fold nb. rewrite bind_modify. unfold unwind_members, try_catch.
  assert (uninitialized_copy_n OtherData 0 n Data 0
            (set_this (mkVec (mkRaw nb (replicate n Raw) n) n)
               (mkSt th (mkVec (mkRaw ob ocs ocap) n) nd
                  (mkWorld (l ++ [Alloc nb n]) nb)))
          = (Throw elem_exn,
             add_log (Dtor nb <$> seq 0 j)
               (set_cells Data (replicate n Raw)
                  (set_this (mkVec (mkRaw nb (replicate n Raw) n) n)
                     (mkSt th (mkVec (mkRaw ob ocs ocap) n) nd
                        (mkWorld (l ++ [Alloc nb n]) nb)))))) as Erun.
  { unfold uninitialized_copy_n.
    cbn [get_mem set_this this other data_ cells buffer_].
    rewrite (uninitialized_copy_cells_throw ocs 0 nb 0 (replicate n Raw) j t);
      [reflexivity|exact Et|exact Ect|exact Hpre| |lia| |done].
    - intros i Hi. apply lookup_replicate_2. lia.
    - intros i Hi. lia. }
  assert ((if relocate_by_move
           then uninitialized_move_n_const OtherData 0 n Data 0
           else uninitialized_copy_n OtherData 0 n Data 0)
            (set_this (mkVec (mkRaw nb (replicate n Raw) n) n)
               (mkSt th (mkVec (mkRaw ob ocs ocap) n) nd
                  (mkWorld (l ++ [Alloc nb n]) nb)))
          = (Throw elem_exn,
             add_log (Dtor nb <$> seq 0 j)
               (set_cells Data (replicate n Raw)
                  (set_this (mkVec (mkRaw nb (replicate n Raw) n) n)
                     (mkSt th (mkVec (mkRaw ob ocs ocap) n) nd
                        (mkWorld (l ++ [Alloc nb n]) nb)))))) as ->.
  { unfold uninitialized_move_n_const. by destruct relocate_by_move. }
  rewrite bind_gets.
  cbn [add_log set_cells set_mem get_mem set_this this other new_data world log
       next_block data_ size_ buffer_ cells capacity_].
  unfold Deallocate. cbn [buffer_ cells]. unfold nb at 1. cbn [Nat.eqb].
  rewrite bind_modify. unfold modify.
  cbn [add_log set_this this other new_data world log next_block].
  rewrite leaked_replicate_raw. unfold set_this, add_log.
  cbn [this other new_data world log next_block app].
  do 3 f_equal. rewrite <- !app_assoc. done.
Qed.

(** X19.  The copy constructor when the copy of element [j] of the source
    throws (the earlier ones do not): the [j] copies already made are
    destroyed, the buffer is freed, the source is untouched and no object
    results. *)
Theorem copy_constructor_rolls_back (v0 o : Vector T) w (j : nat) (t : T) :
  alloc_fails (size_ o) = false →
  j < size_ o →
  (∀ i, i < j → ∃ u, cells (data_ o) !! i = Some (Live u) ∧ copy_throws u = false) →
  cells (data_ o) !! j = Some (Live t) → copy_throws t = true →
  let b := S (next_block w) in
  call2 Vector_copy v0 o w
  = (Throw elem_exn, Vector_default, o,
     mkWorld (log w ++ [Alloc b (size_ o)] ++ (Dtor b <$> seq 0 j) ++ [Free b]) b).
Proof.
  intros Ha Hj Hpre Et Ect b. unfold call2.
  by rewrite (Vector_copy_throws_run (mkSt v0 o RawMemory_default w) j t).
Qed.

(** X20.  Copy assignment [v = rhs] when [rhs] is larger than the capacity
    of [v] (copy-and-swap) and the copy of element [j] of [rhs] throws: the
    exception leaves the operator with [v] and [rhs] exactly as before; the
    temporary's buffer has been cleaned up and freed. *)
Theorem copy_assignment_strong_guarantee v rhs w (j : nat) (t : T) :
  capacity v < size_ rhs →
  alloc_fails (size_ rhs) = false →
  j < size_ rhs →
  (∀ i, i < j →
     ∃ u, cells (data_ rhs) !! i = Some (Live u) ∧ copy_throws u = false) →
  cells (data_ rhs) !! j = Some (Live t) → copy_throws t = true →
  let b := S (next_block w) in
  call2 copy_assign v rhs w
  = (Throw elem_exn, v, rhs,
     mkWorld (log w ++ [Alloc b (size_ rhs)] ++ (Dtor b <$> seq 0 j) ++ [Free b]) b).
Proof.
  intros Hc Ha Hj Hpre Et Ect b. unfold capacity in Hc.
  set (s0 := mkSt v rhs RawMemory_default w).
  unfold call2. fold s0. unfold copy_assign.
  rewrite bind_gets, bind_Capacity. cbn [s0 this other]. fold s0.
  rewrite (proj2 (Nat.ltb_lt _ _) Hc).
  rewrite (bind_throw _ _ s0 elem_exn
             (mkSt v rhs RawMemory_default
                (mkWorld (log w ++ [Alloc b (size_ rhs)] ++ (Dtor b <$> seq 0 j)
                          ++ [Free b]) b))); [done|].
  apply bind_throw. unfold in_object. cbn [s0 this other new_data world].
  by rewrite (Vector_copy_throws_run (mkSt Vector_default rhs RawMemory_default w) j t).
Qed.

(** X21.  When the allocation fails, [std::bad_alloc] leaves the
    operation before anything has been touched: [Reserve] past the capacity,
    [EmplaceBack] into a full buffer (whatever the constructor of the new
    element would have done), [Emplace] in the middle of a full buffer, and
    the sized constructor all leave the sequence and the heap exactly as
    they were. *)
Theorem bad_alloc_changes_nothing v w :
  (∀ c, capacity v < c → alloc_fails c = true →
     call (Reserve c) v w = (Throw bad_alloc, v, w))
  ∧ (∀ c, size_ v = capacity v →
       alloc_fails (max 1 (2 * capacity v)) = true →
       call (EmplaceBack c) v w = (Throw bad_alloc, v, w))
  ∧ (∀ k c, k < size_ v → capacity v ≤ size_ v →
       alloc_fails (size_ v * 2) = true →
       call (Emplace (Ptr (buffer_ (data_ v)) k) c) v w = (Throw bad_alloc, v, w))
  ∧ (∀ n, n ≠ 0 → alloc_fails n = true →
       call (Vector_sized n) v w = (Throw bad_alloc, v, w)).
Proof.
  unfold capacity.
  set (s0 := mkSt v Vector_default RawMemory_default w).
  assert (∀ A n (body : M T A), n ≠ 0 → alloc_fails n = true →
            with_new_data n body s0 = (Throw bad_alloc, s0)) as Hnew.
  { intros A n body Hn Ha. unfold with_new_data, RawMemory_new, bind, Allocate.
    by rewrite (proj2 (Nat.eqb_neq n 0) Hn), Ha. }
  assert (∀ c, capacity_ (data_ v) < c → alloc_fails c = true →
            Reserve c s0 = (Throw bad_alloc, s0)) as Hres.
  { intros c Hc Ha. unfold Reserve. rewrite bind_Capacity. cbn [s0 this]. fold s0.
    rewrite (proj2 (Nat.leb_gt _ _) Hc). apply Hnew; [lia|done]. }
  split_and!.
  - intros c Hc Ha. unfold call. fold s0. by rewrite Hres.
  - intros c Hfull Ha. unfold call, EmplaceBack. fold s0.
    rewrite bind_Size. cbn [s0 this]. fold s0.
    rewrite (bind_throw _ _ s0 bad_alloc s0); [done|].
    destruct (size_ v =? 0) eqn:E0.
    + apply Nat.eqb_eq in E0. rewrite <- Hfull, E0 in Ha. cbn in Ha.
      apply bind_throw. apply Hres; [lia|done].
    + apply Nat.eqb_neq in E0. rewrite bind_Capacity. cbn [s0 this]. fold s0.
      rewrite (proj2 (Nat.eqb_eq _ _) Hfull).
      apply Hnew; [lia|]. rewrite <- Hfull in Ha.
      by replace (size_ v * 2) with (1 `max` (2 * size_ v)) by lia.
  - intros k c Hk Hfull Ha. unfold call. fold s0. unfold Emplace.
    rewrite (bind_eq begin _ s0 (Ptr (buffer_ (data_ v)) 0) s0 eq_refl).
    rewrite (bind_eq _ _ _ _ _ (run_end_ s0)).
    rewrite (bind_eq (assert _) _ s0 tt s0).
    2:{ apply run_assert. unfold ptr_leb. cbn.
        rewrite Nat.eqb_refl. cbn. apply Nat.leb_le. lia. }
    rewrite bind_Size. cbn [s0 this size_ off]. fold s0.
    rewrite Nat.sub_0_r. rewrite (proj2 (Nat.eqb_neq k (size_ v))) by lia.
    rewrite bind_Capacity. cbn [s0 this]. fold s0.
    rewrite (proj2 (Nat.leb_le _ _) Hfull).
    rewrite (bind_throw _ _ s0 bad_alloc s0); [done|].
    apply Hnew; [lia|done].
  - intros n Hn Ha. unfold call, Vector_sized. fold s0.
    rewrite (bind_throw _ _ s0 bad_alloc s0); [done|].
    unfold RawMemory_new, bind, Allocate.
    by rewrite (proj2 (Nat.eqb_neq n 0) Hn), Ha.
Qed.

End Failures.

(** ** The growth policy *)

Section Growth.
Context {T : Type} `{Element T}.
Implicit Types (s : St T) (v : Vector T) (w : World).

(** The end of [EmplaceBack], once the new element sits in slot [size_]. *)
Lemma EmplaceBack_tail (body : M T unit) s s1 :
  body s = (Ok tt, s1) →
  size_ (this s1) < capacity_ (data_ (this s1)) →
  (body;; incr_size;; sz' ← Size; RawMemory_index Data (sz' - 1)) s
  = (Ok (Ptr (buffer_ (data_ (this s1))) (size_ (this s1))),
     set_size (size_ (this s1) + 1) s1).
Proof.
  intros Eb Hlt. rewrite (bind_eq _ _ _ _ _ Eb).
  unfold incr_size. rewrite bind_modify, bind_Size.
  cbn [this set_size size_]. rewrite run_RawMemory_index by (cbn; lia).
  cbn [get_mem set_size this data_]. do 3 f_equal. lia.
Qed.

(** [Emplace] at the end cursor is [EmplaceBack]. *)
Lemma Emplace_at_end v w (c : option T) :
  call (Emplace (Ptr (buffer_ (data_ v)) (size_ v)) c) v w
  = call (EmplaceBack c) v w.
Proof.
  set (s0 := mkSt v Vector_default RawMemory_default w).
  unfold call, Emplace. fold s0.
  rewrite (bind_eq begin _ s0 (Ptr (buffer_ (data_ v)) 0) s0 eq_refl).
  rewrite (bind_eq _ _ _ _ _ (run_end_ s0)). cbn [s0 this]. fold s0.
  rewrite (bind_eq (assert _) _ s0 tt s0).
  2:{ apply run_assert. unfold ptr_leb. cbn [blk off].
      rewrite Nat.eqb_refl, Nat.leb_refl. reflexivity. }
  rewrite bind_Size. cbn [s0 this off]. fold s0.
  by rewrite Nat.sub_0_r, Nat.eqb_refl.
Qed.

(** [EmplaceBack] returns and follows the growth policy. *)
Lemma EmplaceBack_by_policy v w (x : T) :
  wf v →
  (size_ v = capacity v →
     alloc_fails (max 1 (2 * capacity v)) = false ∧ relocatable v) →
  ∃ p v' w', call (EmplaceBack (Some x)) v w = (Ok p, v', w')
    ∧ grown_by_policy v w v' w'.
Proof.
  intros Hwf Hfull. pose proof Hwf as [Hlen Hsz Hlive Hraw].
  set (s0 := mkSt v Vector_default RawMemory_default w).
  unfold grown_by_policy, call, EmplaceBack. fold s0.
  rewrite bind_Size. cbn [s0 this]. fold s0.
  destruct (size_ v =? 0) eqn:E0.
  - apply Nat.eqb_eq in E0.
    destruct (decide (1 ≤ capacity v)) as [Hc|Hc].
    + (* no element yet, spare capacity *)
      rewrite (proj2 (Nat.eqb_neq (size_ v) (capacity v))) by lia.
      erewrite EmplaceBack_tail.
      2:{ rewrite (bind_eq _ _ _ _ _ (Reserve_noop s0 1 Hc)).
          apply run_placement_new. apply Hraw. lia. }
      2:{ unfold capacity in *. cbn. lia. }
      eexists _, _, _. split; [reflexivity|].
      cbn. unfold capacity. split_and!; try done.
      intros b n. by rewrite app_nil_r.
    + (* no buffer: Reserve (1) allocates *)
      assert (capacity v = 0) as Hc0 by lia.
      destruct (Hfull ltac:(lia)) as [Ha Hrel]. rewrite Hc0 in Ha. cbn in Ha.
      rewrite (proj2 (Nat.eqb_eq (size_ v) (capacity v))) by lia.
      destruct (Reserve_grow_trace s0 1 Hwf ltac:(cbn; lia) Ha Hrel)
        as (sr & Er & _ & _ & Hsr & Hcr & Hbr & [Hl1 Hs1 Hlive1 Hraw1] & _ & Hw).
      cbn [s0 this world] in *. unfold capacity in *.
      erewrite EmplaceBack_tail.
      2:{ rewrite (bind_eq _ _ _ _ _ Er). apply run_placement_new.
          apply Hraw1. cbn [get_mem]. lia. }
      2:{ cbn. lia. }
      eexists _, _, _. split; [reflexivity|].
      cbn. rewrite Hw, Hc0, Hcr, Hbr. cbn. split_and!; try done.
      rewrite !in_app_iff. left. right. by left.
  - apply Nat.eqb_neq in E0.
    destruct (size_ v =? capacity v) eqn:Ef.
    + (* full: relocate into a buffer twice as large *)
      apply Nat.eqb_eq in Ef. destruct (Hfull Ef) as [Ha Hrel].
      replace (1 `max` (2 * capacity v)) with (size_ v * 2) in * by lia.
      subst s0. destruct v as [[b cs cap] sz]. unfold capacity, relocatable in *.
      cbn [this other data_ size_ cells capacity_ buffer_] in *.
      clear Hfull Hsz. rewrite <- Ef in *. clear Ef cap.
      set (n := sz * 2) in *. set (nb := S (next_block w)).
      set (s0 := mkSt (mkVec (mkRaw b cs sz) sz) Vector_default RawMemory_default w).
      set (sa := mkSt (mkVec (mkRaw b cs sz) sz) Vector_default
                      (mkRaw nb (replicate n Raw) n)
                      (mkWorld (log w ++ [Alloc nb n]) nb)).
      set (sb := add_log [] (set_cells NewData (<[sz:=Live x]> (replicate n Raw)) sa)).
      destruct (run_relocate 0 sz 0 sb) as (scs & dcs & Er & Hdl & Hin & Hout).
      { intros i Hi. destruct (Hlive i Hi) as [t Et]. exists t. split; [done|].
        by apply (Hrel i). }
      { intros i Hi. cbn. rewrite list_lookup_insert_ne by lia.
        apply lookup_replicate_2. lia. }
      set (sc := add_log [] (set_cells NewData dcs (set_cells Data scs sb))) in *.
      destruct (destroy_n_run Data 0 sz sc) as (cs4 & ev4 & Ed).
      set (sd := add_log ev4 (set_cells Data cs4 sc)) in *.
      set (se := set_mem Data (new_data sd) (set_mem NewData (data_ (this sd)) sd)).
      set (sf := set_mem NewData RawMemory_default (Deallocate (new_data se) se).2).
      assert (this sf = mkVec (mkRaw nb dcs n) sz) as Hthis.
      { unfold sf. cbn [this set_mem]. by rewrite this_Deallocate. }
      erewrite (EmplaceBack_tail _ s0 sf).
      2:{ rewrite bind_Capacity. cbn [s0 this data_ capacity_]. fold s0.
          rewrite Nat.eqb_refl.
          apply (run_with_new_data n _ s0); [lia|done|].
          cbn [s0 this other world]. fold nb. fold sa.
          rewrite (bind_eq _ _ _ _ _
                     (run_RawMemory_plus NewData sz sa ltac:(cbn; lia))).
          rewrite (bind_eq _ _ sa tt sb).
          2:{ apply run_placement_new. cbn. apply lookup_replicate_2. lia. }
          apply try_catch_ok.
          rewrite (bind_eq _ _ _ _ _ Er), (bind_eq _ _ _ _ _ Ed).
          reflexivity. }
      2:{ rewrite Hthis. cbn. lia. }
      eexists _, _, _. split; [reflexivity|].
      cbn [set_size this world data_ capacity_ buffer_]. rewrite Hthis.
      cbn [data_ capacity_ buffer_]. split_and!; try done.
      * unfold sf. cbn [world set_mem]. by rewrite next_block_Deallocate.
      * unfold sf. cbn [world set_mem]. rewrite log_Deallocate.
        rewrite !in_app_iff. left.
        cbn [se sd sc sb sa set_mem add_log set_cells world log].
        rewrite !in_app_iff. do 3 left. right. by left.
    + (* spare capacity *)
      pose proof Ef as Eb. apply Nat.eqb_neq in Ef.
      erewrite EmplaceBack_tail.
      2:{ rewrite bind_Capacity. cbn [s0 this]. fold s0. fold (capacity v).
          rewrite Eb.
          rewrite (bind_eq _ _ _ _ _
                     (run_RawMemory_plus Data (size_ v) s0 ltac:(unfold capacity in *; cbn; lia))).
          apply run_placement_new. apply Hraw. lia. }
      2:{ unfold capacity in *. cbn. lia. }
      eexists _, _, _. split; [reflexivity|].
      cbn. unfold capacity. split_and!; try done.
      intros b n. by rewrite app_nil_r.
Qed.

(** [Emplace] before element [k] returns and follows the growth policy. *)
Lemma Emplace_by_policy v w (k : nat) (x : T) :
  wf v →
  (size_ v = capacity v →
     alloc_fails (max 1 (2 * capacity v)) = false ∧ relocatable v) →
  k ≤ size_ v →
  (k < size_ v < capacity v →
     ∀ i t, k ≤ i < size_ v → value_at v i = Some t →
       move_throws t = false ∧ move_assign_throws t = false
       ∧ move_assign_throws (moved_from t) = false) →
  ∃ p v' w',
    call (Emplace (Ptr (buffer_ (data_ v)) k) (Some x)) v w = (Ok p, v', w')
    ∧ grown_by_policy v w v' w'.
Proof.
  intros Hwf Hfull Hk Hmove. pose proof Hwf as [Hlen Hsz Hlive Hraw].
  destruct (decide (k = size_ v)) as [->|Hne].
  { rewrite Emplace_at_end. by apply EmplaceBack_by_policy. }
  destruct (decide (size_ v = capacity v)) as [Ef|Ef].
  - destruct (Hfull Ef) as [Ha Hrel].
    replace (1 `max` (2 * capacity v)) with (size_ v * 2) in Ha by lia.
    destruct (Emplace_realloc_run v w k x Hwf ltac:(lia) Ef Ha Hrel)
      as (s' & E & _ & Hcap & Hb & _ & _ & _ & _ & Hw).
    exists (Ptr (S (next_block w)) k), (this s'), (world s').
    split; [unfold call; by rewrite E|].
    unfold grown_by_policy. rewrite (proj2 (Nat.eqb_eq _ _) Ef).
    rewrite Hw. cbn [log next_block]. split_and!; [lia|done|done|].
    rewrite !in_app_iff. right. left.
    replace (1 `max` (2 * capacity v)) with (size_ v * 2) by lia. by left.
  - destruct (Hlive (size_ v - 1)) as [last Elast]; [lia|].
    assert (value_at v (size_ v - 1) = Some last) as Vlast
      by (unfold value_at; by rewrite Elast).
    destruct (Hmove ltac:(lia) (size_ v - 1) last ltac:(lia) Vlast)
      as (Hmt & _ & Hmat).
    destruct (Emplace_in_place_run v w k x last Hwf ltac:(lia) ltac:(lia)
                Elast Hmt Hmat)
      as (v' & w' & E & _ & _ & _ & _ & _ & _ & Hcap & Hb & Hw).
    { intros i t Hi Et. apply (Hmove ltac:(lia) i t); [lia|].
      unfold value_at. by rewrite Et. }
    exists (Ptr (buffer_ (data_ v)) k), v', w'. split; [done|].
    unfold grown_by_policy. rewrite (proj2 (Nat.eqb_neq _ _) Ef).
    rewrite Hw. cbn [log next_block]. split_and!; try done.
    intros b n. rewrite in_app_iff. intros [Hin|[Hin|[]]]; [done|discriminate].
Qed.

(** C6.  On a well-formed sequence, when nothing that is called throws,
    [EmplaceBack], both overloads of [PushBack], and [Emplace] at any
    cursor [begin () + k] of the sequence return normally, and each of them
    reallocates exactly when [size = capacity]: then the sequence is in a
    block that the call has allocated, of capacity [max 1 (2 * capacity)],
    and otherwise it is in the same buffer with the same capacity and the
    call has allocated nothing.  Three pushes into a default-constructed
    sequence observe the capacities 1, 2, 4. *)
Theorem growth_policy v w (x : T) (k : nat) :
  wf v →
  (size_ v = capacity v →
     alloc_fails (max 1 (2 * capacity v)) = false ∧ relocatable v) →
  k ≤ size_ v →
  (k < size_ v < capacity v →
     ∀ i t, k ≤ i < size_ v → value_at v i = Some t →
       move_throws t = false ∧ move_assign_throws t = false
       ∧ move_assign_throws (moved_from t) = false) →
  (∃ p v' w', call (EmplaceBack (Some x)) v w = (Ok p, v', w')
     ∧ grown_by_policy v w v' w')
  ∧ (copy_throws x = false →
     ∃ v' w', call (PushBack x) v w = (Ok tt, v', w')
       ∧ grown_by_policy v w v' w')
  ∧ (move_throws x = false →
     ∃ v' w', call (PushBack_rvalue x) v w = (Ok tt, v', w')
       ∧ grown_by_policy v w v' w')
  ∧ (∃ p v' w',
       call (Emplace (Ptr (buffer_ (data_ v)) k) (Some x)) v w = (Ok p, v', w')
       ∧ grown_by_policy v w v' w')
  ∧ (∀ x1 x2 x3,
       copy_throws x1 = false → copy_throws x2 = false → copy_throws x3 = false →
       alloc_fails 1 = false → alloc_fails 2 = false → alloc_fails 4 = false →
       (if relocate_by_move then move_throws x1 else copy_throws x1) = false →
       (if relocate_by_move then move_throws x2 else copy_throws x2) = false →
       ∃ v' w',
         call (three_pushes x1 x2 x3) Vector_default w = (Ok (1, 2, 4), v', w')).
Proof.
  intros Hwf Hfull Hk Hmove.
  destruct (EmplaceBack_by_policy v w x Hwf Hfull) as (p & v' & w' & E & Hg).
  split_and!.
  - by exists p, v', w'.
  - intros Hx. exists v', w'. split; [|done]. by eapply call_PushBack.
  - intros Hx. exists v', w'. split; [|done]. by eapply call_PushBack_rvalue.
  - by apply Emplace_by_policy.
  - intros x1 x2 x3 H1 H2 H3 H4 H5 H6 H7 H8.
    destruct (three_pushes_run x1 x2 x3 w) as (v3 & w3 & E3 & _); eauto.
Qed.

End Growth.

(** ** The further theorems at concrete inputs *)

Lemma growth_policy_witness :
  wf five_ints ∧ wf three_ints
  ∧ (∃ p v' w',
       call (Emplace (Ptr 1 2) (Some 25)) five_ints world1 = (Ok p, v', w')
       ∧ capacity v' = 10 ∧ buffer_ (data_ v') = 2
       ∧ In (Alloc 2 10) (log w'))
  ∧ (∃ v' w',
       call (PushBack_rvalue 4) three_ints world1 = (Ok tt, v', w')
       ∧ capacity v' = 4 ∧ buffer_ (data_ v') = 1 ∧ next_block w' = 1)
  ∧ ∃ v' w',
      call (three_pushes 1 2 3) (@Vector_default nat) world1 = (Ok (1, 2, 4), v', w').
Proof.
  split; [wf_concrete|]. split; [wf_concrete|].
  destruct (growth_policy five_ints world1 25 2)
    as (_ & _ & _ & Hemplace & Hthree); [wf_concrete| |cbn; lia|cbn; lia|].
  { intros _. split; [reflexivity|]. intros i t _ _. reflexivity. }
  destruct (growth_policy three_ints world1 4 1)
    as (_ & _ & Hpush & _); [wf_concrete|cbn; lia|cbn; lia| |].
  { intros _ i t _ _. split_and!; reflexivity. }
  split_and!.
  - destruct Hemplace as (p & v' & w' & E & Hc & Hb & _ & Hin).
    exists p, v', w'. split_and!; [exact E|exact Hc|exact Hb|exact Hin].
  - destruct (Hpush eq_refl) as (v' & w' & E & Hc & Hb & Hn & _).
    exists v', w'. split_and!; [exact E|exact Hc|exact Hb|exact Hn].
  - apply (Hthree 1 2 3); reflexivity.
Defined.


Lemma PopBack_removes_last_witness :
  wf five_ints
  ∧ ∃ v', call PopBack five_ints world1 = (Ok tt, v', mkWorld [Dtor 1 4] 1)
      ∧ size_ v' = 4.
Proof.
  split; [wf_concrete|].
  destruct (PopBack_removes_last five_ints world1) as [_ Hpop]; [wf_concrete|].
  destruct Hpop as (v' & E & Hs & _); [cbn; lia|].
  exists v'. split; [exact E|exact Hs].
Defined.

Lemma Reserve_relocates_witness :
  wf three_ints ∧ fits (T:=nat) 8
  ∧ ∃ v', call (Reserve 8) three_ints world1
          = (Ok tt, v', mkWorld [Alloc 2 8; Dtor 1 0; Dtor 1 1; Dtor 1 2; Free 1] 2)
      ∧ size_ v' = 3
      ∧ capacity v' = 8.
Proof.
  split; [wf_concrete|]. split; [by vm_compute|].
  destruct (Reserve_relocates three_ints world1 8) as [_ Hgrow]; [wf_concrete| |].
  { intros _. split_and!; [by vm_compute|reflexivity|]. intros i t _ _. reflexivity. }
  destruct Hgrow as (v' & E & Hs & Hc & _); [cbn; lia|].
  exists v'. split_and!; [exact E|exact Hs|exact Hc].
Defined.

Lemma destructor_destroys_live_range_witness :
  wf three_ints
  ∧ (call Vector_dtor three_ints world1).2
    = mkWorld [Dtor 1 0; Dtor 1 1; Dtor 1 2; Free 1] 1.
Proof.
  split; [wf_concrete|].
  destruct (destructor_destroys_live_range three_ints world1) as (_ & Hw & _);
    [wf_concrete|].
  exact Hw.
Defined.

Lemma Resize_shrinks_witness :
  wf five_ints
  ∧ ∃ v', call (Resize 2) five_ints world1
          = (Ok tt, v', mkWorld [Dtor 1 2; Dtor 1 3; Dtor 1 4] 1)
      ∧ size_ v' = 2
      ∧ capacity v' = 5.
Proof.
  split; [wf_concrete|].
  destruct (Resize_shrinks five_ints world1 2) as (v' & E & Hs & Hc & _);
    [wf_concrete|cbn; lia|].
  exists v'. split_and!; [exact E|exact Hs|exact Hc].
Defined.

Lemma Resize_grows_witness :
  wf three_ints ∧ fits (T:=nat) 6
  ∧ ∃ v' w', call (Resize 6) three_ints world1 = (Ok tt, v', w')
      ∧ capacity v' = 6
      ∧ size_ v' = 6
      ∧ value_at v' 5 = Some 0.
Proof.
  split; [wf_concrete|]. split; [by vm_compute|].
  destruct (Resize_grows three_ints world1 6)
    as (v' & w' & E & Hc & _ & Hs & Hv & _); [wf_concrete|cbn; lia| |].
  { intros _. split_and!; [by vm_compute|reflexivity|]. intros i t _ _. reflexivity. }
  exists v', w'. split_and!; [exact E|exact Hc|exact Hs|].
  apply Hv. cbn. lia.
Defined.

Lemma sized_constructor_witness :
  fits (T:=nat) 3
  ∧ ∃ v' w', call (Vector_sized 3) (@Vector_default nat) world1 = (Ok tt, v', w')
      ∧ size_ v' = 3
      ∧ value_at v' 2 = Some 0.
Proof.
  split; [by vm_compute|].
  destruct (sized_constructor (@Vector_default nat) world1 3) as [Hok _];
    [by vm_compute|reflexivity|].
  destruct (Hok 0 eq_refl) as (v' & w' & E & Hs & _ & Hv & _).
  exists v', w'. split_and!; [exact E|exact Hs|]. apply Hv. lia.
Defined.

Lemma copy_assignment_copies_witness :
  wf three_ints ∧ wf five_ints
  ∧ ∃ v' w', call2 copy_assign three_ints five_ints world1
             = (Ok tt, v', five_ints, w')
      ∧ size_ v' = 5
      ∧ capacity v' = 5
      ∧ value_at v' 4 = Some 50.
Proof.
  split; [wf_concrete|]. split; [wf_concrete|].
  destruct (copy_assignment_copies three_ints five_ints world1)
    as (v' & w' & E & Hs & Hc & Hv & _); [wf_concrete|wf_concrete| | |].
  { reflexivity. }
  { intros i t _ _. split; reflexivity. }
  exists v', w'. split_and!; [exact E|exact Hs|exact Hc|].
  rewrite Hv; [reflexivity|cbn; lia].
Defined.

Lemma Emplace_reallocates_witness :
  wf five_ints
  ∧ ∃ v', (call (Emplace (Ptr 1 2) (Some 25)) five_ints world1).1.1
          = Ok (Ptr (buffer_ (data_ v')) 2)
      ∧ size_ v' = 6
      ∧ capacity v' = 10
      ∧ value_at v' 2 = Some 25
      ∧ value_at v' 5 = Some 50.
Proof.
  split; [wf_concrete|].
  destruct (Emplace_reallocates five_ints world1 2 25)
    as (v' & E & Hs & Hc & Hx & _ & Hhi & _);
    [wf_concrete|cbn; lia|reflexivity|reflexivity| |].
  { intros i t _ _. reflexivity. }
  exists v'. split_and!; [exact (f_equal (λ r, r.1.1) E)|exact Hs|exact Hc|exact Hx|].
  rewrite (Hhi 4); [reflexivity|cbn; lia].
Defined.

Lemma EmplaceBack_constructor_throws_witness :
  wf five_ints
  ∧ call (EmplaceBack None) five_ints world1
    = (Throw elem_exn, five_ints, mkWorld [Alloc 2 10; Free 2] 2).
Proof.
  split; [wf_concrete|].
  destruct (EmplaceBack_constructor_throws five_ints world1) as (_ & Hfull & _);
    [wf_concrete|].
  apply Hfull; [cbn; lia|reflexivity|reflexivity].
Defined.

Lemma Emplace_constructor_throws_full_witness :
  call (Emplace (Ptr 1 2) None) five_ints world1
  = (Throw elem_exn, five_ints, mkWorld [Alloc 2 10; Free 2] 2).
Proof.
  destruct (Emplace_constructor_throws_full five_ints world1 2) as (He & _);
    [cbn; lia|cbn; lia|reflexivity|].
  exact He.
Defined.

Lemma PushBack_PopBack_round_trip_witness :
  wf five_ints
  ∧ ∃ v' w', call (PushBack 60;; PopBack) five_ints world1 = (Ok tt, v', w')
      ∧ size_ v' = 5
      ∧ value_at v' 4 = Some 50
      ∧ capacity v' = 10.
Proof.
  split; [wf_concrete|].
  destruct (PushBack_PopBack_round_trip five_ints world1 60)
    as (v' & w' & E & Hs & Hv & Hc & _); [reflexivity|wf_concrete| |].
  { intros _. split; [reflexivity|]. intros i t _ _. reflexivity. }
  exists v', w'. split_and!; [exact E|exact Hs| |exact Hc].
  rewrite Hv; [reflexivity|cbn; lia].
Defined.

Lemma index_is_checked_witness :
  wf three_ints
  ∧ call (Vector_index 2) three_ints world1 = (Ok (Ptr 1 2), three_ints, world1)
  ∧ call (Vector_index 3) three_ints world1 = (Abort, three_ints, world1).
Proof.
  split; [wf_concrete|].
  destruct (index_is_checked three_ints world1 2) as (Hin & _); [wf_concrete|].
  destruct (index_is_checked three_ints world1 3) as (_ & Hout & _); [wf_concrete|].
  split; [apply Hin|apply Hout]; cbn; lia.
Defined.

Lemma Erase_last_is_PopBack_witness :
  wf five_ints
  ∧ ∃ v' w',
      call (Erase (Ptr 1 4)) five_ints world1
      = (Ok (Ptr (buffer_ (data_ v')) (size_ v')), v', w')
      ∧ call PopBack five_ints world1 = (Ok tt, v', w')
      ∧ size_ v' = 4.
Proof.
  split; [wf_concrete|].
  apply (Erase_last_is_PopBack five_ints world1); [wf_concrete|cbn; lia].
Defined.

Lemma EmplaceBack_rolls_back_witness :
  call (EmplaceBack (Some (Probe 4 false))) three_probes world1
  = (Throw elem_exn, three_probes,
     mkWorld [Alloc 2 6; Dtor 2 0; Dtor 2 1; Dtor 2 3; Free 2] 2).
Proof.
  apply (EmplaceBack_rolls_back three_probes world1 (Probe 4 false) 2
           (Probe 3 true)).
  - reflexivity.
  - cbn. lia.
  - reflexivity.
  - reflexivity.
  - cbn. lia.
  - intros i Hi.
    repeat (destruct i as [|i]; [eexists; split; reflexivity|]). lia.
  - reflexivity.
  - reflexivity.
Defined.

Lemma Reserve_move_throws_witness :
  wf two_handles ∧ fits (T:=handle) 4
  ∧ ∃ v', call (Reserve 4) two_handles world1
          = (Throw elem_exn, v', mkWorld [Alloc 2 4; Dtor 2 0; Free 2] 2)
      ∧ size_ v' = 2
      ∧ value_at v' 0 = Some (Handle 0 false)
      ∧ value_at v' 1 = Some (Handle 2 true).
Proof.
  split; [wf_concrete|]. split; [by vm_compute|].
  destruct (Reserve_move_throws two_handles world1 4 1 (Handle 2 true))
    as (v' & E & Hs & _ & _ & Hlo & Hhi & _);
    [reflexivity|wf_concrete|cbn; lia|by vm_compute|reflexivity|cbn; lia|
    |reflexivity|reflexivity|].
  { intros i u Hi Eu. destruct i as [|i]; [|lia]. by injection Eu as <-. }
  exists v'. split_and!; [exact E|exact Hs| |].
  - apply (Hlo 0 (Handle 1 false)); [lia|reflexivity].
  - rewrite (Hhi 1); [reflexivity|lia].
Defined.

Lemma copy_constructor_rolls_back_witness :
  call2 Vector_copy Vector_default three_probes world1
  = (Throw elem_exn, Vector_default, three_probes,
     mkWorld [Alloc 2 3; Dtor 2 0; Dtor 2 1; Free 2] 2).
Proof.
  apply (copy_constructor_rolls_back Vector_default three_probes world1 2
           (Probe 3 true)).
  - reflexivity.
  - cbn. lia.
  - intros i Hi.
    repeat (destruct i as [|i]; [eexists; split; reflexivity|]). lia.
  - reflexivity.
  - reflexivity.
Defined.

Lemma copy_assignment_strong_guarantee_witness :
  call2 copy_assign Vector_default three_probes world1
  = (Throw elem_exn, Vector_default, three_probes,
     mkWorld [Alloc 2 3; Dtor 2 0; Dtor 2 1; Free 2] 2).
Proof.
  apply (copy_assignment_strong_guarantee Vector_default three_probes world1 2
           (Probe 3 true)).
  - cbn. lia.
  - reflexivity.
  - cbn. lia.
  - intros i Hi.
    repeat (destruct i as [|i]; [eexists; split; reflexivity|]). lia.
  - reflexivity.
  - reflexivity.
Defined.

Lemma bad_alloc_changes_nothing_witness :
  call (Reserve 9) two_handles world1 = (Throw bad_alloc, two_handles, world1)
  ∧ call (EmplaceBack (Some (Handle 3 false)))
         (mkVec (mkRaw 1 (replicate 5 (Live (Handle 1 false))) 5) 5) world1
    = (Throw bad_alloc,
       mkVec (mkRaw 1 (replicate 5 (Live (Handle 1 false))) 5) 5, world1).
Proof.
  split.
  - apply (bad_alloc_changes_nothing two_handles world1); [cbn; lia|reflexivity].
  - apply (bad_alloc_changes_nothing
             (mkVec (mkRaw 1 (replicate 5 (Live (Handle 1 false))) 5) 5) world1);
      reflexivity.
Defined.
